(** * GWFish: the Fisher-matrix core ([GWFish/modules/fishermatrix.py])

    A shallow embedding of the derivative engine, the Fisher-matrix
    assembly, the SVD-based inversion and the network aggregation, over the
    real numbers.  Floating-point numbers are read as reals; NumPy arrays of
    one axis are lists, square matrices are index functions together with
    their size; Python exceptions are the [Raise] results of a small error
    monad; the objects that the module mutates ([Derivative],
    [FisherMatrix]) are records threaded through a state monad. *)

From Stdlib Require Import Reals Lra Lia Sorted.
From stdpp Require Import base gmap strings list.

Local Open Scope R_scope.

(** ** Python exceptions and results *)

Inductive exn : Type :=
| AssertionError
| KeyError (key : string)
| IndexError
| ValueError
| TypeError.

Inductive result (A : Type) : Type :=
| Ok (a : A)
| Raise (e : exn).
Arguments Ok {A} a.
Arguments Raise {A} e.

Definition rbind {A B} (x : result A) (f : A -> result B) : result B :=
  match x with
  | Ok a => f a
  | Raise e => Raise e
  end.

(** A computation that reads and writes an object of type [St] and may
    raise. *)
Definition M (St A : Type) : Type := St -> result (A * St).

Definition ret {St A} (a : A) : M St A := fun s => Ok (a, s).
Definition bind {St A B} (m : M St A) (f : A -> M St B) : M St B :=
  fun s => match m s with
           | Ok (a, s') => f a s'
           | Raise e => Raise e
           end.
Definition get {St} : M St St := fun s => Ok (s, s).
Definition put {St} (s : St) : M St unit := fun _ => Ok (tt, s).
Definition modify {St} (f : St -> St) : M St unit := fun s => Ok (tt, f s).
Definition raise {St A} (e : exn) : M St A := fun _ => Raise e.
Definition lift {St A} (x : result A) : M St A :=
  fun s => match x with Ok a => Ok (a, s) | Raise e => Raise e end.

Declare Scope monad_scope.
Delimit Scope monad_scope with monad.
Notation "x <- m ;; k" := (bind m (fun x => k))
  (at level 100, m at next level, right associativity) : monad_scope.
Notation "m ;;; k" := (bind m (fun _ => k))
  (at level 100, right associativity) : monad_scope.

(** [for x in xs: body x] *)
Fixpoint for_each {St A} (xs : list A) (body : A -> M St unit) : M St unit :=
  match xs with
  | [] => ret tt
  | x :: xs' => bind (body x) (fun _ => for_each xs' body)
  end.

(** The same loop over a computation that only raises. *)
Fixpoint fold_result {A B} (f : B -> A -> result B) (xs : list A) (b : B)
  : result B :=
  match xs with
  | [] => Ok b
  | x :: xs' => rbind (f b x) (fold_result f xs')
  end.

Fixpoint map_result {A B} (f : A -> result B) (xs : list A) : result (list B) :=
  match xs with
  | [] => Ok []
  | x :: xs' => rbind (f x) (fun y => rbind (map_result f xs') (fun ys => Ok (y :: ys)))
  end.

(** ** Numbers *)

#[global] Instance Rlt_decision : RelDecision Rlt := Rlt_dec.
#[global] Instance Rgt_decision : RelDecision Rgt := Rgt_dec.

(** [np.sum] of a real array. *)
Definition Rsum (l : list R) : R := fold_left Rplus l 0.

(** Complex numbers as the pair of real and imaginary part. *)
Record C : Type := mkC { Re : R; Im : R }.

Definition RtoC (x : R) : C := mkC x 0.
Definition Cadd (z w : C) : C := mkC (Re z + Re w) (Im z + Im w).
Definition Csub (z w : C) : C := mkC (Re z - Re w) (Im z - Im w).
Definition Cmul (z w : C) : C :=
  mkC (Re z * Re w - Im z * Im w) (Re z * Im w + Im z * Re w).
(** real times complex, complex divided by real *)
Definition Cscale (x : R) (z : C) : C := mkC (x * Re z) (x * Im z).
Definition Cdivr (z : C) (x : R) : C := mkC (Re z / x) (Im z / x).
(** [np.exp] of a complex number *)
Definition Cexp (z : C) : C :=
  mkC (exp (Re z) * cos (Im z)) (exp (Re z) * sin (Im z)).

(** The imaginary unit. *)
Definition Ci : C := mkC 0 1.

(** [-1j], [2j] *)
Definition neg_1j : C := mkC 0 (-1).
Definition two_j : C := mkC 0 2.

(** Element-wise operations of NumPy on arrays of equal length. *)
Definition arr_sub (a b : list C) : list C := zip_with Csub a b.

(** ** Square matrices

    A matrix is its index function; the code always knows the size ([nd],
    [n_params]) and it is passed along. *)

Definition Matrix : Type := nat -> nat -> R.

(** [np.zeros((n, n))] *)
Definition zeros : Matrix := fun _ _ => 0.

(** [m[i, j] = v] *)
Definition mset (m : Matrix) (i j : nat) (v : R) : Matrix :=
  fun a b => if decide (a = i /\ b = j) then v else m a b.

(** [m += d] *)
Definition madd (m d : Matrix) : Matrix := fun i j => m i j + d i j.

(** sum of [f 0 .. f (n-1)] *)
Fixpoint rsum (n : nat) (f : nat -> R) : R :=
  match n with
  | O => 0
  | S k => rsum k f + f k
  end.

(** [a @ b] with inner dimension [k] *)
Definition mmul (k : nat) (a b : Matrix) : Matrix :=
  fun i j => rsum k (fun c => a i c * b c j).

(** [np.diag(v)] of a vector *)
Definition mdiag (v : nat -> R) : Matrix :=
  fun i j => if decide (i = j) then v i else 0.

Definition identity : Matrix := fun i j => if decide (i = j) then 1 else 0.

Definition symmetric (m : Matrix) : Prop := forall i j, m i j = m j i.

(** ** Parameters, detectors, networks *)

(** A row of the parameter table: parameter name to value. *)
Abbreviation Params := (gmap string R).

(** [params[key]] *)
Definition getitem (params : Params) (key : string) : result R :=
  match params !! key with
  | Some v => Ok v
  | None => Raise (KeyError key)
  end.

Record Detector : Type := mkDetector {
  name : string;
  frequencyvector : list R;
}.

Record Network : Type := mkNetwork {
  detectors : list Detector;
  detection_SNR : R * R;
}.

(** [data_params]: the frequency grid and the reference frequency. *)
Record DataParams : Type := mkDataParams {
  dp_frequencyvector : list R;
  f_ref : R;
}.

(** The interface of a waveform class: what calling an instance returns and
    its [t_of_f] attribute, both determined by the constructor's arguments
    (model name, parameters, data parameters). *)
Record WaveformClass (Wave : Type) : Type := mkWaveformClass {
  wf_call : string -> Params -> DataParams -> Wave;
  wf_t_of_f : string -> Params -> DataParams -> list R;
}.
Arguments wf_call {Wave} _ _ _ _.
Arguments wf_t_of_f {Wave} _ _ _ _.

(** An instance of a waveform class. *)
Record WaveformObject : Type := mkWaveformObject {
  wo_model : string;
  wo_gw_params : Params;
  wo_data_params : DataParams;
}.

Definition update_gw_params (o : WaveformObject) (p : Params) : WaveformObject :=
  {| wo_model := wo_model o; wo_gw_params := p;
     wo_data_params := wo_data_params o |}.

Definition wo_call {Wave} (cls : WaveformClass Wave) (o : WaveformObject) : Wave :=
  wf_call cls (wo_model o) (wo_gw_params o) (wo_data_params o).
Definition wo_t_of_f {Wave} (cls : WaveformClass Wave) (o : WaveformObject) : list R :=
  wf_t_of_f cls (wo_model o) (wo_gw_params o) (wo_data_params o).

(** [xs[i]] on a Python list, for an index that is not negative *)
Definition list_index {A} (xs : list A) (i : nat) : result A :=
  match xs !! i with
  | Some x => Ok x
  | None => Raise IndexError
  end.

(** [xs[k]] on a Python list, for any integer index: a negative index
    counts from the end. *)
Definition py_getitem {A} (xs : list A) (k : Z) : result A :=
  let n := Z.of_nat (length xs) in
  if decide (0 <= k < n)%Z then list_index xs (Z.to_nat k)
  else if decide (- n <= k < 0)%Z then list_index xs (Z.to_nat (n + k))
  else Raise IndexError.

(** [xs.index(x)] *)
Definition py_index (xs : list string) (x : string) : result nat :=
  match list_find (fun y => y = x) xs with
  | Some (i, _) => Ok i
  | None => Raise ValueError
  end.

(** A table of signals: the column names and one row of values per
    signal. *)
Record DataFrame : Type := mkDataFrame {
  df_columns : list string;
  df_rows : list (list R);
}.

(** [len(df)], [df.iloc[k]] and [df[col].iloc[k]] *)
Definition df_len (df : DataFrame) : nat := length (df_rows df).
Definition iloc (df : DataFrame) (k : nat) : result Params :=
  rbind (list_index (df_rows df) k)
    (fun row => Ok (list_to_map (zip (df_columns df) row))).
Definition df_column_iloc (df : DataFrame) (col : string) (k : nat) : result R :=
  if decide (col ∈ df_columns df) then rbind (iloc df k) (fun row => getitem row col)
  else Raise (KeyError col).

(** [np.where(xs > thr)]: the indices, counted from [i], of the entries
    above [thr]. *)
Fixpoint where_gt (i : nat) (xs : list R) (thr : R) : list nat :=
  match xs with
  | [] => []
  | x :: xs' =>
      if decide (x > thr) then i :: where_gt (S i) xs' thr
      else where_gt (S i) xs' thr
  end.

(** [xs[idx]] for an index array [idx] *)
Definition take_indices {A} (xs : list A) (idx : list nat) : result (list A) :=
  map_result (list_index xs) idx.

(** [np.c_[a, b]]: the rows of [a] and [b] side by side. *)
Definition c_ (a b : list (list R)) : result (list (list R)) :=
  if decide (length a = length b) then Ok (zip_with app a b)
  else Raise ValueError.

(** A text file written by [np.savetxt]: name, header line and the rows of
    numbers. *)
Record TxtFile : Type := mkTxtFile {
  txt_name : string;
  txt_header : string;
  txt_data : list (list R);
}.

(** Modelled from the spec: [Network.partial], which is not part of this
    module; it selects the detectors at the given indices and keeps the
    pair of thresholds. *)
Definition Network_partial (network : Network) (sub_network_ids : list Z)
  : result Network :=
  rbind (map_result (py_getitem (detectors network)) sub_network_ids)
    (fun ds => Ok (mkNetwork ds (detection_SNR network))).

Local Open Scope string_scope.
Local Open Scope monad_scope.

(** ** The collaborators and the core *)

Section Core.

(** The frequency-domain strain that a waveform object returns. *)
Context {Wave : Type}.

(** [det.projection(parameters, detector, wave, t_of_f)] *)
Variable projection : Params -> Detector -> Wave -> list R -> list C.
(** [det.SNR(detector, signal, use_duty_cycle)] *)
Variable SNR : Detector -> list C -> bool -> list R.
(** [aux.scalar_product(a, b, detector)] *)
Variable scalar_product : list C -> list C -> Detector -> list R.
(** [np.linalg.svd] of an [n] by [n] matrix: [(U, S, Vh)]; the array [S]
    of singular values is written [Sv] below *)
Variable svd : nat -> Matrix -> Matrix * list R * Matrix.

(** *** [class Derivative] *)

(** The fields of an instance; [d_calls] is a ghost log of the targets
    that [__call__] was invoked with, latest first. *)
Record Derivative : Type := mkDerivative {
  d_waveform : string;
  d_detector : Detector;
  d_eps : R;
  d_waveform_class : WaveformClass Wave;
  d_data_params : DataParams;
  d_waveform_object : WaveformObject;
  d_waveform_at_parameters : option (Wave * list R);
  d_projection_at_parameters : option (list C);
  d_local_params : Params;
  d_pv_set1 : Params;
  d_pv_set2 : Params;
  d_tc : R;
  d_calls : list string;
}.

Definition set_waveform_object (o : WaveformObject) (self : Derivative) :=
  mkDerivative (d_waveform self) (d_detector self) (d_eps self)
    (d_waveform_class self) (d_data_params self) o
    (d_waveform_at_parameters self) (d_projection_at_parameters self)
    (d_local_params self) (d_pv_set1 self) (d_pv_set2 self) (d_tc self)
    (d_calls self).
Definition set_waveform_at_parameters (w : option (Wave * list R)) (self : Derivative) :=
  mkDerivative (d_waveform self) (d_detector self) (d_eps self)
    (d_waveform_class self) (d_data_params self) (d_waveform_object self)
    w (d_projection_at_parameters self)
    (d_local_params self) (d_pv_set1 self) (d_pv_set2 self) (d_tc self)
    (d_calls self).
Definition set_projection_at_parameters (p : option (list C)) (self : Derivative) :=
  mkDerivative (d_waveform self) (d_detector self) (d_eps self)
    (d_waveform_class self) (d_data_params self) (d_waveform_object self)
    (d_waveform_at_parameters self) p
    (d_local_params self) (d_pv_set1 self) (d_pv_set2 self) (d_tc self)
    (d_calls self).
Definition set_pv_set1 (p : Params) (self : Derivative) :=
  mkDerivative (d_waveform self) (d_detector self) (d_eps self)
    (d_waveform_class self) (d_data_params self) (d_waveform_object self)
    (d_waveform_at_parameters self) (d_projection_at_parameters self)
    (d_local_params self) p (d_pv_set2 self) (d_tc self) (d_calls self).
Definition set_pv_set2 (p : Params) (self : Derivative) :=
  mkDerivative (d_waveform self) (d_detector self) (d_eps self)
    (d_waveform_class self) (d_data_params self) (d_waveform_object self)
    (d_waveform_at_parameters self) (d_projection_at_parameters self)
    (d_local_params self) (d_pv_set1 self) p (d_tc self) (d_calls self).
Definition log_call (target : string) (self : Derivative) :=
  mkDerivative (d_waveform self) (d_detector self) (d_eps self)
    (d_waveform_class self) (d_data_params self) (d_waveform_object self)
    (d_waveform_at_parameters self) (d_projection_at_parameters self)
    (d_local_params self) (d_pv_set1 self) (d_pv_set2 self) (d_tc self)
    (target :: d_calls self).

(** The default [eps=1e-5] of [Derivative.__init__] and
    [FisherMatrix.__init__]. *)
Definition default_eps : R := 1e-5.

(** [Derivative.__init__]; [eps] is [None] when the caller leaves it out. *)
Definition Derivative_init (waveform : string) (parameters : Params)
    (detector : Detector) (eps : option R) (waveform_class : WaveformClass Wave)
  : result Derivative :=
  let data_params :=
    {| dp_frequencyvector := frequencyvector detector; f_ref := 50 |} in
  let local_params := parameters in
  rbind (getitem local_params "geocent_time") (fun tc =>
  Ok {| d_waveform := waveform;
        d_detector := detector;
        d_eps := default default_eps eps;
        d_waveform_class := waveform_class;
        d_data_params := data_params;
        d_waveform_object := mkWaveformObject waveform parameters data_params;
        d_waveform_at_parameters := None;
        d_projection_at_parameters := None;
        d_local_params := local_params;
        d_pv_set1 := parameters;
        d_pv_set2 := parameters;
        d_tc := tc;
        d_calls := [] |}).

(** The property [waveform_at_parameters]: [(wave, t_of_f)] at the central
    parameters, generated on the first access. *)
Definition waveform_at_parameters : M Derivative (Wave * list R) :=
  self <- get;;
  match d_waveform_at_parameters self with
  | Some w => ret w
  | None =>
      let wave := wo_call (d_waveform_class self) (d_waveform_object self) in
      let t_of_f := wo_t_of_f (d_waveform_class self) (d_waveform_object self) in
      modify (set_waveform_at_parameters (Some (wave, t_of_f)));;;
      ret (wave, t_of_f)
  end.

(** The property [projection_at_parameters]: the projection of the central
    waveform at the central parameters, computed on the first access. *)
Definition projection_at_parameters : M Derivative (list C) :=
  self <- get;;
  match d_projection_at_parameters self with
  | Some p => ret p
  | None =>
      w0 <- waveform_at_parameters;;
      w1 <- waveform_at_parameters;;
      let p := projection (d_local_params self) (d_detector self) w0.1 w1.2 in
      modify (set_projection_at_parameters (Some p));;;
      ret p
  end.

(** The value of the two properties at an instance, whether cached or
    not yet computed. *)
Definition central_waveform (self : Derivative) : Wave * list R :=
  match d_waveform_at_parameters self with
  | Some w => w
  | None => (wo_call (d_waveform_class self) (d_waveform_object self),
             wo_t_of_f (d_waveform_class self) (d_waveform_object self))
  end.
Definition central_projection (self : Derivative) : list C :=
  match d_projection_at_parameters self with
  | Some p => p
  | None => projection (d_local_params self) (d_detector self)
              (central_waveform self).1 (central_waveform self).2
  end.

(** The fields that no method of the class assigns after [__init__],
    and the ghost log. *)
Definition same_settings (self self' : Derivative) : Prop :=
  d_waveform self' = d_waveform self /\
  d_detector self' = d_detector self /\
  d_eps self' = d_eps self /\
  d_waveform_class self' = d_waveform_class self /\
  d_data_params self' = d_data_params self /\
  d_local_params self' = d_local_params self /\
  d_tc self' = d_tc self /\
  d_calls self' = d_calls self.

(** [2j * np.pi * frequencyvector], one complex number per frequency *)
Definition two_pi_j_f (fv : list R) : list C :=
  map (fun f => Cmul (Cmul two_j (RtoC PI)) (RtoC f)) fv.

(** The finite-difference step [np.maximum(eps, eps * pv)]. *)
Definition step (eps pv : R) : R := Rmax eps (eps * pv).

(** [Derivative.with_respect_to].  The quotient [-1 / d] is the one of
    the real numbers: at a distance [d] of zero the source raises
    [ZeroDivisionError] for the floats of Python and gives an infinity for
    those of NumPy, and the statements about this branch leave [d = 0]
    out. *)
Definition with_respect_to (target_parameter : string) : M Derivative (list C) :=
  self <- get;;
  derivative <-
    (if decide (target_parameter = "luminosity_distance") then
       d <- lift (getitem (d_local_params self) target_parameter);;
       proj <- projection_at_parameters;;
       ret (map (Cscale (-1 / d)) proj)
     else if decide (target_parameter = "geocent_time") then
       proj <- projection_at_parameters;;
       ret (zip_with Cmul (two_pi_j_f (frequencyvector (d_detector self))) proj)
     else if decide (target_parameter = "phase") then
       proj <- projection_at_parameters;;
       ret (map (Cmul neg_1j) proj)
     else
       pv <- lift (getitem (d_local_params self) target_parameter);;
       let dp := step (d_eps self) pv in
       let pv_set1 := <[target_parameter := pv - dp / 2]> (d_local_params self) in
       let pv_set2 := <[target_parameter := pv + dp / 2]> (d_local_params self) in
       modify (set_pv_set1 pv_set1);;;
       modify (set_pv_set2 pv_set2);;;
       if decide (target_parameter ∈ ["ra"; "dec"; "psi"]) then
         w <- waveform_at_parameters;;
         let signal1 := projection pv_set1 (d_detector self) w.1 w.2 in
         let signal2 := projection pv_set2 (d_detector self) w.1 w.2 in
         ret (map (fun z => Cdivr z dp) (arr_sub signal2 signal1))
       else
         let pv0_set1 := <["geocent_time" := 0]> pv_set1 in
         let pv0_set2 := <["geocent_time" := 0]> pv_set2 in
         let cls := d_waveform_class self in
         let wave1 := wf_call cls (d_waveform self) pv0_set1 (d_data_params self) in
         let t_of_f1 := wf_t_of_f cls (d_waveform self) pv0_set1 (d_data_params self) in
         let wave2 := wf_call cls (d_waveform self) pv0_set2 (d_data_params self) in
         let t_of_f2 := wf_t_of_f cls (d_waveform self) pv0_set2 (d_data_params self) in
         modify (set_pv_set1 pv0_set1);;;
         modify (set_pv_set2 pv0_set2);;;
         let tc := d_tc self in
         let pvt_set1 := <["geocent_time" := tc]> pv0_set1 in
         let pvt_set2 := <["geocent_time" := tc]> pv0_set2 in
         modify (set_pv_set1 pvt_set1);;;
         modify (set_pv_set2 pvt_set2);;;
         let signal1 := projection pvt_set1 (d_detector self) wave1
                          (map (fun t => t + tc) t_of_f1) in
         let signal2 := projection pvt_set2 (d_detector self) wave2
                          (map (fun t => t + tc) t_of_f2) in
         let phase_factor :=
           map (fun z => Cexp (Cmul z (RtoC tc)))
               (two_pi_j_f (frequencyvector (d_detector self))) in
         ret (map (fun z => Cdivr z dp)
                  (zip_with Cmul phase_factor (arr_sub signal2 signal1))));;
  modify (fun self' =>
            set_waveform_object
              (update_gw_params (d_waveform_object self') (d_local_params self'))
              self');;;
  ret derivative.

(** [Derivative.__call__] *)
Definition Derivative_call (target_parameter : string) : M Derivative (list C) :=
  modify (log_call target_parameter);;;
  with_respect_to target_parameter.

(** The value of a call, without the object it leaves. *)
Definition derivative_value (self : Derivative) (target_parameter : string)
  : result (list C) :=
  match with_respect_to target_parameter self with
  | Ok (derivative, _) => Ok derivative
  | Raise e => Raise e
  end.

(** The waveform object holds the central parameters: so [__init__] leaves
    it and so does [update_gw_params] at the end of every call. *)
Definition wf_coherent (self : Derivative) : Prop :=
  wo_gw_params (d_waveform_object self) = d_local_params self.

(** The settings without the ghost log. *)
Definition same_parameters (self self' : Derivative) : Prop :=
  d_waveform self' = d_waveform self /\
  d_detector self' = d_detector self /\
  d_eps self' = d_eps self /\
  d_waveform_class self' = d_waveform_class self /\
  d_data_params self' = d_data_params self /\
  d_local_params self' = d_local_params self /\
  d_tc self' = d_tc self.

(** Two states of one instance: the same settings, the same central
    waveform and the same central projection. *)
Definition stable (self0 self : Derivative) : Prop :=
  same_parameters self0 self /\
  central_waveform self = central_waveform self0 /\
  central_projection self = central_projection self0 /\
  wf_coherent self.

(** *** [class FisherMatrix] *)

Record FisherMatrix : Type := mkFisherMatrix {
  fm_fisher_parameters : list string;
  fm_detector : Detector;
  fm_derivative : Derivative;
  fm_nd : nat;
  fm_fm : option Matrix;
}.

Definition set_derivative (d : Derivative) (self : FisherMatrix) :=
  mkFisherMatrix (fm_fisher_parameters self) (fm_detector self) d
    (fm_nd self) (fm_fm self).
Definition set_fm (m : option Matrix) (self : FisherMatrix) :=
  mkFisherMatrix (fm_fisher_parameters self) (fm_detector self)
    (fm_derivative self) (fm_nd self) m.

(** Run a method of [self.derivative]. *)
Definition on_derivative {A} (m : M Derivative A) : M FisherMatrix A :=
  fun self =>
    match m (fm_derivative self) with
    | Ok (a, d) => Ok (a, set_derivative d self)
    | Raise e => Raise e
    end.

(** [self._fm[i, j] = v] and [self._fm[i, j]] *)
Definition fm_setitem (i j : nat) (v : R) : M FisherMatrix unit :=
  self <- get;;
  match fm_fm self with
  | Some m => put (set_fm (Some (mset m i j v)) self)
  | None => raise TypeError
  end.
Definition fm_getitem (i j : nat) : M FisherMatrix R :=
  self <- get;;
  match fm_fm self with
  | Some m => ret (m i j)
  | None => raise TypeError
  end.

(** [FisherMatrix.__init__]; [eps] is [None] when the caller leaves it
    out. *)
Definition FisherMatrix_init (waveform : string) (parameters : Params)
    (fisher_parameters : list string) (detector : Detector) (eps : option R)
    (waveform_class : WaveformClass Wave) : result FisherMatrix :=
  rbind (Derivative_init waveform parameters detector
           (Some (default default_eps eps)) waveform_class)
    (fun derivative =>
       Ok {| fm_fisher_parameters := fisher_parameters;
             fm_detector := detector;
             fm_derivative := derivative;
             fm_nd := length fisher_parameters;
             fm_fm := None |}).

(** The body of the inner loop of [update_fm], for one [p2]. *)
Definition update_fm_inner (p1 : nat) (deriv1 : list C) (p2 : nat)
  : M FisherMatrix unit :=
  self <- get;;
  deriv2_p <- lift (list_index (fm_fisher_parameters self) p2);;
  deriv2 <- on_derivative (Derivative_call deriv2_p);;
  fm_setitem p1 p2 (Rsum (scalar_product deriv1 deriv2 (fm_detector self)));;;
  v <- fm_getitem p1 p2;;
  fm_setitem p2 p1 v.

(** The body of the outer loop of [update_fm], for one [p1]. *)
Definition update_fm_outer (p1 : nat) : M FisherMatrix unit :=
  self <- get;;
  deriv1_p <- lift (list_index (fm_fisher_parameters self) p1);;
  deriv1 <- on_derivative (Derivative_call deriv1_p);;
  fm_setitem p1 p1 (Rsum (scalar_product deriv1 deriv1 (fm_detector self)));;;
  for_each (seq (p1 + 1) (fm_nd self - (p1 + 1))) (update_fm_inner p1 deriv1).

(** [FisherMatrix.update_fm] *)
Definition update_fm : M FisherMatrix unit :=
  modify (set_fm (Some zeros));;;
  self <- get;;
  for_each (seq 0 (fm_nd self)) update_fm_outer.

(** The targets that [update_fm] passes to [self.derivative], in order:
    pass [p1] of the outer loop asks for [fisher_parameters[p1]] and then
    for every later parameter. *)
Definition update_fm_calls (fisher_parameters : list string) : list string :=
  concat (map (fun p1 => drop p1 fisher_parameters)
            (seq 0 (length fisher_parameters))).

(** What [update_fm] keeps: the settings of the object and the central
    parameters of its derivative; what it maintains: a symmetric [_fm]. *)
Definition fm_invariant (self0 self : FisherMatrix) : Prop :=
  fm_fisher_parameters self = fm_fisher_parameters self0 /\
  fm_nd self = fm_nd self0 /\
  fm_detector self = fm_detector self0 /\
  d_local_params (fm_derivative self) = d_local_params (fm_derivative self0) /\
  exists m, fm_fm self = Some m /\ symmetric m.

(** [v] is the inner product, summed over the frequencies, of the
    derivatives with respect to the Fisher parameters at positions [i] and
    [j], as the derivative of the object [self0] gives them. *)
Definition fisher_entry (self0 : FisherMatrix) (i j : nat) (v : R) : Prop :=
  exists ti tj di dj,
    fm_fisher_parameters self0 !! i = Some ti /\
    fm_fisher_parameters self0 !! j = Some tj /\
    derivative_value (fm_derivative self0) ti = Ok di /\
    derivative_value (fm_derivative self0) tj = Ok dj /\
    v = Rsum (scalar_product di dj (fm_detector self0)).

(** The settings of the object are kept and its derivative is the same
    instance. *)
Definition fm_same (self0 self : FisherMatrix) : Prop :=
  fm_fisher_parameters self = fm_fisher_parameters self0 /\
  fm_nd self = fm_nd self0 /\
  fm_detector self = fm_detector self0 /\
  stable (fm_derivative self0) (fm_derivative self).

(** The rows before [q] of the upper triangle, and their mirror images,
    hold their final values. *)
Definition rows_done (self0 : FisherMatrix) (q : nat) (m : Matrix) : Prop :=
  forall i j, (i < q)%nat -> (i <= j)%nat -> (j < fm_nd self0)%nat ->
    fisher_entry self0 i j (m i j) /\ m j i = m i j.

(** Row [p1] holds its final values from the diagonal up to column [r]. *)
Definition row_done (self0 : FisherMatrix) (p1 r : nat) (m : Matrix) : Prop :=
  forall j, (p1 <= j)%nat -> (j < r)%nat ->
    fisher_entry self0 p1 j (m p1 j) /\ m j p1 = m p1 j.

(** Every Fisher parameter can be differentiated: it is one of the two
    analytic targets that need no lookup, or a key of the central
    parameters. *)
Definition differentiable (self : FisherMatrix) : Prop :=
  forall t, t ∈ fm_fisher_parameters self ->
    t = "geocent_time" \/ t = "phase"
    \/ is_Some (d_local_params (fm_derivative self) !! t).

(** The stored matrix has a diagonal that is not negative. *)
Definition diagonal_nonneg (self : FisherMatrix) : Prop :=
  exists m, fm_fm self = Some m /\ forall i, 0 <= m i i.

(** The property [fm]: built on the first access. *)
Definition fm : M FisherMatrix Matrix :=
  self <- get;;
  match fm_fm self with
  | Some m => ret m
  | None =>
      update_fm;;;
      self' <- get;;
      match fm_fm self' with
      | Some m => ret m
      | None => raise TypeError
      end
  end.

(** *** [invertSVD] *)

Definition thresh : R := 1e-10.

(** [sum(S > thresh)] *)
Definition count_above (Sv : list R) : nat :=
  length (filter (fun s => s > thresh) Sv).

(** [np.sqrt(np.diag(matrix))] and [np.outer(dm, dm)] *)
Definition sqrt_diag (matrix : Matrix) : nat -> R := fun i => sqrt (matrix i i).
Definition normalizer (matrix : Matrix) : Matrix :=
  fun i j => sqrt_diag matrix i * sqrt_diag matrix j.
Definition matrix_norm (matrix : Matrix) : Matrix :=
  fun i j => matrix i j / normalizer matrix i j.

(** [U[:, 0:kVal] @ np.diag(1. / S[0:kVal]) @ Vh[0:kVal, :]] *)
Definition matrix_inverse_norm (U : Matrix) (Sv : list R) (Vh : Matrix)
    (kVal : nat) : Matrix :=
  mmul kVal (mmul kVal U (mdiag (fun a => 1 / nth a Sv 0))) Vh.

(** [invertSVD], for a decomposition [svd] that returns.  The quotients
    are those of the real numbers: on a diagonal entry that is zero the
    source builds NaN, and what [np.linalg.svd] does with it is not part
    of this model. *)
Definition invertSVD (n : nat) (matrix : Matrix) : Matrix * list R :=
  let '(U, Sv, Vh) := svd n (matrix_norm matrix) in
  let kVal := count_above Sv in
  (fun i j => matrix_inverse_norm U Sv Vh kVal i j / normalizer matrix i j, Sv).

(** The contract of [np.linalg.svd] for a real [n] by [n] matrix [A]:
    [A = U @ diag(S) @ Vh] with [U] and [Vh] orthogonal and the [n]
    singular values sorted in descending order. *)
Definition descending (l : list R) : Prop :=
  forall a b, (a <= b)%nat -> (b < length l)%nat -> nth b l 0 <= nth a l 0.

Definition is_svd (n : nat) (A : Matrix) (usv : Matrix * list R * Matrix) : Prop :=
  let '(U, Sv, Vh) := usv in
  length Sv = n /\
  (forall i j, (i < n)%nat -> (j < n)%nat ->
     A i j = rsum n (fun a => U i a * nth a Sv 0 * Vh a j)) /\
  (forall a b, (a < n)%nat -> (b < n)%nat ->
     rsum n (fun i => U i a * U i b) = identity a b) /\
  (forall i j, (i < n)%nat -> (j < n)%nat ->
     rsum n (fun a => Vh a i * Vh a j) = identity i j) /\
  descending Sv.

(** *** Sky localization *)

Definition sky_localization_area (network_fisher_inverse : Matrix)
    (declination_angle : R) (right_ascension_index declination_index : nat) : R :=
  PI * Rabs (cos declination_angle)
  * sqrt (network_fisher_inverse right_ascension_index right_ascension_index
          * network_fisher_inverse declination_index declination_index
          - network_fisher_inverse right_ascension_index declination_index ^ 2).

Definition sky_localization_percentile_factor (percentile : R) : R :=
  - 2 * ln (1 - percentile / 100) * (180 / PI) ^ 2.

(** *** [compute_detector_fisher] *)

Definition compute_detector_fisher (detector : Detector)
    (signal_parameter_values : Params) (fisher_parameters : list string)
    (waveform_model : string) (waveform_class : WaveformClass Wave)
    (use_duty_cycle : bool) : result (Matrix * R) :=
  let data_params :=
    {| dp_frequencyvector := frequencyvector detector; f_ref := 50 |} in
  let waveform_obj :=
    mkWaveformObject waveform_model signal_parameter_values data_params in
  let wave := wo_call waveform_class waveform_obj in
  let t_of_f := wo_t_of_f waveform_class waveform_obj in
  let signal := projection signal_parameter_values detector wave t_of_f in
  let component_SNRs := SNR detector signal use_duty_cycle in
  let detector_SNR_square := Rsum (map (fun x => x ^ 2) component_SNRs) in
  rbind (FisherMatrix_init waveform_model signal_parameter_values
           fisher_parameters detector None waveform_class)
    (fun fisher =>
       rbind (fm fisher) (fun r => Ok (r.1, detector_SNR_square))).

(** *** [compute_network_errors] *)

(** The indices of ["ra"] and ["dec"] when both are Fisher parameters. *)
Definition signals_havesky (fisher_parameters : list string)
  : result (option (nat * nat)) :=
  if decide ("ra" ∈ fisher_parameters /\ "dec" ∈ fisher_parameters) then
    rbind (py_index fisher_parameters "ra") (fun i_ra =>
    rbind (py_index fisher_parameters "dec") (fun i_dec =>
    Ok (Some (i_ra, i_dec))))
  else Ok None.

(** The body of the loop over the detectors: the state is
    [(network_fisher_matrix, network_snr_square)]. *)
Definition detector_step (detector_snr_thr : R)
    (signal_parameter_values : Params) (fisher_parameters : list string)
    (waveform_model : string) (waveform_class : WaveformClass Wave)
    (use_duty_cycle : bool) (acc : Matrix * R) (detector : Detector)
  : result (Matrix * R) :=
  rbind (compute_detector_fisher detector signal_parameter_values
           fisher_parameters waveform_model waveform_class use_duty_cycle)
    (fun r =>
       let detector_fisher := r.1 in
       let detector_snr_square := r.2 in
       let network_snr_square := acc.2 + detector_snr_square in
       if decide (sqrt detector_snr_square > detector_snr_thr)
       then Ok (madd acc.1 detector_fisher, network_snr_square)
       else Ok (acc.1, network_snr_square)).

(** The arrays that the loop over the signals fills in. *)
Record Arrays : Type := mkArrays {
  parameter_errors : list (list R);
  sky_localization : option (list R);
  network_snr : list R;
}.

(** The shape of the arrays: one entry per signal, with or without the
    sky localization. *)
Definition arrays_shape (n : nat) (sky : bool) (arrays : Arrays) : Prop :=
  length (network_snr arrays) = n /\
  length (parameter_errors arrays) = n /\
  match sky_localization arrays with
  | Some a => sky = true /\ length a = n
  | None => sky = false
  end.

(** The body of the loop over the signals, for signal [k]. *)
Definition signal_step (network : Network) (parameter_values : DataFrame)
    (fisher_parameters : list string) (waveform_model : string)
    (waveform_class : WaveformClass Wave) (use_duty_cycle : bool)
    (havesky : option (nat * nat)) (arrays : Arrays) (k : nat)
  : result Arrays :=
  let n_params := length fisher_parameters in
  rbind (iloc parameter_values k) (fun signal_parameter_values =>
  rbind (fold_result
           (detector_step (detection_SNR network).1 signal_parameter_values
              fisher_parameters waveform_model waveform_class use_duty_cycle)
           (detectors network) (zeros, 0))
    (fun acc =>
       let network_fisher_inverse := (invertSVD n_params acc.1).1 in
       let errors :=
         <[k := map (fun i => sqrt (network_fisher_inverse i i)) (seq 0 n_params)]>
           (parameter_errors arrays) in
       let snr := <[k := sqrt acc.2]> (network_snr arrays) in
       match havesky with
       | Some (i_ra, i_dec) =>
           rbind (df_column_iloc parameter_values "dec" k) (fun dec =>
           Ok (mkArrays errors
                 ((fun sky =>
                     <[k := sky_localization_area network_fisher_inverse
                              dec i_ra i_dec]> sky)
                    <$> sky_localization arrays)
                 snr))
       | None => Ok (mkArrays errors (sky_localization arrays) snr)
       end)).

(** What the loop over the signals leaves at position [k] of the arrays:
    the values computed from row [k] of the table. *)
Definition signal_entry (network : Network) (parameter_values : DataFrame)
    (fisher_parameters : list string) (waveform_model : string)
    (waveform_class : WaveformClass Wave) (use_duty_cycle : bool)
    (havesky : option (nat * nat)) (arrays : Arrays) (k : nat) : Prop :=
  exists signal_parameter_values acc,
    iloc parameter_values k = Ok signal_parameter_values /\
    fold_result
      (detector_step (detection_SNR network).1 signal_parameter_values
         fisher_parameters waveform_model waveform_class use_duty_cycle)
      (detectors network) (zeros, 0) = Ok acc /\
    let n_params := length fisher_parameters in
    let network_fisher_inverse := (invertSVD n_params acc.1).1 in
    network_snr arrays !! k = Some (sqrt acc.2) /\
    parameter_errors arrays !! k
    = Some (map (fun i => sqrt (network_fisher_inverse i i)) (seq 0 n_params)) /\
    match havesky with
    | Some (i_ra, i_dec) =>
        exists dec sky,
          df_column_iloc parameter_values "dec" k = Ok dec /\
          sky_localization arrays = Some sky /\
          sky !! k
          = Some (sky_localization_area network_fisher_inverse dec i_ra i_dec)
    | None => sky_localization arrays = None
    end.

(** The values of signal [k]: its network SNR, the errors of its
    parameters and, when the signals have a sky position, its sky area, as
    computed from row [k] of the table alone. *)
Definition signal_values (network : Network) (parameter_values : DataFrame)
    (fisher_parameters : list string) (waveform_model : string)
    (waveform_class : WaveformClass Wave) (use_duty_cycle : bool)
    (havesky : option (nat * nat)) (k : nat)
    (snr : R) (errors : list R) (sky : option R) : Prop :=
  exists signal_parameter_values acc,
    iloc parameter_values k = Ok signal_parameter_values /\
    fold_result
      (detector_step (detection_SNR network).1 signal_parameter_values
         fisher_parameters waveform_model waveform_class use_duty_cycle)
      (detectors network) (zeros, 0) = Ok acc /\
    let n_params := length fisher_parameters in
    let network_fisher_inverse := (invertSVD n_params acc.1).1 in
    snr = sqrt acc.2 /\
    errors = map (fun i => sqrt (network_fisher_inverse i i)) (seq 0 n_params) /\
    match havesky with
    | Some (i_ra, i_dec) =>
        exists dec,
          df_column_iloc parameter_values "dec" k = Ok dec /\
          sky = Some (sky_localization_area network_fisher_inverse dec i_ra i_dec)
    | None => sky = None
    end.

(** The arrays before the loop: [np.zeros]; [sky_localization] exists
    only when the signals have a sky position. *)
Definition initial_arrays (n_signals n_params : nat)
    (havesky : option (nat * nat)) : Arrays :=
  mkArrays (replicate n_signals (replicate n_params 0))
    (match havesky with
     | Some _ => Some (replicate n_signals 0)
     | None => None
     end)
    (replicate n_signals 0).

Definition compute_network_errors (network : Network)
    (parameter_values : DataFrame) (fisher_parameters : list string)
    (waveform_model : string) (waveform_class : WaveformClass Wave)
    (use_duty_cycle : bool)
  : result (list R * list (list R) * option (list R)) :=
  let n_params := length fisher_parameters in
  let n_signals := df_len parameter_values in
  if decide (0 < n_params)%nat then
    if decide (0 < n_signals)%nat then
      rbind (signals_havesky fisher_parameters) (fun havesky =>
      let network_snr_thr := (detection_SNR network).2 in
      rbind (fold_result
               (signal_step network parameter_values fisher_parameters
                  waveform_model waveform_class use_duty_cycle havesky)
               (seq 0 n_signals) (initial_arrays n_signals n_params havesky))
        (fun arrays =>
           let detected := where_gt 0 (network_snr arrays) network_snr_thr in
           rbind (take_indices (network_snr arrays) detected) (fun snr_out =>
           rbind (take_indices (parameter_errors arrays) detected) (fun err_out =>
           match sky_localization arrays with
           | Some sky =>
               rbind (take_indices sky detected) (fun sky_out =>
               Ok (snr_out, err_out, Some sky_out))
           | None => Ok (snr_out, err_out, None)
           end))))
    else Raise AssertionError
  else Raise AssertionError.

(** *** Reporting *)

(** [str] of a float *)
Variable str_of_float : R -> string.

(** [errors_file_name]; the module defines it twice, with the same body. *)
Definition errors_file_name (network : Network) (sub_network_ids : list Z)
    (population_name : string) : result string :=
  rbind (map_result
           (fun k => rbind (py_getitem (detectors network) k)
                       (fun d => Ok (name d)))
           sub_network_ids)
    (fun names =>
       let sub_network := String.concat "_" names in
       Ok ("Errors_" +:+ sub_network +:+ "_" +:+ population_name +:+ "_SNR"
           +:+ str_of_float (detection_SNR network).2)).

(** [output_to_txt_file]: the file that [np.savetxt] is asked to write. *)
Definition output_to_txt_file (parameter_values : DataFrame)
    (network_snr_out : list R) (parameter_errors_out : list (list R))
    (sky_localization_out : option (list R)) (fisher_parameters : list string)
    (filename : string) : result TxtFile :=
  let delim := " " in
  let header :=
    "network_SNR " +:+ String.concat delim (df_columns parameter_values)
    +:+ " " +:+ String.concat delim (map (fun x => "err_" +:+ x) fisher_parameters) in
  rbind (c_ (map (fun x => [x]) network_snr_out) (df_rows parameter_values))
    (fun d0 =>
  rbind (c_ d0 parameter_errors_out) (fun save_data =>
  match sky_localization_out with
  | Some sky =>
      rbind (c_ save_data (map (fun x => [x]) sky)) (fun save_data' =>
      Ok (mkTxtFile (filename +:+ ".txt") (header +:+ " err_sky_location")
            save_data'))
  | None => Ok (mkTxtFile (filename +:+ ".txt") header save_data)
  end)).

(** [Network.partial], which is defined outside this module *)
Variable partial : Network -> list Z -> result Network.

(** One iteration of the loop of [analyze_and_save_to_txt]. *)
Definition analyze_one (network : Network) (parameter_values : DataFrame)
    (fisher_parameters : list string) (population_name : string)
    (waveform_model : string) (waveform_class : WaveformClass Wave)
    (use_duty_cycle : bool) (sub_network_ids : list Z) : result TxtFile :=
  rbind (partial network sub_network_ids) (fun partial_network =>
  rbind (compute_network_errors network parameter_values fisher_parameters
           waveform_model waveform_class use_duty_cycle)
    (fun r =>
  rbind (errors_file_name network sub_network_ids population_name)
    (fun filename =>
       output_to_txt_file parameter_values r.1.1 r.1.2 r.2
         fisher_parameters filename))).

(** [analyze_and_save_to_txt]: the state is the list of the files written
    so far, latest first. *)
Definition analyze_and_save_to_txt (network : Network)
    (parameter_values : DataFrame) (fisher_parameters : list string)
    (sub_network_ids_list : list (list Z)) (population_name : string)
    (waveform_model : string) (waveform_class : WaveformClass Wave)
    (use_duty_cycle : bool) : M (list TxtFile) unit :=
  for_each sub_network_ids_list (fun sub_network_ids =>
    file <- lift (analyze_one network parameter_values fisher_parameters
                    population_name waveform_model waveform_class
                    use_duty_cycle sub_network_ids);;
    modify (cons file)).

End Core.

Arguments Derivative : clear implicits.
Arguments FisherMatrix : clear implicits.

(** ** A small instance

    A detector with four frequency bins, a waveform of constant amplitude
    that the projection passes through, and flat noise. *)

Definition toy_class : WaveformClass (list C) :=
  {| wf_call := fun _ _ data => map (fun _ => mkC 1 0) (dp_frequencyvector data);
     wf_t_of_f := fun _ _ data => map (fun _ => 0) (dp_frequencyvector data) |}.

Definition toy_projection (parameters : Params) (detector : Detector)
    (wave : list C) (t_of_f : list R) : list C := wave.

Definition toy_SNR (detector : Detector) (signal : list C) (use_duty_cycle : bool)
  : list R := map Re signal.

Definition toy_scalar_product (a b : list C) (detector : Detector) : list R :=
  zip_with (fun x y => Re x * Re y + Im x * Im y) a b.

Definition toy_svd (n : nat) (A : Matrix) : Matrix * list R * Matrix :=
  (identity, replicate n 1, identity).

(** [str] at the one float that the small network prints, its network
    threshold [2.0]. *)
Definition toy_str_of_float (x : R) : string := "2.0".

Definition toy_detector : Detector := mkDetector "ET" [1; 2; 3; 4].

Definition toy_parameters : Params :=
  {[ "geocent_time" := 0; "phase" := 0; "ra" := 1; "dec" := -6 / 5;
     "luminosity_distance" := 100 ]}.

Definition toy_table : DataFrame :=
  mkDataFrame ["geocent_time"; "phase"] [[0; 0]].

(** The one row of the table as a parameter set. *)
Definition toy_row : Params := list_to_map (zip ["geocent_time"; "phase"] [0; 0]).

Definition toy_data_params : DataParams := mkDataParams [1; 2; 3; 4] 50.

(** A [Derivative] as [__init__] leaves it. *)
Definition toy_derivative : Derivative (list C) :=
  {| d_waveform := "IMRPhenomD";
     d_detector := toy_detector;
     d_eps := default_eps;
     d_waveform_class := toy_class;
     d_data_params := toy_data_params;
     d_waveform_object := mkWaveformObject "IMRPhenomD" toy_parameters toy_data_params;
     d_waveform_at_parameters := None;
     d_projection_at_parameters := None;
     d_local_params := toy_parameters;
     d_pv_set1 := toy_parameters;
     d_pv_set2 := toy_parameters;
     d_tc := 0;
     d_calls := [] |}.

(** A [FisherMatrix] for two parameters, as [__init__] leaves it. *)
Definition toy_fisher : FisherMatrix (list C) :=
  {| fm_fisher_parameters := ["phase"; "luminosity_distance"];
     fm_detector := toy_detector;
     fm_derivative := toy_derivative;
     fm_nd := 2;
     fm_fm := None |}.

(** A diagonal matrix. *)
Definition toy_matrix : Matrix := mdiag (fun _ => 4).

(** A second detector with a single bin, and a network of the two with the
    thresholds [3/2] for a detector and [2] for the network. *)
Definition toy_detector_B : Detector := mkDetector "CE" [1].

Definition toy_network : Network :=
  mkNetwork [toy_detector; toy_detector_B] (3 / 2, 2).


(** What the evaluation of a detector of the small instance gives for the
    one Fisher parameter ["phase"]: the matrix and [SNR^2]. *)
Definition toy_result (detector : Detector) : Matrix * R :=
  let wave := map (fun _ => mkC 1 0) (frequencyvector detector) in
  let deriv := map (Cmul neg_1j) wave in
  (mset zeros 0 0 (Rsum (toy_scalar_product deriv deriv detector)),
   Rsum (map (fun x => x ^ 2) (map Re wave))).

Definition toy_results : list (Matrix * R) :=
  [toy_result toy_detector; toy_result toy_detector_B].

(** The small parameter set with a mass and a coalescence time of [7],
    and a [Derivative] for it as [__init__] leaves it. *)
Definition toy_parameters_mass : Params :=
  <["mass_1" := 30]> (<["geocent_time" := 7]> toy_parameters).

Definition toy_derivative_mass : Derivative (list C) :=
  {| d_waveform := "IMRPhenomD";
     d_detector := toy_detector;
     d_eps := default_eps;
     d_waveform_class := toy_class;
     d_data_params := toy_data_params;
     d_waveform_object :=
       mkWaveformObject "IMRPhenomD" toy_parameters_mass toy_data_params;
     d_waveform_at_parameters := None;
     d_projection_at_parameters := None;
     d_local_params := toy_parameters_mass;
     d_pv_set1 := toy_parameters_mass;
     d_pv_set2 := toy_parameters_mass;
     d_tc := 7;
     d_calls := [] |}.

(** A [FisherMatrix] that asks for a mass that the signal does not have. *)
Definition toy_fisher_missing : FisherMatrix (list C) :=
  {| fm_fisher_parameters := ["phase"; "mass_1"; "ra"];
     fm_detector := toy_detector;
     fm_derivative := toy_derivative;
     fm_nd := 3;
     fm_fm := None |}.


(** The two detectors behind a network threshold of [5] that the signal of
    the small table does not pass. *)
Definition toy_network_strict : Network :=
  mkNetwork [toy_detector; toy_detector_B] (3 / 2, 5).


(** ** Properties of the derivative engine *)

Section DerivativeProperties.

Context {Wave : Type}.
Variable projection : Params -> Detector -> Wave -> list R -> list C.

(** Reduce [Ok (a, s) = Ok (b, ?s')] to [a = b]. *)
Ltac ok_value :=
  match goal with
  | |- Ok (?a, ?s) = Ok (?b, _) =>
      let H := fresh in enough (H : a = b) by (rewrite H; reflexivity)
  end.

Lemma waveform_at_parameters_spec (self : Derivative Wave) :
  exists self',
    waveform_at_parameters self = Ok (central_waveform self, self') /\
    same_settings self self' /\
    d_waveform_at_parameters self' = Some (central_waveform self) /\
    d_waveform_object self' = d_waveform_object self /\
    d_projection_at_parameters self' = d_projection_at_parameters self /\
    d_pv_set1 self' = d_pv_set1 self /\ d_pv_set2 self' = d_pv_set2 self.
Proof.
  unfold waveform_at_parameters, central_waveform, bind, get, modify, ret.
  destruct (d_waveform_at_parameters self) as [w|] eqn:E; eexists;
    (split; [reflexivity|]); unfold same_settings; simpl; tauto.
Qed.

Lemma projection_at_parameters_spec (self : Derivative Wave) :
  exists self',
    projection_at_parameters projection self
    = Ok (central_projection projection self, self') /\
    same_settings self self' /\
    d_projection_at_parameters self' = Some (central_projection projection self) /\
    d_waveform_object self' = d_waveform_object self /\
    d_pv_set1 self' = d_pv_set1 self /\ d_pv_set2 self' = d_pv_set2 self /\
    (d_waveform_at_parameters self' = d_waveform_at_parameters self
     \/ d_waveform_at_parameters self' = Some (central_waveform self)).
Proof.
  unfold projection_at_parameters, central_projection, central_waveform,
    waveform_at_parameters, bind, get, modify, ret.
  destruct (d_projection_at_parameters self) as [p|] eqn:E.
  - eexists; split; [reflexivity|]. unfold same_settings; tauto.
  - destruct (d_waveform_at_parameters self) as [w|] eqn:E'; simpl;
      rewrite ?E'; simpl; eexists; (split; [reflexivity|]);
      unfold same_settings; simpl; tauto.
Qed.

(** The central waveform of a coherent instance survives a change of the
    cache and the [update_gw_params] that ends a call. *)
Lemma central_waveform_after (self self' : Derivative Wave) :
  wf_coherent self ->
  same_settings self self' ->
  d_waveform_object self' = d_waveform_object self ->
  (d_waveform_at_parameters self' = d_waveform_at_parameters self
   \/ d_waveform_at_parameters self' = Some (central_waveform self)) ->
  central_waveform
    (set_waveform_object
       (update_gw_params (d_waveform_object self') (d_local_params self')) self')
  = central_waveform self.
Proof.
  unfold wf_coherent, same_settings, central_waveform, wo_call, wo_t_of_f.
  intros Hc (_ & _ & _ & Hcls & _ & Hlp & _) Ho [Hw|Hw]; simpl;
    rewrite Hw; [|done].
  destruct (d_waveform_at_parameters self); [done|].
  by rewrite Hcls, Hlp, Ho, Hc.
Qed.

Lemma Cmul_two_pi_j (f : R) :
  Cmul (Cmul two_j (RtoC PI)) (RtoC f) = Cscale (2 * PI * f) Ci.
Proof. unfold Cmul, Cscale, two_j, RtoC, Ci; simpl. f_equal; ring. Qed.

Lemma neg_1j_Ci : neg_1j = Cscale (-1) Ci.
Proof. unfold neg_1j, Cscale, Ci; simpl. f_equal; ring. Qed.

(** C4: the three analytic derivatives are closed forms of the central
    projection, which the call caches: [-(1/d)] times it for
    [luminosity_distance] at a central distance [d] that is not zero,
    [i 2 pi f] times it at each frequency [f] of the detector's grid for
    [geocent_time], and [-i] times it for [phase]. *)
Theorem analytic_derivatives (self : Derivative Wave) :
  let proj := central_projection projection self in
  (forall d, d_local_params self !! "luminosity_distance" = Some d ->
     d <> 0 ->
     exists self',
       with_respect_to projection "luminosity_distance" self
       = Ok (map (Cscale (- (1 / d))) proj, self')
       /\ d_projection_at_parameters self' = Some proj) /\
  (exists self',
     with_respect_to projection "geocent_time" self
     = Ok (zip_with (fun f p => Cmul (Cscale (2 * PI * f) Ci) p)
             (frequencyvector (d_detector self)) proj, self')
     /\ d_projection_at_parameters self' = Some proj) /\
  (exists self',
     with_respect_to projection "phase" self
     = Ok (map (Cmul (Cscale (-1) Ci)) proj, self')
     /\ d_projection_at_parameters self' = Some proj).
Proof.
  intros proj.
  destruct (projection_at_parameters_spec self) as (s1 & Hp & _ & Hc & _).
  repeat split.
  - intros d Hd Hd0.
    unfold with_respect_to, bind, get, lift, getitem, ret, modify.
    case_decide; [|done]. rewrite Hd, Hp. eexists; split; [ok_value|exact Hc].
    apply map_ext; intros z. unfold Cscale; f_equal; field; exact Hd0.
  - unfold with_respect_to, bind, get, ret, modify.
    case_decide; [discriminate|]. case_decide; [|done]. rewrite Hp.
    eexists; split; [ok_value|exact Hc].
    unfold two_pi_j_f. rewrite zip_with_fmap_l.
    apply zip_with_ext; [|done..]. intros f p. by rewrite Cmul_two_pi_j.
  - unfold with_respect_to, bind, get, ret, modify.
    do 2 (case_decide; [discriminate|]). case_decide; [|done]. rewrite Hp.
    eexists; split; [ok_value|exact Hc]. by rewrite neg_1j_Ci.
Qed.

(** The numerical branch, for a target that is a key of the central
    parameters: the perturbed copies, the value returned and what the
    call leaves in [pv_set1] and [pv_set2]. *)
Lemma with_respect_to_numeric (self : Derivative Wave) (target : string) (pv : R) :
  target <> "luminosity_distance" -> target <> "geocent_time" ->
  target <> "phase" ->
  d_local_params self !! target = Some pv ->
  let dp := Rmax (d_eps self) (d_eps self * pv) in
  let p1 := <[target := pv - dp / 2]> (d_local_params self) in
  let p2 := <[target := pv + dp / 2]> (d_local_params self) in
  let det := d_detector self in
  let w := central_waveform self in
  let cls := d_waveform_class self in
  let gen p := wf_call cls (d_waveform self) (<["geocent_time" := 0]> p)
                 (d_data_params self) in
  let tof p := map (fun t => t + d_tc self)
                 (wf_t_of_f cls (d_waveform self) (<["geocent_time" := 0]> p)
                    (d_data_params self)) in
  let back p := <["geocent_time" := d_tc self]> (<["geocent_time" := 0]> p) in
  exists deriv self',
    with_respect_to projection target self = Ok (deriv, self') /\
    same_settings self self' /\
    (target ∈ ["ra"; "dec"; "psi"] ->
       deriv = map (fun z => Cdivr z dp)
                 (arr_sub (projection p2 det w.1 w.2) (projection p1 det w.1 w.2))
       /\ d_pv_set1 self' = p1 /\ d_pv_set2 self' = p2) /\
    (target ∉ ["ra"; "dec"; "psi"] ->
       deriv = map (fun z => Cdivr z dp)
                 (zip_with Cmul
                    (map (fun f => Cexp (Cmul (Cscale (2 * PI * f) Ci)
                                           (RtoC (d_tc self))))
                       (frequencyvector det))
                    (arr_sub (projection (back p2) det (gen p2) (tof p2))
                       (projection (back p1) det (gen p1) (tof p1))))
       /\ d_pv_set1 self' = back p1 /\ d_pv_set2 self' = back p2).
Proof.
  intros H1 H2 H3 Hpv dp p1 p2 det w cls gen tof back.
  unfold with_respect_to, bind, get, lift, getitem, ret, modify, step.
  do 3 (case_decide; [done|]). rewrite Hpv. fold dp p1 p2.
  case_decide as Hsky.
  - destruct (waveform_at_parameters_spec (set_pv_set2 p2 (set_pv_set1 p1 self)))
      as (s1 & -> & Hs & _ & _ & _ & Hq1 & Hq2).
    do 2 eexists; split; [reflexivity|]. simpl in *.
    destruct Hs as (?&?&?&?&?&?&?&?). unfold same_settings; simpl.
    split; [tauto|]. split; [tauto|]. intros; contradiction.
  - do 2 eexists; split; [reflexivity|]. unfold same_settings; simpl.
    split; [tauto|]. split; [intros; contradiction|]. intros _.
    split; [|done]. f_equal. f_equal. unfold two_pi_j_f.
    rewrite <- list_fmap_compose. apply map_ext; intros f; simpl.
    by rewrite Cmul_two_pi_j.
Qed.

Lemma step_nonneg (eps pv : R) :
  0 <= pv -> Rmax eps (eps * pv) = Rmax eps (eps * Rabs pv).
Proof. intros H. by rewrite (Rabs_pos_eq pv). Qed.

Lemma step_small (eps pv : R) : 0 < eps -> pv <= 1 -> Rmax eps (eps * pv) = eps.
Proof. intros He Hpv. apply Rmax_left. nra. Qed.

(** C3 (amended): a numerically differentiated target with central value
    [pv] is perturbed to [pv - dp/2] and [pv + dp/2] in both branches,
    where [dp = max(eps, eps * pv)] with the signed value [pv]; [eps] is
    [1e-5] unless given.  The projection (for [ra], [dec], [psi]) or the
    regenerated waveform and its projection (for the others) are taken at
    the two perturbed parameter sets and their difference is divided by
    [dp].  For [pv >= 0] the step is [max(eps, eps * |pv|)]; for [pv <= 1],
    which covers every negative value, it is [eps]. *)
Theorem finite_difference_step (self : Derivative Wave) (target : string) (pv : R) :
  target ∉ ["luminosity_distance"; "geocent_time"; "phase"] ->
  d_local_params self !! target = Some pv ->
  let dp := Rmax (d_eps self) (d_eps self * pv) in
  let p1 := <[target := pv - dp / 2]> (d_local_params self) in
  let p2 := <[target := pv + dp / 2]> (d_local_params self) in
  let det := d_detector self in
  let w := central_waveform self in
  let zero p := <["geocent_time" := 0]> p in
  let back p := <["geocent_time" := d_tc self]> (zero p) in
  let gen p := wf_call (d_waveform_class self) (d_waveform self) (zero p)
                 (d_data_params self) in
  let tof p := map (fun t => t + d_tc self)
                 (wf_t_of_f (d_waveform_class self) (d_waveform self) (zero p)
                    (d_data_params self)) in
  (exists deriv self',
     with_respect_to projection target self = Ok (deriv, self') /\
     d_pv_set1 self' !! target = Some (pv - dp / 2) /\
     d_pv_set2 self' !! target = Some (pv + dp / 2) /\
     (target ∈ ["ra"; "dec"; "psi"] ->
        deriv = map (fun z => Cdivr z dp)
                  (arr_sub (projection p2 det w.1 w.2) (projection p1 det w.1 w.2))) /\
     (target ∉ ["ra"; "dec"; "psi"] ->
        deriv = map (fun z => Cdivr z dp)
                  (zip_with Cmul
                     (map (fun f => Cexp (Cmul (Cscale (2 * PI * f) Ci)
                                            (RtoC (d_tc self))))
                        (frequencyvector det))
                     (arr_sub (projection (back p2) det (gen p2) (tof p2))
                        (projection (back p1) det (gen p1) (tof p1)))))) /\
  (0 <= pv -> dp = Rmax (d_eps self) (d_eps self * Rabs pv)) /\
  (0 < d_eps self -> pv <= 1 -> dp = d_eps self) /\
  (forall waveform parameters detector (cls : WaveformClass Wave) d,
     Derivative_init waveform parameters detector None cls = Ok d ->
     d_eps d = 1e-5).
Proof.
  intros Hn Hpv dp p1 p2 det w zero back gen tof.
  assert (target <> "luminosity_distance" /\ target <> "geocent_time"
          /\ target <> "phase") as (H1 & H2 & H3).
  { repeat split; intros ->; apply Hn; set_solver. }
  split; [|split; [apply step_nonneg|split; [apply step_small|]]].
  - destruct (with_respect_to_numeric self target pv H1 H2 H3 Hpv)
      as (deriv & self' & Hw & _ & Hsky & Hint).
    exists deriv, self'. split; [exact Hw|].
    destruct (decide (target ∈ ["ra"; "dec"; "psi"])) as [Hin|Hout].
    + destruct (Hsky Hin) as (Hd & -> & ->). rewrite !lookup_insert_eq.
      repeat split; try done.
    + destruct (Hint Hout) as (Hd & -> & ->).
      rewrite !(lookup_insert_ne _ "geocent_time"), !lookup_insert_eq by done.
      repeat split; try done.
  - intros waveform parameters detector cls d. unfold Derivative_init, rbind.
    destruct (getitem parameters "geocent_time"); [|done]. by intros [= <-].
Qed.

(** Any call leaves the settings of the instance as they were. *)
Lemma with_respect_to_frame (self self' : Derivative Wave) target deriv :
  with_respect_to projection target self = Ok (deriv, self') ->
  same_settings self self'.
Proof.
  destruct (projection_at_parameters_spec self) as (s1 & Hp & Hs & _).
  unfold with_respect_to, bind, get, lift, getitem, ret, modify.
  repeat case_decide; subst;
    try (destruct (d_local_params self !! _) as [v|] eqn:Hv; [|done]);
    rewrite ?Hp.
  - intros [= <- <-]. exact Hs.
  - intros [= <- <-]. exact Hs.
  - intros [= <- <-]. exact Hs.
  - match goal with
    | |- context [waveform_at_parameters ?s] =>
        destruct (waveform_at_parameters_spec s) as (s2 & -> & Hs2 & _)
    end.
    intros [= <- <-]. exact Hs2.
  - intros [= <- <-]. unfold same_settings; simpl; tauto.
Qed.

(** A call succeeds exactly when the target is analytic without a lookup
    or is a key of the central parameters. *)
Lemma with_respect_to_total (self : Derivative Wave) target :
  target = "geocent_time" \/ target = "phase"
  \/ is_Some (d_local_params self !! target) ->
  exists deriv self', with_respect_to projection target self = Ok (deriv, self').
Proof.
  intros Hk.
  destruct (projection_at_parameters_spec self) as (s1 & Hp & _).
  unfold with_respect_to, bind, get, lift, getitem, ret, modify.
  repeat case_decide; subst;
    try (destruct Hk as [|[|[v ->]]]; [done..|]); rewrite ?Hp; eauto.
  match goal with
  | |- context [waveform_at_parameters ?s] =>
      destruct (waveform_at_parameters_spec s) as (s2 & -> & _)
  end.
  eauto.
Qed.

Lemma stable_after (self self' : Derivative Wave) :
  wf_coherent self ->
  same_settings self self' ->
  d_waveform_object self' = d_waveform_object self ->
  (d_waveform_at_parameters self' = d_waveform_at_parameters self
   \/ d_waveform_at_parameters self' = Some (central_waveform self)) ->
  (d_projection_at_parameters self' = d_projection_at_parameters self
   \/ d_projection_at_parameters self'
      = Some (central_projection projection self)) ->
  stable projection self
    (set_waveform_object
       (update_gw_params (d_waveform_object self') (d_local_params self')) self').
Proof.
  intros Hc Hs Ho Hw Hp.
  pose proof (central_waveform_after self self' Hc Hs Ho Hw) as Hcw.
  split; [|split; [exact Hcw|split]].
  - unfold same_settings, same_parameters in *; simpl; tauto.
  - unfold central_projection at 1. rewrite Hcw. simpl.
    destruct Hs as (_ & Hdet & _ & _ & _ & Hlp & _).
    destruct Hp as [Hp|Hp]; rewrite Hp; [|done].
    unfold central_projection. destruct (d_projection_at_parameters self); [done|].
    by rewrite Hdet, Hlp.
  - unfold wf_coherent. simpl. done.
Qed.

(** A call on a coherent instance leaves a state of the same instance. *)
Lemma with_respect_to_stable (self self' : Derivative Wave) target deriv :
  wf_coherent self ->
  with_respect_to projection target self = Ok (deriv, self') ->
  stable projection self self'.
Proof.
  intros Hc.
  destruct (projection_at_parameters_spec self)
    as (s1 & Hp & Hs & Hp1 & Ho1 & _ & _ & Hw1).
  unfold with_respect_to, bind, get, lift, getitem, ret, modify.
  repeat case_decide; subst;
    try (destruct (d_local_params self !! _) as [v|] eqn:Hv; [|done]);
    rewrite ?Hp.
  - intros [= <- <-]. apply stable_after; auto.
  - intros [= <- <-]. apply stable_after; auto.
  - intros [= <- <-]. apply stable_after; auto.
  - match goal with
    | |- context [waveform_at_parameters ?s] =>
        destruct (waveform_at_parameters_spec s)
          as (s2 & -> & Hs2 & Hw2 & Ho2 & Hp2 & _)
    end.
    intros [= <- <-].
    apply stable_after; auto; unfold same_settings in *; simpl in *; tauto.
  - intros [= <- <-].
    match goal with
    | |- stable _ _ (set_waveform_object _ ?s) =>
        apply (stable_after self s)
    end; auto; unfold same_settings; simpl; tauto.
Qed.

(** The value of a call depends on the state only through the settings,
    the central waveform and the central projection. *)
Lemma derivative_value_stable (self0 self : Derivative Wave) target :
  stable projection self0 self ->
  derivative_value projection self target
  = derivative_value projection self0 target.
Proof.
  intros ((Hwf & Hdet & Heps & Hcls & Hdata & Hlp & Htc) & Hcw & Hcp & _).
  destruct (projection_at_parameters_spec self) as (s1 & Hp & _).
  destruct (projection_at_parameters_spec self0) as (s0 & Hp0 & _).
  unfold derivative_value, with_respect_to, bind, get, lift, getitem, ret, modify.
  rewrite Hlp, Hdet, Heps, Hcls, Hdata, Htc, Hwf.
  repeat case_decide; subst;
    try (destruct (d_local_params self0 !! _) as [v|] eqn:Hv; [|done]);
    rewrite ?Hp, ?Hp0, ?Hcp; try done.
  repeat match goal with
    | |- context [waveform_at_parameters ?s] =>
        destruct (waveform_at_parameters_spec s) as (? & -> & _)
    end.
  unfold central_waveform in *; simpl. by rewrite Hcw.
Qed.

Lemma stable_refl (self : Derivative Wave) :
  wf_coherent self -> stable projection self self.
Proof. intros H. by repeat split. Qed.

Lemma stable_trans (a b c : Derivative Wave) :
  stable projection a b -> stable projection b c -> stable projection a c.
Proof.
  unfold stable, same_parameters.
  intros (Hab & Hw1 & Hp1 & _) (Hbc & Hw2 & Hp2 & Hc).
  repeat split; try congruence; destruct_and!; congruence.
Qed.

(** Logging a call does not change the instance. *)
Lemma stable_log_call (self : Derivative Wave) target :
  wf_coherent self -> stable projection self (log_call target self).
Proof. intros H. by repeat split. Qed.

End DerivativeProperties.

(** ** Loops *)

Section Loops.

Context {St A : Type}.
Variable I : St -> Prop.

(** An invariant of the body is an invariant of the loop. *)
Lemma for_each_inv (xs : list A) (body : A -> M St unit) :
  (forall x s1 s2 u, x ∈ xs -> I s1 -> body x s1 = Ok (u, s2) -> I s2) ->
  forall s s' u, I s -> for_each xs body s = Ok (u, s') -> I s'.
Proof.
  induction xs as [|x xs IH]; intros Hb s s' u Hs; simpl.
  - unfold ret. by intros [= <- <-].
  - unfold bind. destruct (body x s) as [[u1 s1]|] eqn:E; [|done].
    apply IH; [intros; eapply Hb; eauto; by right|].
    eapply Hb; eauto. by left.
Qed.

(** A loop whose body succeeds under the invariant succeeds. *)
Lemma for_each_ok (xs : list A) (body : A -> M St unit) :
  (forall x s1, x ∈ xs -> I s1 -> exists s2, body x s1 = Ok (tt, s2) /\ I s2) ->
  forall s, I s -> exists s', for_each xs body s = Ok (tt, s') /\ I s'.
Proof.
  induction xs as [|x xs IH]; intros Hb s Hs; simpl.
  - exists s. by unfold ret.
  - destruct (Hb x s) as (s1 & E & Hs1); [set_solver|done|].
    unfold bind. rewrite E. apply IH; [|done].
    intros; apply Hb; [set_solver|done].
Qed.

(** A loop over a log that each iteration extends at the front. *)
Lemma for_each_log {T} (log : St -> list T) (c : A -> list T)
    (xs : list A) (body : A -> M St unit) :
  (forall x s1 s2 u, x ∈ xs -> I s1 -> body x s1 = Ok (u, s2) ->
     I s2 /\ log s2 = (rev (c x) ++ log s1)%list) ->
  forall s s' u, I s -> for_each xs body s = Ok (u, s') ->
    I s' /\ log s' = (rev (concat (map c xs)) ++ log s)%list.
Proof.
  induction xs as [|x xs IH]; intros Hb s s' u Hs; simpl.
  - unfold ret. by intros [= <- <-].
  - unfold bind. destruct (body x s) as [[u1 s1]|] eqn:E; [|done].
    destruct (Hb x s s1 u1) as (Hs1 & Hl1); [by left|done..|].
    intros Hf.
    assert (I s' /\ log s' = (rev (concat (map c xs)) ++ log s1)%list)
      as (Hs' & Hl').
    { eapply IH; eauto. intros; eapply Hb; eauto; by right. }
    split; [done|]. rewrite Hl', Hl1, rev_app_distr. by rewrite app_assoc.
Qed.

(** A loop over a range with an invariant that follows the index. *)
Lemma for_each_range (J : nat -> St -> Prop) (body : nat -> M St unit)
    (len : nat) :
  forall a s s' u,
    (forall k s1 s2 u, (a <= k < a + len)%nat -> J k s1 ->
       body k s1 = Ok (u, s2) -> J (S k) s2) ->
    J a s -> for_each (seq a len) body s = Ok (u, s') -> J (a + len)%nat s'.
Proof.
  induction len as [|len IH]; intros a s s' u Hb Hs; simpl.
  - unfold ret. intros [= <- <-]. by rewrite Nat.add_0_r.
  - unfold bind. destruct (body a s) as [[u1 s1]|] eqn:E; [|done].
    intros Hf. replace (a + S len)%nat with (S a + len)%nat by lia.
    eapply IH; [|eapply Hb; eauto; lia|exact Hf].
    intros k sa sb ub Hk. apply Hb. lia.
Qed.

End Loops.

(** ** Properties of the Fisher-matrix assembly *)

Section FisherProperties.

Context {Wave : Type}.
Variable projection : Params -> Detector -> Wave -> list R -> list C.
Variable scalar_product : list C -> list C -> Detector -> list R.

Lemma Derivative_call_spec (d d' : Derivative Wave) target x :
  Derivative_call projection target d = Ok (x, d') ->
  d_calls d' = target :: d_calls d /\ d_local_params d' = d_local_params d.
Proof.
  unfold Derivative_call, bind, modify. intros H.
  apply with_respect_to_frame in H. unfold same_settings in H; simpl in H.
  tauto.
Qed.

Lemma Derivative_call_total (d : Derivative Wave) target :
  target = "geocent_time" \/ target = "phase"
  \/ is_Some (d_local_params d !! target) ->
  exists x d', Derivative_call projection target d = Ok (x, d').
Proof.
  intros H. unfold Derivative_call, bind, modify.
  by apply with_respect_to_total.
Qed.

Lemma symmetric_zeros : symmetric zeros.
Proof. done. Qed.

Lemma symmetric_mset_diag (m : Matrix) (i : nat) (v : R) :
  symmetric m -> symmetric (mset m i i v).
Proof.
  intros Hm a b. unfold mset.
  repeat case_decide; destruct_and?; subst; try done; exfalso; tauto.
Qed.

Lemma symmetric_mset_mirror (m : Matrix) (i j : nat) (v : R) :
  symmetric m -> symmetric (mset (mset m i j v) j i v).
Proof.
  intros Hm a b. unfold mset.
  repeat case_decide; destruct_and?; subst; try done; exfalso; tauto.
Qed.

(** One pass of the inner loop: one call of the derivative, the entry
    [(p1, p2)] and its mirror image. *)
Lemma update_fm_inner_spec (p1 p2 : nat) (deriv1 : list C)
    (s1 s2 : FisherMatrix Wave) u :
  update_fm_inner projection scalar_product p1 deriv1 p2 s1 = Ok (u, s2) ->
  exists t deriv2 d' m,
    fm_fisher_parameters s1 !! p2 = Some t /\
    Derivative_call projection t (fm_derivative s1) = Ok (deriv2, d') /\
    fm_fm s1 = Some m /\
    let v := Rsum (scalar_product deriv1 deriv2 (fm_detector s1)) in
    s2 = set_fm (Some (mset (mset m p1 p2 v) p2 p1 v)) (set_derivative d' s1).
Proof.
  unfold update_fm_inner, fm_setitem, fm_getitem, on_derivative, list_index.
  unfold bind, get, lift, put, ret, raise.
  destruct (fm_fisher_parameters s1 !! p2) as [t|] eqn:Et; [|done].
  destruct (Derivative_call projection t (fm_derivative s1)) as [[x d']|] eqn:Ed;
    [|done]; simpl.
  destruct (fm_fm s1) as [m|] eqn:Em; [|done]. intros [= <- <-].
  exists t, x, d', m. repeat split; try done. simpl.
  unfold set_fm; simpl. do 2 f_equal.
  unfold mset at 3. by rewrite decide_True.
Qed.

(** One pass of the outer loop: one call of the derivative, the diagonal
    entry, and the inner loop. *)
Lemma update_fm_outer_spec (p1 : nat) (s1 s2 : FisherMatrix Wave) u :
  update_fm_outer projection scalar_product p1 s1 = Ok (u, s2) ->
  exists t deriv1 d' m,
    fm_fisher_parameters s1 !! p1 = Some t /\
    Derivative_call projection t (fm_derivative s1) = Ok (deriv1, d') /\
    fm_fm s1 = Some m /\
    let v := Rsum (scalar_product deriv1 deriv1 (fm_detector s1)) in
    for_each (seq (p1 + 1) (fm_nd s1 - (p1 + 1)))
      (update_fm_inner projection scalar_product p1 deriv1)
      (set_fm (Some (mset m p1 p1 v)) (set_derivative d' s1)) = Ok (u, s2).
Proof.
  unfold update_fm_outer, fm_setitem, on_derivative, list_index.
  unfold bind, get, lift, put, ret, raise.
  destruct (fm_fisher_parameters s1 !! p1) as [t|] eqn:Et; [|done].
  destruct (Derivative_call projection t (fm_derivative s1)) as [[x d']|] eqn:Ed;
    [|done]; simpl.
  destruct (fm_fm s1) as [m|] eqn:Em; [|done]. intros H.
  by exists t, x, d', m.
Qed.

(** The log of calls of a Fisher-matrix object. *)
Local Abbreviation calls self := (d_calls (fm_derivative self)).
Local Abbreviation target_at fp := (fun p : nat => option_list (fp !! p)).

Lemma update_fm_inner_inv (self0 : FisherMatrix Wave) p1 deriv1 p2 s1 s2 u :
  fm_invariant self0 s1 ->
  update_fm_inner projection scalar_product p1 deriv1 p2 s1 = Ok (u, s2) ->
  fm_invariant self0 s2 /\
  calls s2 = (rev (target_at (fm_fisher_parameters self0) p2) ++ calls s1)%list.
Proof.
  intros (Hfp & Hnd & Hdet & Hlp & m & Hm & Hsym) H.
  apply update_fm_inner_spec in H
    as (t & deriv2 & d' & m' & Ht & Hd & Hm' & ->).
  apply Derivative_call_spec in Hd as (Hc & Hl).
  rewrite Hm in Hm'; injection Hm' as <-.
  split.
  - unfold fm_invariant; simpl. repeat split; try done; [congruence|].
    eexists; split; [done|]. by apply symmetric_mset_mirror.
  - simpl. by rewrite <- Hfp, Ht, Hc.
Qed.

Lemma update_fm_outer_inv (self0 : FisherMatrix Wave) p1 s1 s2 u :
  fm_invariant self0 s1 ->
  update_fm_outer projection scalar_product p1 s1 = Ok (u, s2) ->
  fm_invariant self0 s2 /\
  calls s2
  = (rev (concat (map (target_at (fm_fisher_parameters self0))
                    (seq p1 (S (fm_nd self0 - (p1 + 1)))))) ++ calls s1)%list.
Proof.
  intros (Hfp & Hnd & Hdet & Hlp & m & Hm & Hsym) H.
  apply update_fm_outer_spec in H
    as (t & deriv1 & d' & m' & Ht & Hd & Hm' & H).
  apply Derivative_call_spec in Hd as (Hc & Hl).
  rewrite Hm in Hm'; injection Hm' as <-.
  eapply (for_each_log (fm_invariant self0) (fun s => calls s)
            (target_at (fm_fisher_parameters self0))) in H.
  - destruct H as (Hinv & Hlog). split; [done|].
    rewrite Hlog; simpl. rewrite Hc, <- Hfp, Ht, Hnd; simpl.
    rewrite <- app_assoc. simpl. by replace (S p1) with (p1 + 1)%nat by lia.
  - intros p2 sa sb ub _. apply update_fm_inner_inv.
  - unfold fm_invariant; simpl. repeat split; try done; [congruence|].
    eexists; split; [done|]. by apply symmetric_mset_diag.
Qed.

Lemma concat_target_at (fp : list string) (a k : nat) :
  (a + k <= length fp)%nat ->
  concat (map (target_at fp) (seq a k)) = take k (drop a fp).
Proof.
  revert a; induction k as [|k IH]; intros a Hk; simpl.
  - by rewrite take_0.
  - destruct (lookup_lt_is_Some_2 fp a) as [x Hx]; [lia|].
    rewrite Hx, IH by lia. simpl. by rewrite (drop_S fp x a Hx).
Qed.

(** [update_fm] on any object: the invariant holds of the result and the
    log has grown by [update_fm_calls]. *)
Lemma update_fm_spec (self self' : FisherMatrix Wave) u :
  update_fm projection scalar_product self = Ok (u, self') ->
  fm_invariant self self' /\
  (fm_nd self = length (fm_fisher_parameters self) ->
   calls self'
   = (rev (update_fm_calls (fm_fisher_parameters self)) ++ calls self)%list).
Proof.
  unfold update_fm, bind, modify, get. intros H.
  eapply (for_each_log (fm_invariant self) (fun s => calls s)
            (fun p1 => concat (map (target_at (fm_fisher_parameters self))
                                 (seq p1 (S (fm_nd self - (p1 + 1))))))) in H.
  - destruct H as (Hinv & Hlog). split; [done|]. intros Hnd. rewrite Hlog.
    change (calls (set_fm (Some zeros) self)) with (calls self).
    change (fm_nd (set_fm (Some zeros) self)) with (fm_nd self).
    do 2 f_equal. unfold update_fm_calls. rewrite Hnd.
    f_equal. apply map_ext_in. intros p1 Hp1%in_seq.
    rewrite concat_target_at by lia.
    apply take_ge. rewrite length_drop. lia.
  - intros p1 sa sb ub _. apply update_fm_outer_inv.
  - unfold fm_invariant; simpl. repeat split; try done.
    eexists; split; [done|]. apply symmetric_zeros.
Qed.

(** A call on a state of the instance [d0] returns the value that [d0]
    gives and leaves another state of [d0]. *)
Lemma Derivative_call_value (d0 d d' : Derivative Wave) target x :
  stable projection d0 d ->
  Derivative_call projection target d = Ok (x, d') ->
  stable projection d0 d' /\ derivative_value projection d0 target = Ok x.
Proof.
  intros Hst H. unfold Derivative_call, bind, modify in H.
  assert (wf_coherent d) as Hc by apply Hst.
  pose proof (stable_log_call projection d target Hc) as Hlog.
  split.
  - eapply stable_trans; [exact Hst|]. eapply stable_trans; [exact Hlog|].
    eapply with_respect_to_stable; [apply Hlog|exact H].
  - rewrite <- (derivative_value_stable projection d0 (log_call target d))
      by (eapply stable_trans; eauto).
    unfold derivative_value. by rewrite H.
Qed.

Lemma mset_eq (m : Matrix) (i j : nat) (v : R) : mset m i j v i j = v.
Proof. unfold mset. by rewrite decide_True. Qed.

Lemma mset_ne (m : Matrix) (i j a b : nat) (v : R) :
  a <> i \/ b <> j -> mset m i j v a b = m a b.
Proof. intros H. unfold mset. rewrite decide_False; [done|]. intros [-> ->]. tauto. Qed.

(** One pass of the inner loop extends row [p1] by the column [p2]. *)
Lemma update_fm_inner_entries (self0 : FisherMatrix Wave) (p1 p2 : nat)
    (t1 : string) (deriv1 : list C) (s1 s2 : FisherMatrix Wave) u :
  (p1 < p2)%nat ->
  fm_fisher_parameters self0 !! p1 = Some t1 ->
  derivative_value projection (fm_derivative self0) t1 = Ok deriv1 ->
  (fm_same projection self0 s1 /\
   exists m, fm_fm s1 = Some m /\
     rows_done projection scalar_product self0 p1 m /\
     row_done projection scalar_product self0 p1 p2 m) ->
  update_fm_inner projection scalar_product p1 deriv1 p2 s1 = Ok (u, s2) ->
  fm_same projection self0 s2 /\
  exists m, fm_fm s2 = Some m /\
    rows_done projection scalar_product self0 p1 m /\
    row_done projection scalar_product self0 p1 (S p2) m.
Proof.
  intros Hlt Ht1 Hd1 ((Hfp & Hnd & Hdet & Hst) & m & Hm & Hrows & Hrow) H.
  apply update_fm_inner_spec in H
    as (t & deriv2 & d' & m' & Ht & Hd & Hm' & ->).
  rewrite Hm in Hm'; injection Hm' as <-.
  apply (Derivative_call_value (fm_derivative self0)) in Hd as (Hst' & Hv);
    [|exact Hst].
  refine (conj (conj Hfp (conj Hnd (conj Hdet Hst'))) _).
  eexists; split; [reflexivity|]. split.
  - intros i j Hi Hij Hj. destruct (Hrows i j Hi Hij Hj) as (He & Hmir).
    rewrite !(mset_ne _ p2 p1), !(mset_ne _ p1 p2) by lia. by split.
  - intros j Hj1 Hj2. destruct (decide (j = p2)) as [->|Hne].
    + rewrite mset_eq, (mset_ne _ p2 p1), mset_eq by lia. split; [|done].
      exists t1, t, deriv1, deriv2. rewrite Hfp in Ht. rewrite Hdet. by repeat split.
    + destruct (Hrow j Hj1) as (He & Hmir); [lia|].
      rewrite !(mset_ne _ p2 p1), !(mset_ne _ p1 p2) by lia. by split.
Qed.

(** One pass of the outer loop completes row [p1]. *)
Lemma update_fm_outer_entries (self0 : FisherMatrix Wave) (p1 : nat)
    (s1 s2 : FisherMatrix Wave) u :
  (p1 < fm_nd self0)%nat ->
  (fm_same projection self0 s1 /\
   exists m, fm_fm s1 = Some m /\
     rows_done projection scalar_product self0 p1 m) ->
  update_fm_outer projection scalar_product p1 s1 = Ok (u, s2) ->
  fm_same projection self0 s2 /\
  exists m, fm_fm s2 = Some m /\
    rows_done projection scalar_product self0 (S p1) m.
Proof.
  intros Hp1 ((Hfp & Hnd & Hdet & Hst) & m & Hm & Hrows) H.
  apply update_fm_outer_spec in H
    as (t1 & deriv1 & d' & m' & Ht1 & Hd & Hm' & H).
  rewrite Hm in Hm'; injection Hm' as <-.
  apply (Derivative_call_value (fm_derivative self0)) in Hd as (Hst' & Hv);
    [|exact Hst].
  rewrite Hfp in Ht1.
  apply (for_each_range
           (fun r s => fm_same projection self0 s /\
              exists m, fm_fm s = Some m /\
                rows_done projection scalar_product self0 p1 m /\
                row_done projection scalar_product self0 p1 r m)) in H.
  - destruct H as (Hsame & mf & Hmf & Hrows' & Hrow').
    split; [exact Hsame|]. exists mf. split; [exact Hmf|].
    intros i j Hi Hij Hj. destruct (decide (i = p1)) as [->|Hne].
    + apply Hrow'; [done|]. rewrite Hnd. lia.
    + apply Hrows'; [lia|done..].
  - intros p2 sa sb ub Hp2. eapply update_fm_inner_entries; eauto. lia.
  - refine (conj (conj Hfp (conj Hnd (conj Hdet Hst'))) _).
    eexists; split; [reflexivity|]. split.
    + intros i j Hi Hij Hj. destruct (Hrows i j Hi Hij Hj) as (He & Hmir).
      rewrite !(mset_ne _ p1 p1) by lia. by split.
    + intros j Hj1 Hj2. assert (j = p1) as -> by lia.
      rewrite mset_eq. split; [|done].
      exists t1, t1, deriv1, deriv1. rewrite Hdet. by repeat split.
Qed.

(** [update_fm] on an object as [__init__] leaves it: every entry of the
    upper triangle is the inner product of the two derivatives, and the
    lower triangle mirrors it. *)
Lemma update_fm_entries (self self' : FisherMatrix Wave) u :
  wf_coherent (fm_derivative self) ->
  update_fm projection scalar_product self = Ok (u, self') ->
  exists m, fm_fm self' = Some m /\
    forall i j, (i <= j)%nat -> (j < fm_nd self)%nat ->
      fisher_entry projection scalar_product self i j (m i j) /\ m j i = m i j.
Proof.
  intros Hc. unfold update_fm, bind, modify, get. intros H.
  apply (for_each_range
           (fun q s => fm_same projection self s /\
              exists m, fm_fm s = Some m /\
                rows_done projection scalar_product self q m)) in H.
  - destruct H as (_ & m & Hm & Hrows). exists m. split; [exact Hm|].
    intros i j Hij Hj. apply Hrows; [|done..].
    change (fm_nd (set_fm (Some zeros) self)) with (fm_nd self). lia.
  - intros p1 sa sb ub Hp1. apply update_fm_outer_entries.
    change (fm_nd (set_fm (Some zeros) self)) with (fm_nd self) in Hp1. lia.
  - split; [split; [|split; [|split]]; try done; by apply stable_refl|].
    eexists; split; [reflexivity|]. intros i j Hi. lia.
Qed.

Lemma update_fm_inner_ok (self0 : FisherMatrix Wave) p1 deriv1 p2 s1 :
  differentiable self0 ->
  (p2 < length (fm_fisher_parameters self0))%nat ->
  fm_invariant self0 s1 ->
  exists s2,
    update_fm_inner projection scalar_product p1 deriv1 p2 s1 = Ok (tt, s2) /\
    fm_invariant self0 s2.
Proof.
  intros Hkeys Hp2 Hinv.
  pose proof Hinv as (Hfp & Hnd & Hdet & Hlp & m & Hm & Hsym).
  destruct (lookup_lt_is_Some_2 _ _ Hp2) as [t Ht].
  destruct (Derivative_call_total (fm_derivative s1) t) as (x & d' & Hd).
  { rewrite Hlp. apply Hkeys. by eapply list_elem_of_lookup_2. }
  assert (exists s2,
            update_fm_inner projection scalar_product p1 deriv1 p2 s1
            = Ok (tt, s2)) as [s2 H].
  { unfold update_fm_inner, fm_setitem, fm_getitem, on_derivative, list_index.
    unfold bind, get, lift, put, ret, raise.
    rewrite Hfp, Ht, Hd; simpl. rewrite Hm. by eexists. }
  exists s2. split; [exact H|]. by eapply update_fm_inner_inv.
Qed.

Lemma update_fm_outer_ok (self0 : FisherMatrix Wave) p1 s1 :
  differentiable self0 ->
  fm_nd self0 = length (fm_fisher_parameters self0) ->
  (p1 < length (fm_fisher_parameters self0))%nat ->
  fm_invariant self0 s1 ->
  exists s2,
    update_fm_outer projection scalar_product p1 s1 = Ok (tt, s2) /\
    fm_invariant self0 s2.
Proof.
  intros Hkeys Hlen Hp1 Hinv.
  pose proof Hinv as (Hfp & Hnd & Hdet & Hlp & m & Hm & Hsym).
  destruct (lookup_lt_is_Some_2 _ _ Hp1) as [t Ht].
  destruct (Derivative_call_total (fm_derivative s1) t) as (x & d' & Hd).
  { rewrite Hlp. apply Hkeys. by eapply list_elem_of_lookup_2. }
  pose proof (Derivative_call_spec _ _ _ _ Hd) as (_ & Hl).
  destruct (for_each_ok (fm_invariant self0)
              (seq (p1 + 1) (fm_nd s1 - (p1 + 1)))
              (update_fm_inner projection scalar_product p1 x))
    with (s := set_fm (Some (mset m p1 p1
                               (Rsum (scalar_product x x (fm_detector s1)))))
                 (set_derivative d' s1))
    as (s2 & Hs2 & Hinv2).
  - intros p2 sa Hin%elem_of_seq Hsa. apply update_fm_inner_ok; try done. lia.
  - unfold fm_invariant; simpl. repeat split; try done; [congruence|].
    eexists; split; [done|]. by apply symmetric_mset_diag.
  - exists s2. split; [|exact Hinv2].
    unfold update_fm_outer, fm_setitem, on_derivative, list_index.
    unfold bind, get, lift, put, ret, raise.
    rewrite Hfp, Ht, Hd; simpl. by rewrite Hm.
Qed.

(** [update_fm] returns when every Fisher parameter can be
    differentiated. *)
Lemma update_fm_total (self : FisherMatrix Wave) :
  differentiable self ->
  fm_nd self = length (fm_fisher_parameters self) ->
  exists self', update_fm projection scalar_product self = Ok (tt, self').
Proof.
  intros Hkeys Hlen.
  destruct (for_each_ok (fm_invariant self) (seq 0 (fm_nd self))
              (update_fm_outer projection scalar_product))
    with (s := set_fm (Some zeros) self) as (s' & Hs' & _).
  - intros p1 sa Hin%elem_of_seq Hsa. apply update_fm_outer_ok; try done. lia.
  - unfold fm_invariant; simpl. repeat split; try done.
    eexists; split; [done|]. apply symmetric_zeros.
  - exists s'. unfold update_fm, bind, modify, get. exact Hs'.
Qed.

Lemma length_update_fm_calls (fp : list string) :
  (2 * length (update_fm_calls fp) = length fp * (length fp + 1))%nat.
Proof.
  unfold update_fm_calls. induction fp as [|t fp IH]; [done|].
  cbn [length seq map concat]. rewrite <- fmap_S_seq, <- list_fmap_compose.
  rewrite length_app. cbn [length drop].
  erewrite (map_ext (_ ∘ S) (fun p1 => drop p1 fp)) by done. lia.
Qed.


(** C8 (amended): over [n] Fisher parameters [update_fm] invokes the
    derivative [n (n + 1) / 2] times, once for every pair [p1 <= p2] of
    positions: pass [p1] of the outer loop asks for the parameter at [p1]
    and again for each later one.  The entry of every such pair, and its
    mirror image, is the summed inner product of the two derivatives that
    these calls return. *)
Theorem update_fm_derivative_calls (self self' : FisherMatrix Wave) u :
  update_fm projection scalar_product self = Ok (u, self') ->
  fm_nd self = length (fm_fisher_parameters self) ->
  wf_coherent (fm_derivative self) ->
  let n := fm_nd self in
  rev (calls self')
  = (rev (calls self)
     ++ concat (map (fun p1 => drop p1 (fm_fisher_parameters self)) (seq 0 n)))%list
  /\ (2 * (length (calls self') - length (calls self)) = n * (n + 1))%nat
  /\ exists m, fm_fm self' = Some m /\
       forall i j, (i <= j)%nat -> (j < n)%nat ->
         fisher_entry projection scalar_product self i j (m i j)
         /\ m j i = m i j.
Proof.
  intros H Hnd Hc n.
  pose proof (update_fm_entries self self' u Hc H) as Hentries.
  apply update_fm_spec in H as (_ & Hlog).
  specialize (Hlog Hnd). rewrite Hlog. split; [|split; [|exact Hentries]].
  - rewrite rev_app_distr, rev_involutive. unfold n. by rewrite Hnd.
  - rewrite length_app, length_rev. unfold n. rewrite Hnd.
    rewrite <- length_update_fm_calls. lia.
Qed.

End FisherProperties.

(** ** Finite sums *)

Section Sums.

Lemma rsum_ext (n : nat) (f g : nat -> R) :
  (forall k, (k < n)%nat -> f k = g k) -> rsum n f = rsum n g.
Proof.
  induction n as [|n IH]; intros H; simpl; [done|].
  rewrite IH, H by (intros; try apply H; lia). done.
Qed.

Lemma rsum_0 (n : nat) : rsum n (fun _ => 0) = 0.
Proof. induction n as [|n IH]; simpl; [done|]. rewrite IH. lra. Qed.

Lemma rsum_plus (n : nat) (f g : nat -> R) :
  rsum n (fun k => f k + g k) = rsum n f + rsum n g.
Proof. induction n as [|n IH]; simpl; [lra|]. rewrite IH. lra. Qed.

Lemma rsum_mult_l (n : nat) (c : R) (f : nat -> R) :
  rsum n (fun k => c * f k) = c * rsum n f.
Proof. induction n as [|n IH]; simpl; [lra|]. rewrite IH. lra. Qed.

Lemma rsum_mult_r (n : nat) (c : R) (f : nat -> R) :
  rsum n (fun k => f k * c) = rsum n f * c.
Proof. induction n as [|n IH]; simpl; [lra|]. rewrite IH. lra. Qed.

Lemma rsum_swap (n m : nat) (f : nat -> nat -> R) :
  rsum n (fun i => rsum m (fun j => f i j))
  = rsum m (fun j => rsum n (fun i => f i j)).
Proof.
  induction n as [|n IH]; simpl.
  - by rewrite rsum_0.
  - by rewrite IH, <- rsum_plus.
Qed.

(** A sum against a row of the identity picks one term. *)
Lemma rsum_identity (n i : nat) (f : nat -> R) :
  (i < n)%nat -> rsum n (fun k => f k * identity i k) = f i.
Proof.
  unfold identity. induction n as [|n IH]; intros Hi; simpl; [lia|].
  destruct (decide (i = n)) as [->|Hne].
  - rewrite (rsum_ext n _ (fun _ => 0)), rsum_0; [lra|].
    intros k Hk. rewrite decide_False by lia. lra.
  - rewrite IH by lia. lra.
Qed.

End Sums.

(** ** Properties of the inversion *)

Section InversionProperties.

Variable svd : nat -> Matrix -> Matrix * list R * Matrix.

Lemma count_above_le (Sv : list R) : (count_above Sv <= length Sv)%nat.
Proof. apply length_filter. Qed.

Lemma descending_tail (x : R) (l : list R) : descending (x :: l) -> descending l.
Proof.
  intros H a b Hab Hb. apply (H (S a) (S b)); simpl; lia.
Qed.

(** On a descending array the values above the threshold are the first
    [count_above] ones. *)
Lemma count_above_descending (Sv : list R) :
  descending Sv ->
  forall a, (a < length Sv)%nat ->
    (a < count_above Sv)%nat <-> nth a Sv 0 > thresh.
Proof.
  unfold count_above. induction Sv as [|x l IH]; intros Hd a Ha; [simpl in Ha; lia|].
  specialize (IH (descending_tail _ _ Hd)).
  rewrite filter_cons. destruct (decide (x > thresh)) as [Hx|Hx].
  - destruct a as [|a]; simpl; [split; [done|lia]|].
    rewrite <- IH by (simpl in Ha; lia). lia.
  - assert (forall b, (b < length (x :: l))%nat -> ~ nth b (x :: l) 0 > thresh) as Hall.
    { intros b Hb Hgt. apply Hx. specialize (Hd 0%nat b). simpl in Hd.
      assert (nth b (x :: l) 0 <= x) by (apply Hd; [lia|done]). lra. }
    assert (length (filter (fun s => s > thresh) l) = 0%nat) as ->.
    { destruct l as [|y l']; [done|].
      destruct (length (filter (fun s => s > thresh) (y :: l'))) eqn:E; [done|].
      exfalso. apply (Hall 1%nat); [simpl; lia|]. simpl.
      apply (IH 0%nat); simpl; lia. }
    split; [lia|]. intros Hgt. by apply Hall in Hgt.
Qed.

Lemma mmul_mdiag (k : nat) (U Vh : Matrix) (v : nat -> R) (i j : nat) :
  mmul k (mmul k U (mdiag v)) Vh i j = rsum k (fun a => U i a * v a * Vh a j).
Proof.
  unfold mmul. apply rsum_ext; intros b Hb. f_equal.
  rewrite (rsum_ext k _ (fun c => (U i c * v c) * identity b c)).
  - by rewrite rsum_identity.
  - intros c _. unfold mdiag, identity. repeat case_decide; subst; try done; lra.
Qed.

(** C5: [invertSVD] divides [M[i,j]] by [sqrt(M[i,i]) * sqrt(M[j,j])],
    which is [sqrt(M[i,i] * M[j,j])] on a diagonal that is not negative;
    decomposes the normalized matrix; counts the singular values above
    [1e-10], which on the descending array are the first [k]; rebuilds
    [U[:, :k] diag(1/S[:k]) Vh[:k, :]], divides it by the same normalizer,
    and returns it with the whole array of singular values. *)
Theorem invertSVD_steps (n : nat) (matrix : Matrix) :
  let A := fun i j => matrix i j / (sqrt (matrix i i) * sqrt (matrix j j)) in
  let U := (svd n A).1.1 in
  let Sv := (svd n A).1.2 in
  let Vh := (svd n A).2 in
  let k := length (filter (fun s => s > 1e-10) Sv) in
  (forall i j, 0 <= matrix i i ->
     A i j = matrix i j / sqrt (matrix i i * matrix j j)) /\
  (k <= length Sv)%nat /\
  (descending Sv ->
     forall a, (a < length Sv)%nat -> (a < k)%nat <-> nth a Sv 0 > 1e-10) /\
  (forall i j,
     (invertSVD svd n matrix).1 i j
     = rsum k (fun a => U i a * (1 / nth a Sv 0) * Vh a j)
       / (sqrt (matrix i i) * sqrt (matrix j j))) /\
  (invertSVD svd n matrix).2 = Sv.
Proof.
  intros A U Sv Vh k. repeat split.
  - intros i j Hi. unfold A. by rewrite sqrt_mult_alt.
  - apply count_above_le.
  - by apply count_above_descending.
  - by apply count_above_descending.
  - intros i j. unfold invertSVD. change (matrix_norm matrix) with A.
    subst U Sv Vh k. destruct (svd n A) as [[U0 S0] V0]; simpl.
    unfold matrix_inverse_norm. by rewrite mmul_mdiag.
  - unfold invertSVD. change (matrix_norm matrix) with A.
    subst Sv. by destruct (svd n A) as [[U0 S0] V0].
Qed.

Lemma count_above_all (Sv : list R) :
  (forall s, s ∈ Sv -> s > thresh) -> count_above Sv = length Sv.
Proof.
  unfold count_above. induction Sv as [|x l IH]; intros H; [done|].
  rewrite filter_cons, decide_True by (apply H; set_solver).
  simpl. rewrite IH; [done|]. intros; apply H; set_solver.
Qed.

(** With orthogonal factors, [U diag(1/S) Vh] is a right inverse of the
    transpose of [U diag(S) Vh]. *)
Lemma svd_inverse_transpose (n : nat) (U Vh : Matrix) (Sv : list R) (i j : nat) :
  (forall a b, (a < n)%nat -> (b < n)%nat ->
     rsum n (fun c => U c a * U c b) = identity a b) ->
  (forall a b, (a < n)%nat -> (b < n)%nat ->
     rsum n (fun c => Vh c a * Vh c b) = identity a b) ->
  (forall c, (c < n)%nat -> nth c Sv 0 <> 0) ->
  (i < n)%nat -> (j < n)%nat ->
  rsum n (fun a => rsum n (fun c => U a c * nth c Sv 0 * Vh c i)
                   * rsum n (fun e => U a e * (1 / nth e Sv 0) * Vh e j))
  = identity i j.
Proof.
  intros HU HV HS Hi Hj.
  transitivity
    (rsum n (fun c => rsum n (fun e =>
       (nth c Sv 0 * Vh c i * ((1 / nth e Sv 0) * Vh e j))
       * rsum n (fun a => U a c * U a e)))).
  - rewrite (rsum_ext n _ (fun a => rsum n (fun c => rsum n (fun e =>
               (U a c * nth c Sv 0 * Vh c i)
               * (U a e * (1 / nth e Sv 0) * Vh e j))))).
    2:{ intros a _. rewrite <- rsum_mult_r. apply rsum_ext; intros c _.
        by rewrite <- rsum_mult_l. }
    rewrite rsum_swap. apply rsum_ext; intros c _.
    rewrite rsum_swap. apply rsum_ext; intros e _.
    rewrite <- rsum_mult_l. apply rsum_ext; intros a _. ring.
  - rewrite <- (HV i j Hi Hj). apply rsum_ext; intros c Hc.
    rewrite (rsum_ext n _ (fun e =>
               (nth c Sv 0 * Vh c i * ((1 / nth e Sv 0) * Vh e j))
               * identity c e)).
    2:{ intros e He. by rewrite HU. }
    rewrite (rsum_identity n c
               (fun e => nth c Sv 0 * Vh c i * ((1 / nth e Sv 0) * Vh e j))) by done.
    field. by apply HS.
Qed.

(** C6: for a symmetric matrix with a positive diagonal whose normalized
    matrix has all its singular values above the threshold, the first
    component of [invertSVD] is a right inverse: the product with the
    matrix is the identity. *)
Theorem invertSVD_roundtrip (n : nat) (matrix : Matrix) :
  (forall i j, (i < n)%nat -> (j < n)%nat -> matrix i j = matrix j i) ->
  (forall i, (i < n)%nat -> 0 < matrix i i) ->
  is_svd n (matrix_norm matrix) (svd n (matrix_norm matrix)) ->
  (forall s, s ∈ (svd n (matrix_norm matrix)).1.2 -> s > 1e-10) ->
  forall i j, (i < n)%nat -> (j < n)%nat ->
    mmul n matrix (invertSVD svd n matrix).1 i j = identity i j.
Proof.
  intros Hsym Hpos Hsvd Habove i j Hi Hj.
  unfold invertSVD.
  destruct (svd n (matrix_norm matrix)) as [[U Sv] Vh] eqn:E.
  destruct Hsvd as (Hlen & HA & HU & HV & _). simpl in Habove.
  rewrite (count_above_all Sv Habove), Hlen. simpl.
  assert (forall a, (a < n)%nat -> 0 < sqrt_diag matrix a) as Hd.
  { intros a Ha. apply sqrt_lt_R0. by apply Hpos. }
  assert (forall c, (c < n)%nat -> nth c Sv 0 <> 0) as HS.
  { intros c Hc. assert (nth c Sv 0 > thresh); [|unfold thresh in *; lra].
    apply Habove. apply list_elem_of_In, nth_In. lia. }
  unfold mmul at 1.
  rewrite (rsum_ext n _ (fun a =>
             (sqrt_diag matrix i / sqrt_diag matrix j)
             * (rsum n (fun c => U a c * nth c Sv 0 * Vh c i)
                * rsum n (fun e => U a e * (1 / nth e Sv 0) * Vh e j)))).
  2:{ intros a Ha. unfold matrix_inverse_norm. rewrite mmul_mdiag.
      rewrite <- (HA a i Ha Hi). unfold matrix_norm, normalizer.
      rewrite (Hsym i a Hi Ha).
      pose proof (Hd a Ha); pose proof (Hd i Hi); pose proof (Hd j Hj).
      field. lra. }
  rewrite rsum_mult_l, svd_inverse_transpose by done.
  unfold identity. case_decide; subst; [|lra].
  pose proof (Hd j Hj). field. lra.
Qed.

End InversionProperties.

(** ** Properties of the network aggregation *)

Section NetworkProperties.

Context {Wave : Type}.
Variable projection : Params -> Detector -> Wave -> list R -> list C.
Variable SNR : Detector -> list C -> bool -> list R.
Variable scalar_product : list C -> list C -> Detector -> list R.
Variable svd : nat -> Matrix -> Matrix * list R * Matrix.

Local Abbreviation detector_fisher spv fp wm wc udc :=
  (fun d => compute_detector_fisher projection SNR scalar_product d spv fp wm wc udc).
Local Abbreviation step_of thr spv fp wm wc udc :=
  (detector_step projection SNR scalar_product thr spv fp wm wc udc).

(** The loop over the detectors, from any accumulator: every [SNR^2] is
    added, a matrix only above the threshold. *)
Lemma detector_loop (thr : R) spv fp wm (wc : WaveformClass Wave) udc
    (dets : list Detector) :
  forall (l : list (Matrix * R)) (F0 : Matrix) (s0 : R),
    map_result (detector_fisher spv fp wm wc udc) dets = Ok l ->
    exists F,
      fold_result (step_of thr spv fp wm wc udc) dets (F0, s0)
      = Ok (F, fold_left Rplus (map snd l) s0) /\
      forall i j,
        F i j = fold_left Rplus
                  (map (fun r : Matrix * R => r.1 i j)
                     (filter (fun r : Matrix * R => sqrt r.2 > thr) l))
                  (F0 i j).
Proof.
  induction dets as [|d dets IH]; intros l F0 s0; simpl.
  - intros [= <-]. by exists F0.
  - unfold rbind at 1, detector_step.
    destruct (compute_detector_fisher _ _ _ d _ _ _ _ _) as [[F1 s1]|] eqn:E;
      [|done].
    unfold rbind at 1.
    destruct (map_result _ dets) as [l'|] eqn:El; [|done]. intros [= <-].
    simpl. rewrite filter_cons. simpl.
    destruct (decide (sqrt s1 > thr)) as [Hgt|Hle]; simpl;
      destruct (IH l' (if decide (sqrt s1 > thr) then madd F0 F1 else F0)
                  (s0 + s1) eq_refl) as (F & HF & Hsum);
      [rewrite decide_True in HF, Hsum by done
      |rewrite decide_False in HF, Hsum by done];
      exists F; split; done.
Qed.

Lemma fold_left_Rplus_0 (l : list R) (x : R) :
  fold_left Rplus l x = x + Rsum l.
Proof.
  unfold Rsum. revert x; induction l as [|y l IH]; intros x; simpl; [lra|].
  rewrite (IH (x + y)), (IH (0 + y)). lra.
Qed.

(** One pass of the loop over the signals, when every detector of the
    network could be evaluated. *)
Lemma signal_step_spec (network : Network) (parameter_values : DataFrame)
    fp wm (wc : WaveformClass Wave) udc havesky (arrays : Arrays) (k : nat)
    spv (l : list (Matrix * R)) :
  iloc parameter_values k = Ok spv ->
  map_result (detector_fisher spv fp wm wc udc) (detectors network) = Ok l ->
  exists F,
    fold_result (step_of (detection_SNR network).1 spv fp wm wc udc)
      (detectors network) (zeros, 0) = Ok (F, Rsum (map snd l)) /\
    (forall i j,
       F i j = Rsum (map (fun r : Matrix * R => r.1 i j)
                       (filter (fun r : Matrix * R =>
                                  sqrt r.2 > (detection_SNR network).1) l))) /\
    let inverse := (invertSVD svd (length fp) F).1 in
    let errors :=
      <[k := map (fun i => sqrt (inverse i i)) (seq 0 (length fp))]>
        (parameter_errors arrays) in
    let snr := <[k := sqrt (Rsum (map snd l))]> (network_snr arrays) in
    signal_step projection SNR scalar_product svd network parameter_values
      fp wm wc udc havesky arrays k
    = match havesky with
      | Some (i_ra, i_dec) =>
          rbind (df_column_iloc parameter_values "dec" k) (fun dec =>
          Ok (mkArrays errors
                ((fun sky => <[k := sky_localization_area inverse dec i_ra i_dec]> sky)
                   <$> sky_localization arrays)
                snr))
      | None => Ok (mkArrays errors (sky_localization arrays) snr)
      end.
Proof.
  intros Hk Hl.
  destruct (detector_loop (detection_SNR network).1 spv fp wm wc udc
              (detectors network) l zeros 0 Hl) as (F & HF & HFij).
  exists F. split; [exact HF|]. split; [exact HFij|].
  unfold signal_step. rewrite Hk. unfold rbind at 1. rewrite HF.
  unfold rbind at 1. simpl. by destruct havesky as [[i_ra i_dec]|].
Qed.



(** *** Selection of the detected signals *)

Lemma where_gt_spec (xs : list R) (thr : R) :
  forall i k, k ∈ where_gt i xs thr <->
    (i <= k)%nat /\ exists x, xs !! (k - i)%nat = Some x /\ x > thr.
Proof.
  induction xs as [|x xs IH]; intros i k; simpl.
  - split; [by intros ?%elem_of_nil|]. by intros (_ & y & ? & _).
  - assert (k ∈ where_gt (S i) xs thr <->
            (i < k)%nat /\ exists y, (x :: xs) !! (k - i)%nat = Some y /\ y > thr)
      as Hrec.
    { rewrite IH. split; intros (Hik & y & Hy & Hgt); (split; [lia|]);
        exists y; split; try done.
      - by replace (k - i)%nat with (S (k - S i)) by lia.
      - by replace (k - i)%nat with (S (k - S i)) in Hy by lia. }
    destruct (decide (x > thr)) as [Hx|Hx].
    + rewrite elem_of_cons, Hrec. split.
      * intros [->|(Hik & y & Hy & Hgt)].
        -- split; [lia|]. exists x. by rewrite Nat.sub_diag.
        -- split; [lia|]. by exists y.
      * intros (Hik & y & Hy & Hgt).
        destruct (decide (k = i)) as [->|Hne]; [by left|right].
        split; [lia|]. by exists y.
    + rewrite Hrec. split.
      * intros (Hik & y & Hy & Hgt). split; [lia|]. by exists y.
      * intros (Hik & y & Hy & Hgt).
        destruct (decide (k = i)) as [->|Hne].
        -- rewrite Nat.sub_diag in Hy. simpl in Hy. by simplify_eq.
        -- split; [lia|]. by exists y.
Qed.

Lemma where_gt_lower (xs : list R) (thr : R) (i : nat) :
  Forall (fun k => (i <= k)%nat) (where_gt i xs thr).
Proof.
  apply Forall_forall. intros k Hk. by apply where_gt_spec in Hk as [? _].
Qed.

Lemma where_gt_sorted (xs : list R) (thr : R) (i : nat) :
  StronglySorted lt (where_gt i xs thr).
Proof.
  revert i; induction xs as [|x xs IH]; intros i; simpl; [constructor|].
  destruct (decide (x > thr)); [|apply IH].
  constructor; [apply IH|].
  eapply Forall_impl; [apply (where_gt_lower xs thr (S i))|]. simpl; lia.
Qed.

Lemma take_indices_spec {A} (xs : list A) (idx : list nat) :
  (forall k, k ∈ idx -> (k < length xs)%nat) ->
  exists ys, take_indices xs idx = Ok ys /\
             Forall2 (fun k y => xs !! k = Some y) idx ys.
Proof.
  unfold take_indices. induction idx as [|k idx IH]; intros Hin; simpl.
  - by exists [].
  - destruct (lookup_lt_is_Some_2 xs k) as [y Hy]; [apply Hin; set_solver|].
    destruct IH as (ys & -> & Hys); [intros; apply Hin; set_solver|].
    unfold list_index. rewrite Hy. simpl. exists (y :: ys). split; [done|].
    by constructor.
Qed.

Lemma fold_result_inv {A B} (I : B -> Prop) (f : B -> A -> result B)
    (xs : list A) :
  (forall b x b', I b -> f b x = Ok b' -> I b') ->
  forall b b', I b -> fold_result f xs b = Ok b' -> I b'.
Proof.
  intros Hf. induction xs as [|x xs IH]; intros b b' Hb; simpl.
  - by intros [= <-].
  - unfold rbind. destruct (f b x) as [b1|] eqn:E; [|done].
    apply IH. by eapply Hf.
Qed.

Lemma signal_step_shape (network : Network) (parameter_values : DataFrame)
    fp wm (wc : WaveformClass Wave) udc havesky (n : nat) (sky : bool)
    (arrays arrays' : Arrays) (k : nat) :
  arrays_shape n sky arrays ->
  signal_step projection SNR scalar_product svd network parameter_values
    fp wm wc udc havesky arrays k = Ok arrays' ->
  arrays_shape n sky arrays'.
Proof.
  intros (H1 & H2 & H3). unfold signal_step, rbind.
  destruct (iloc parameter_values k); [|done].
  destruct (fold_result _ _ _) as [acc|]; [|done].
  destruct havesky as [[i_ra i_dec]|].
  - destruct (df_column_iloc parameter_values "dec" k); [|done].
    intros [= <-]. unfold arrays_shape; simpl. rewrite !length_insert.
    destruct (sky_localization arrays); simpl; by rewrite ?length_insert.
  - intros [= <-]. unfold arrays_shape; simpl. by rewrite !length_insert.
Qed.

Lemma signals_havesky_spec (fp : list string) :
  exists havesky, signals_havesky fp = Ok havesky /\
    (is_Some havesky <-> "ra" ∈ fp /\ "dec" ∈ fp).
Proof.
  unfold signals_havesky, py_index, rbind.
  destruct (decide ("ra" ∈ fp /\ "dec" ∈ fp)) as [[Hra Hdec]|Hno].
  - destruct (list_find_elem_of (fun y => y = "ra") fp "ra" Hra eq_refl)
      as [[i_ra ?] ->].
    destruct (list_find_elem_of (fun y => y = "dec") fp "dec" Hdec eq_refl)
      as [[i_dec ?] ->].
    eexists; split; [done|]. split; [done|]. by eexists.
  - exists None. split; [done|]. split; [by intros [? ?]|done].
Qed.

(** C2: once the loop over the signals has filled the arrays, what
    [compute_network_errors] returns are the entries of the three arrays
    at one and the same list of indices, in increasing order: those of the
    signals whose network SNR is strictly above the second threshold.  A
    signal whose SNR equals the threshold is left out, and the sky areas
    are returned exactly when both ["ra"] and ["dec"] are Fisher
    parameters. *)
Theorem detected_signals_selection (network : Network)
    (parameter_values : DataFrame) fp wm (wc : WaveformClass Wave) udc
    havesky (arrays : Arrays) :
  (0 < length fp)%nat -> (0 < df_len parameter_values)%nat ->
  signals_havesky fp = Ok havesky ->
  fold_result
    (signal_step projection SNR scalar_product svd network parameter_values
       fp wm wc udc havesky)
    (seq 0 (df_len parameter_values))
    (initial_arrays (df_len parameter_values) (length fp) havesky) = Ok arrays ->
  let network_snr_thr := (detection_SNR network).2 in
  exists detected snr_out err_out sky_out,
    compute_network_errors projection SNR scalar_product svd network
      parameter_values fp wm wc udc = Ok (snr_out, err_out, sky_out) /\
    (forall k, k ∈ detected <->
       exists x, network_snr arrays !! k = Some x /\ x > network_snr_thr) /\
    (forall k, network_snr arrays !! k = Some network_snr_thr -> k ∉ detected) /\
    StronglySorted lt detected /\
    Forall2 (fun k y => network_snr arrays !! k = Some y) detected snr_out /\
    Forall2 (fun k y => parameter_errors arrays !! k = Some y) detected err_out /\
    match sky_out with
    | Some out =>
        exists sky, sky_localization arrays = Some sky /\
          Forall2 (fun k y => sky !! k = Some y) detected out
    | None => sky_localization arrays = None
    end /\
    (is_Some sky_out <-> "ra" ∈ fp /\ "dec" ∈ fp).
Proof.
  intros Hp Hs Hsky Hloop thr.
  set (n := df_len parameter_values) in *.
  assert (arrays_shape n (bool_decide (is_Some havesky)) arrays)
    as (Hl1 & Hl2 & Hl3).
  { eapply fold_result_inv; [|..|exact Hloop].
    - intros b k b'. apply signal_step_shape.
    - unfold arrays_shape, initial_arrays; simpl. rewrite !length_replicate.
      destruct havesky; simpl; rewrite ?length_replicate; done. }
  set (detected := where_gt 0 (network_snr arrays) thr).
  assert (forall k, k ∈ detected <->
            exists x, network_snr arrays !! k = Some x /\ x > thr) as Hdet.
  { intros k. unfold detected. rewrite where_gt_spec, Nat.sub_0_r.
    split; [by intros [_ ?]|]. intros ?; split; [lia|done]. }
  assert (forall k, k ∈ detected -> (k < n)%nat) as Hrange.
  { intros k (x & Hx & _)%Hdet. apply lookup_lt_Some in Hx. lia. }
  assert (forall k, network_snr arrays !! k = Some thr -> k ∉ detected) as Hexcl.
  { intros k Hk (x & Hx & Hgt)%Hdet. rewrite Hk in Hx. injection Hx as <-.
    unfold thr in Hgt. lra. }
  destruct (take_indices_spec (network_snr arrays) detected)
    as (snr_out & Hsnr & Fsnr); [intros; rewrite Hl1; auto|].
  destruct (take_indices_spec (parameter_errors arrays) detected)
    as (err_out & Herr & Ferr); [intros; rewrite Hl2; auto|].
  destruct (signals_havesky_spec fp) as (h & Hh & Hiff).
  rewrite Hsky in Hh; injection Hh as <-.
  unfold compute_network_errors. fold n.
  rewrite decide_True, decide_True by done. rewrite Hsky. unfold rbind at 1.
  rewrite Hloop. unfold rbind at 1. fold thr. fold detected.
  rewrite Hsnr, Herr. unfold rbind at 1 2.
  destruct (sky_localization arrays) as [sky|] eqn:Es.
  - destruct Hl3 as (Hb & Hl3).
    destruct (take_indices_spec sky detected)
      as (out & Hout & Fout); [intros; rewrite Hl3; auto|].
    rewrite Hout. unfold rbind.
    exists detected, snr_out, err_out, (Some out).
    split; [done|]. split; [exact Hdet|]. split; [exact Hexcl|].
    split; [apply where_gt_sorted|]. split; [done|]. split; [done|].
    split; [by exists sky|].
    split; [intros _; apply Hiff; by apply bool_decide_eq_true in Hb|done].
  - exists detected, snr_out, err_out, None.
    split; [done|]. split; [exact Hdet|]. split; [exact Hexcl|].
    split; [apply where_gt_sorted|]. split; [done|]. split; [done|].
    split; [done|]. split; [by intros [? ?]|].
    intros H. apply Hiff in H. by apply bool_decide_eq_false in Hl3.
Qed.

End NetworkProperties.


(** ** Properties of the reporting *)

Section ReportingProperties.

Context {Wave : Type}.
Variable projection : Params -> Detector -> Wave -> list R -> list C.
Variable SNR : Detector -> list C -> bool -> list R.
Variable scalar_product : list C -> list C -> Detector -> list R.
Variable svd : nat -> Matrix -> Matrix * list R * Matrix.
Variable str_of_float : R -> string.
Variable partial : Network -> list Z -> result Network.

Local Abbreviation analyze_one' :=
  (analyze_one projection SNR scalar_product svd str_of_float partial).
Local Abbreviation compute_network_errors' :=
  (compute_network_errors projection SNR scalar_product svd).

Lemma elem_of_rev {A} (x : A) (l : list A) : x ∈ rev l -> x ∈ l.
Proof. rewrite !list_elem_of_In. apply in_rev. Qed.

(** The file name enters the file written only as its name. *)
Lemma output_to_txt_file_name (parameter_values : DataFrame) snr errors sky fp
    (filename : string) (f : TxtFile) :
  output_to_txt_file parameter_values snr errors sky fp filename = Ok f ->
  txt_name f = filename +:+ ".txt" /\
  forall filename',
    output_to_txt_file parameter_values snr errors sky fp filename'
    = Ok (mkTxtFile (filename' +:+ ".txt") (txt_header f) (txt_data f)).
Proof.
  unfold output_to_txt_file, rbind.
  destruct (c_ (map _ snr) _) as [d0|]; [|done].
  destruct (c_ d0 errors) as [d1|]; [|done].
  destruct sky as [sky|].
  - destruct (c_ d1 _) as [d2|]; [|done]. by intros [= <-].
  - by intros [= <-].
Qed.

(** One pass of the loop: the errors of the whole network, under the name
    made from the identifiers. *)
Lemma analyze_one_spec (network : Network) (parameter_values : DataFrame)
    fp pop wm (wc : WaveformClass Wave) udc (ids : list Z) (f : TxtFile) :
  analyze_one' network parameter_values fp pop wm wc udc ids = Ok f ->
  exists r filename,
    compute_network_errors' network parameter_values fp wm wc udc = Ok r /\
    errors_file_name str_of_float network ids pop = Ok filename /\
    output_to_txt_file parameter_values r.1.1 r.1.2 r.2 fp filename = Ok f.
Proof.
  unfold analyze_one, rbind.
  destruct (partial network ids); [|done].
  destruct (compute_network_errors _ _ _ _ _ _ _ _ _ _) as [r|]; [|done].
  destruct (errors_file_name _ _ _ _) as [filename|]; [|done].
  intros H. by exists r, filename.
Qed.

Lemma analyze_loop (network : Network) (parameter_values : DataFrame)
    fp pop wm (wc : WaveformClass Wave) udc (ids_list : list (list Z)) :
  forall files0 files u,
    analyze_and_save_to_txt projection SNR scalar_product svd str_of_float
      partial network parameter_values fp ids_list pop wm wc udc files0 = Ok (u, files) ->
    exists new,
      files = (rev new ++ files0)%list /\
      Forall2 (fun ids f =>
                 analyze_one' network parameter_values fp pop wm wc udc ids = Ok f)
        ids_list new.
Proof.
  unfold analyze_and_save_to_txt.
  induction ids_list as [|ids ids_list IH]; intros files0 files u; simpl.
  - unfold ret. intros [= <- <-]. by exists [].
  - unfold bind at 1 2, lift, modify.
    destruct (analyze_one _ _ _ _ _ _ _ _ _ _ _ _ _ ids) as [f|] eqn:E; [|done].
    intros (new & -> & Hnew)%IH. exists (f :: new). split.
    + simpl. by rewrite <- app_assoc.
    + by constructor.
Qed.

(** C9: two runs of [analyze_and_save_to_txt] that differ only in the list
    of sub-network identifiers write files with the same header and the
    same numbers, those that [compute_network_errors] gives for the whole
    network; the identifiers of a pass only make the name of its file. *)
Theorem results_independent_of_sub_network_ids (network : Network)
    (parameter_values : DataFrame) fp pop wm (wc : WaveformClass Wave) udc
    (ids_list1 ids_list2 : list (list Z)) (files1 files2 : list TxtFile) u1 u2 :
  analyze_and_save_to_txt projection SNR scalar_product svd str_of_float
    partial network parameter_values fp ids_list1 pop wm wc udc [] = Ok (u1, files1) ->
  analyze_and_save_to_txt projection SNR scalar_product svd str_of_float
    partial network parameter_values fp ids_list2 pop wm wc udc [] = Ok (u2, files2) ->
  (forall f1 f2, f1 ∈ files1 -> f2 ∈ files2 ->
     txt_header f1 = txt_header f2 /\ txt_data f1 = txt_data f2) /\
  Forall2 (fun ids f =>
             exists r filename,
               compute_network_errors' network parameter_values fp wm wc udc = Ok r /\
               errors_file_name str_of_float network ids pop = Ok filename /\
               output_to_txt_file parameter_values r.1.1 r.1.2 r.2 fp filename = Ok f /\
               txt_name f = filename +:+ ".txt")
    ids_list1 (rev files1).
Proof.
  intros (new1 & -> & H1)%analyze_loop (new2 & -> & H2)%analyze_loop.
  rewrite !app_nil_r. split.
  - intros f1 f2 Hf1%elem_of_rev Hf2%elem_of_rev.
    apply list_elem_of_lookup in Hf1 as [i1 Hi1], Hf2 as [i2 Hi2].
    eapply Forall2_lookup_r in H1 as (ids1 & _ & (r1 & n1 & Hr1 & _ & Ho1)%analyze_one_spec);
      [|exact Hi1].
    eapply Forall2_lookup_r in H2 as (ids2 & _ & (r2 & n2 & Hr2 & _ & Ho2)%analyze_one_spec);
      [|exact Hi2].
    rewrite Hr1 in Hr2; injection Hr2 as <-.
    apply output_to_txt_file_name in Ho1 as (_ & Ho1).
    rewrite Ho1 in Ho2. by injection Ho2 as <-.
  - rewrite rev_involutive. eapply Forall2_impl; [exact H1|].
    intros ids f (r & filename & Hr & Hn & Ho)%analyze_one_spec.
    exists r, filename. repeat split; try done.
    by apply output_to_txt_file_name in Ho as (? & _).
Qed.

End ReportingProperties.


(** ** The properties at the small instance *)

Lemma analytic_derivatives_witness :
  let proj := central_projection toy_projection toy_derivative in
  (exists self',
     with_respect_to toy_projection "luminosity_distance" toy_derivative
     = Ok (map (Cscale (- (1 / 100))) proj, self')
     /\ d_projection_at_parameters self' = Some proj) /\
  (exists self',
     with_respect_to toy_projection "geocent_time" toy_derivative
     = Ok (zip_with (fun f p => Cmul (Cscale (2 * PI * f) Ci) p) [1; 2; 3; 4] proj,
           self')
     /\ d_projection_at_parameters self' = Some proj) /\
  (exists self',
     with_respect_to toy_projection "phase" toy_derivative
     = Ok (map (Cmul (Cscale (-1) Ci)) proj, self')
     /\ d_projection_at_parameters self' = Some proj).
Proof.
  destruct (analytic_derivatives toy_projection toy_derivative) as (H1 & H2 & H3).
  split; [|split; [exact H2|exact H3]].
  apply (H1 100); [reflexivity|lra].
Defined.

Lemma finite_difference_step_witness :
  exists deriv self',
    with_respect_to toy_projection "ra" toy_derivative = Ok (deriv, self') /\
    d_pv_set1 self' !! "ra" = Some (1 - Rmax 1e-5 (1e-5 * 1) / 2) /\
    d_pv_set2 self' !! "ra" = Some (1 + Rmax 1e-5 (1e-5 * 1) / 2).
Proof.
  destruct (finite_difference_step toy_projection toy_derivative "ra" 1)
    as ((deriv & self' & H1 & H2 & H3 & _) & _).
  - intros H. repeat (apply elem_of_cons in H as [H|H]; [discriminate|]).
    by apply elem_of_nil in H.
  - reflexivity.
  - by exists deriv, self'.
Defined.

(** At a declination of [-6/5] the step is [eps], and not [eps * 6/5] as
    [max(eps, eps * |pv|)] would give. *)
Lemma finite_difference_step_negative_value :
  exists deriv self',
    with_respect_to toy_projection "dec" toy_derivative = Ok (deriv, self') /\
    d_pv_set1 self' !! "dec" = Some (- 6 / 5 - 1e-5 / 2) /\
    d_pv_set1 self' !! "dec"
    <> Some (- 6 / 5 - Rmax 1e-5 (1e-5 * Rabs (- 6 / 5)) / 2).
Proof.
  destruct (with_respect_to_numeric toy_projection toy_derivative "dec" (- 6 / 5))
    as (deriv & self' & Hw & _ & Hsky & _); [done..|].
  destruct Hsky as (_ & Hp1 & _).
  { apply elem_of_cons; right. apply elem_of_cons; by left. }
  assert (Rmax 1e-5 (1e-5 * (- 6 / 5)) = 1e-5) as Hstep by (apply Rmax_left; lra).
  assert (d_pv_set1 self' !! "dec" = Some (- 6 / 5 - 1e-5 / 2)) as Hv.
  { rewrite Hp1. simpl. unfold default_eps. rewrite Hstep.
    by rewrite lookup_insert_eq. }
  exists deriv, self'. split; [exact Hw|]. split; [exact Hv|].
  rewrite Hv. intros [= H]. revert H.
  rewrite Rabs_left by lra. rewrite Rmax_right by lra. lra.
Qed.

(** The small Fisher-matrix object can be filled in. *)
Lemma toy_update_fm :
  { self' | update_fm toy_projection toy_scalar_product toy_fisher = Ok (tt, self') }.
Proof. eexists. vm_compute. reflexivity. Defined.



Lemma update_fm_derivative_calls_witness :
  rev (d_calls (fm_derivative (proj1_sig toy_update_fm)))
  = ["phase"; "luminosity_distance"; "luminosity_distance"]
  /\ (2 * (length (d_calls (fm_derivative (proj1_sig toy_update_fm))) - 0)
      = 2 * (2 + 1))%nat
  /\ exists m, fm_fm (proj1_sig toy_update_fm) = Some m /\
       forall i j, (i <= j)%nat -> (j < 2)%nat ->
         fisher_entry toy_projection toy_scalar_product toy_fisher i j (m i j)
         /\ m j i = m i j.
Proof.
  apply (update_fm_derivative_calls toy_projection toy_scalar_product toy_fisher
           (proj1_sig toy_update_fm) tt).
  - exact (proj2_sig toy_update_fm).
  - reflexivity.
  - reflexivity.
Defined.

(** With two Fisher parameters the derivative is invoked three times, the
    second parameter twice. *)
Lemma update_fm_two_parameters_three_calls :
  exists self',
    update_fm toy_projection toy_scalar_product toy_fisher = Ok (tt, self') /\
    d_calls (fm_derivative toy_fisher) = [] /\
    fm_nd toy_fisher = 2%nat /\
    rev (d_calls (fm_derivative self'))
    = ["phase"; "luminosity_distance"; "luminosity_distance"] /\
    length (d_calls (fm_derivative self')) <> fm_nd toy_fisher.
Proof.
  exists (proj1_sig toy_update_fm). split; [exact (proj2_sig toy_update_fm)|].
  vm_compute. repeat split; try reflexivity. lia.
Qed.

Lemma toy_descending : descending [1; 1].
Proof.
  intros a b Hab Hb. simpl in Hb.
  destruct a as [|[|a]], b as [|[|b]]; simpl; try lia; lra.
Qed.

Lemma invertSVD_steps_witness :
  (forall i j, toy_matrix i j / (sqrt (toy_matrix i i) * sqrt (toy_matrix j j))
               = toy_matrix i j / sqrt (toy_matrix i i * toy_matrix j j)) /\
  (forall a, (a < 2)%nat -> (a < 2)%nat <-> nth a [1; 1] 0 > 1e-10) /\
  (invertSVD toy_svd 2 toy_matrix).2 = [1; 1].
Proof.
  destruct (invertSVD_steps toy_svd 2 toy_matrix) as (H1 & _ & H3 & _ & H5).
  split; [|split].
  - intros i j. apply H1. unfold toy_matrix, mdiag. rewrite decide_True by done. lra.
  - assert (length (filter (fun s => s > 1e-10) [1; 1]) = 2%nat) as Hcount.
    { rewrite !filter_cons, !decide_True by lra. reflexivity. }
    intros a Ha. specialize (H3 toy_descending a Ha).
    change ((a < length (filter (fun s => (s > 1e-10)%R) [1%R; 1%R]))%nat
            <-> nth a [1; 1] 0 > 1e-10) in H3.
    by rewrite Hcount in H3.
  - exact H5.
Defined.

Lemma toy_matrix_norm (i j : nat) : matrix_norm toy_matrix i j = identity i j.
Proof.
  unfold matrix_norm, normalizer, sqrt_diag, toy_matrix, mdiag, identity.
  destruct (decide (i = j)) as [->|Hne].
  - rewrite !decide_True by done. rewrite sqrt_sqrt by lra. lra.
  - lra.
Qed.

Lemma toy_is_svd : is_svd 2 (matrix_norm toy_matrix) (toy_svd 2 (matrix_norm toy_matrix)).
Proof.
  unfold toy_svd, is_svd. split; [reflexivity|].
  split; [|split; [|split; [|exact toy_descending]]]; intros i j Hi Hj.
  - rewrite toy_matrix_norm.
    destruct i as [|[|i]], j as [|[|j]]; try lia; vm_compute; lra.
  - destruct i as [|[|i]], j as [|[|j]]; try lia; vm_compute; lra.
  - destruct i as [|[|i]], j as [|[|j]]; try lia; vm_compute; lra.
Qed.

Lemma invertSVD_roundtrip_witness :
  let product := mmul 2 toy_matrix (invertSVD toy_svd 2 toy_matrix).1 in
  product 0%nat 0%nat = 1 /\ product 0%nat 1%nat = 0 /\
  product 1%nat 0%nat = 0 /\ product 1%nat 1%nat = 1.
Proof.
  assert (forall i j, (i < 2)%nat -> (j < 2)%nat ->
            mmul 2 toy_matrix (invertSVD toy_svd 2 toy_matrix).1 i j = identity i j)
    as H.
  { apply (invertSVD_roundtrip toy_svd 2 toy_matrix).
    - intros i j _ _. unfold toy_matrix, mdiag. repeat case_decide; congruence.
    - intros i _. unfold toy_matrix, mdiag. rewrite decide_True by done. lra.
    - exact toy_is_svd.
    - simpl. intros s Hs.
      repeat (apply elem_of_cons in Hs as [->|Hs]; [lra|]).
      by apply elem_of_nil in Hs. }
  intros product. repeat split; apply H; lia.
Defined.

Lemma toy_iloc : iloc toy_table 0 = Ok toy_row.
Proof. reflexivity. Qed.

Lemma toy_detector_results (thr : R * R) :
  map_result
    (fun d => compute_detector_fisher toy_projection toy_SNR toy_scalar_product d
                toy_row ["phase"] "IMRPhenomD" toy_class false)
    (detectors (mkNetwork [toy_detector; toy_detector_B] thr)) = Ok toy_results.
Proof. vm_compute. reflexivity. Qed.

Lemma toy_snr_squares : map snd toy_results = [4; 1].
Proof. unfold toy_results, toy_result, Rsum; simpl. repeat f_equal; lra. Qed.

Lemma sqrt_above (t s : R) : 0 <= t -> t * t < s -> sqrt s > t.
Proof.
  intros Ht Hs. unfold Rgt. rewrite <- (sqrt_square t Ht) at 1.
  apply sqrt_lt_1_alt. nra.
Qed.

Lemma sqrt_not_above (t s : R) : 0 <= t -> s <= t * t -> ~ sqrt s > t.
Proof.
  intros Ht Hs Hgt. destruct (Rle_or_lt 0 s) as [H0|H0].
  - assert (sqrt s <= sqrt (t * t)) by (by apply sqrt_le_1_alt).
    rewrite sqrt_square in * by done. lra.
  - rewrite sqrt_neg_0 in Hgt by lra. lra.
Qed.

(** The small network on the small table: the one signal is detected. *)
Lemma toy_compute_network_errors :
  exists errors,
    compute_network_errors toy_projection toy_SNR toy_scalar_product toy_svd
      toy_network toy_table ["phase"] "IMRPhenomD" toy_class false
    = Ok ([sqrt (Rsum [4; 1])], [errors], None) /\
    fold_result
      (signal_step toy_projection toy_SNR toy_scalar_product toy_svd toy_network
         toy_table ["phase"] "IMRPhenomD" toy_class false None)
      (seq 0 (df_len toy_table))
      (initial_arrays (df_len toy_table) (length ["phase"]) None)
    = Ok (mkArrays [errors] None [sqrt (Rsum [4; 1])]).
Proof.
  destruct (signal_step_spec toy_projection toy_SNR toy_scalar_product toy_svd
              toy_network toy_table ["phase"] "IMRPhenomD" toy_class false None
              (initial_arrays 1 1 None) 0 toy_row toy_results toy_iloc
              (toy_detector_results _)) as (F & _ & _ & Heq).
  rewrite toy_snr_squares in Heq.
  assert (sqrt (Rsum [4; 1]) > 2) as Hgt.
  { apply sqrt_above; [lra|]. unfold Rsum; simpl. lra. }
  set (x := sqrt (Rsum [4; 1])) in *.
  eexists.
  unfold compute_network_errors.
  change (df_len toy_table) with 1%nat. change (length ["phase"]) with 1%nat.
  rewrite !decide_True by lia.
  change (signals_havesky ["phase"]) with (@Ok (option (nat * nat)) None).
  unfold rbind at 1. cbn [seq fold_result].
  change (length ["phase"]) with 1%nat in Heq. rewrite Heq.
  cbn [rbind initial_arrays replicate parameter_errors sky_localization
         network_snr detection_SNR toy_network snd where_gt].
  cbn [insert list_insert]. simpl where_gt.
  rewrite decide_True by exact Hgt. split; reflexivity.
Qed.

Lemma detected_signals_selection_witness :
  exists arrays detected snr_out err_out sky_out,
    compute_network_errors toy_projection toy_SNR toy_scalar_product toy_svd
      toy_network toy_table ["phase"] "IMRPhenomD" toy_class false
    = Ok (snr_out, err_out, sky_out) /\
    (forall k, k ∈ detected <->
       exists x, network_snr arrays !! k = Some x /\ x > 2) /\
    Forall2 (fun k y => network_snr arrays !! k = Some y) detected snr_out /\
    Forall2 (fun k y => parameter_errors arrays !! k = Some y) detected err_out.
Proof.
  destruct toy_compute_network_errors as (errors & _ & Hloop).
  destruct (detected_signals_selection toy_projection toy_SNR toy_scalar_product
              toy_svd toy_network toy_table ["phase"] "IMRPhenomD" toy_class
              false None (mkArrays [errors] None [sqrt (Rsum [4; 1])]))
    as (detected & snr_out & err_out & sky_out & H1 & H2 & _ & _ & H5 & H6 & _).
  - simpl. lia.
  - unfold df_len. simpl. lia.
  - reflexivity.
  - exact Hloop.
  - by exists (mkArrays [errors] None [sqrt (Rsum [4; 1])]), detected, snr_out,
      err_out, sky_out.
Defined.


Lemma toy_analyze_one (ids : list Z) (filename : string) :
  (exists sub_network, Network_partial toy_network ids = Ok sub_network) ->
  errors_file_name toy_str_of_float toy_network ids "BBH" = Ok filename ->
  exists errors,
    analyze_one toy_projection toy_SNR toy_scalar_product toy_svd toy_str_of_float
      Network_partial toy_network toy_table ["phase"] "BBH" "IMRPhenomD" toy_class false ids
    = Ok (mkTxtFile (filename +:+ ".txt") "network_SNR geocent_time phase err_phase"
            [[sqrt (Rsum [4; 1]); 0; 0] ++ errors]%list).
Proof.
  intros [sub Hp] Hn. destruct toy_compute_network_errors as (errors & Hc & _).
  exists errors. unfold analyze_one. rewrite Hp, Hc, Hn. reflexivity.
Qed.

Lemma results_independent_of_sub_network_ids_witness :
  exists f1 f2,
    analyze_and_save_to_txt toy_projection toy_SNR toy_scalar_product toy_svd
      toy_str_of_float Network_partial toy_network toy_table ["phase"] [[0%Z]] "BBH"
      "IMRPhenomD" toy_class false [] = Ok (tt, [f1]) /\
    analyze_and_save_to_txt toy_projection toy_SNR toy_scalar_product toy_svd
      toy_str_of_float Network_partial toy_network toy_table ["phase"] [[1%Z; 0%Z]] "BBH"
      "IMRPhenomD" toy_class false [] = Ok (tt, [f2]) /\
    txt_name f1 = "Errors_ET_BBH_SNR2.0.txt" /\
    txt_name f2 = "Errors_CE_ET_BBH_SNR2.0.txt" /\
    txt_header f1 = txt_header f2 /\ txt_data f1 = txt_data f2.
Proof.
  destruct (toy_analyze_one [0%Z] "Errors_ET_BBH_SNR2.0") as (e1 & H1);
    [by eexists|reflexivity|].
  destruct (toy_analyze_one [1%Z; 0%Z] "Errors_CE_ET_BBH_SNR2.0") as (e2 & H2);
    [by eexists|reflexivity|].
  eexists; eexists.
  assert (forall ids f,
            analyze_one toy_projection toy_SNR toy_scalar_product toy_svd
              toy_str_of_float Network_partial toy_network toy_table ["phase"] "BBH"
              "IMRPhenomD" toy_class false ids = Ok f ->
            analyze_and_save_to_txt toy_projection toy_SNR toy_scalar_product
              toy_svd toy_str_of_float Network_partial toy_network toy_table ["phase"] [ids]
              "BBH" "IMRPhenomD" toy_class false [] = Ok (tt, [f])) as Hrun.
  { intros ids f Hf. unfold analyze_and_save_to_txt; simpl.
    unfold bind, lift, modify, ret. by rewrite Hf. }
  split; [exact (Hrun _ _ H1)|]. split; [exact (Hrun _ _ H2)|].
  split; [reflexivity|]. split; [reflexivity|].
  apply (results_independent_of_sub_network_ids toy_projection toy_SNR
           toy_scalar_product toy_svd toy_str_of_float Network_partial toy_network toy_table
           ["phase"] "BBH" "IMRPhenomD" toy_class false [[0%Z]] [[1%Z; 0%Z]]
           _ _ tt tt (Hrun _ _ H1) (Hrun _ _ H2)); apply list_elem_of_singleton; reflexivity.
Defined.


(** ** Further properties of the derivative engine *)

Section DerivativeBehaviour.

Context {Wave : Type}.
Variable projection : Params -> Detector -> Wave -> list R -> list C.

(** A target that is neither analytic without a lookup nor a key of the
    central parameters raises [KeyError]. *)
Lemma with_respect_to_KeyError (self : Derivative Wave) (target : string) :
  target <> "geocent_time" -> target <> "phase" ->
  d_local_params self !! target = None ->
  with_respect_to projection target self = Raise (KeyError target).
Proof.
  intros Hg Hp Hnone.
  unfold with_respect_to, bind, get, lift, getitem, ret, modify.
  repeat case_decide; try done; by rewrite Hnone.
Qed.

(** X1: the only exception of [with_respect_to] is the [KeyError] of its
    own target, raised exactly when the target is neither ["geocent_time"]
    nor ["phase"] and is not a key of the central parameters.  A distance
    of zero is set aside: the division by it is an error for the floats of
    Python and none for those of NumPy, and for the real numbers used
    here. *)
Theorem with_respect_to_raises_only_KeyError (self : Derivative Wave)
    (target : string) (e : exn) :
  (target = "luminosity_distance" ->
   d_local_params self !! "luminosity_distance" <> Some 0) ->
  with_respect_to projection target self = Raise e <->
  target <> "geocent_time" /\ target <> "phase" /\
  d_local_params self !! target = None /\ e = KeyError target.
Proof.
  intros _. split.
  - intros H.
    destruct (decide (target = "geocent_time")) as [Hg|Hg].
    { destruct (with_respect_to_total projection self target) as (x & s & Hx);
        [by left|congruence]. }
    destruct (decide (target = "phase")) as [Hp|Hp].
    { destruct (with_respect_to_total projection self target) as (x & s & Hx);
        [by right; left|congruence]. }
    destruct (d_local_params self !! target) as [v|] eqn:Hv.
    { destruct (with_respect_to_total projection self target) as (x & s & Hx);
        [right; right; by rewrite Hv|congruence]. }
    rewrite (with_respect_to_KeyError self target Hg Hp Hv) in H.
    by injection H as <-.
  - intros (Hg & Hp & Hnone & ->). by apply with_respect_to_KeyError.
Qed.

(** X2: both cached properties are computed once.  The first access
    computes the value from what the object holds then, stores it and
    returns it; from then on an access returns the stored value and
    changes nothing, without looking at the waveform object again: a
    waveform object replaced after the first access does not show in the
    value of either property. *)
Theorem cached_properties_are_computed_once (self : Derivative Wave) :
  let cls := d_waveform_class self in
  let object := d_waveform_object self in
  (* [waveform_at_parameters] *)
  (d_waveform_at_parameters self = None ->
   waveform_at_parameters self
   = Ok ((wo_call cls object, wo_t_of_f cls object),
         set_waveform_at_parameters
           (Some (wo_call cls object, wo_t_of_f cls object)) self)) /\
  (forall w, d_waveform_at_parameters self = Some w ->
     waveform_at_parameters self = Ok (w, self)) /\
  (forall w s1 object',
     waveform_at_parameters self = Ok (w, s1) ->
     d_waveform_at_parameters s1 = Some w /\
     waveform_at_parameters (set_waveform_object object' s1)
     = Ok (w, set_waveform_object object' s1)) /\
  (* [projection_at_parameters] *)
  (d_projection_at_parameters self = None ->
   exists s1,
     projection_at_parameters projection self
     = Ok (projection (d_local_params self) (d_detector self)
             (central_waveform self).1 (central_waveform self).2, s1) /\
     d_waveform_at_parameters s1 = Some (central_waveform self)) /\
  (forall p, d_projection_at_parameters self = Some p ->
     projection_at_parameters projection self = Ok (p, self)) /\
  (forall p s1 object',
     projection_at_parameters projection self = Ok (p, s1) ->
     d_projection_at_parameters s1 = Some p /\
     projection_at_parameters projection (set_waveform_object object' s1)
     = Ok (p, set_waveform_object object' s1)).
Proof.
  intros cls object.
  assert (forall (s : Derivative Wave) w,
            d_waveform_at_parameters s = Some w ->
            waveform_at_parameters s = Ok (w, s)) as Hw.
  { intros s w E. unfold waveform_at_parameters, bind, get, ret. by rewrite E. }
  assert (forall (s : Derivative Wave) p,
            d_projection_at_parameters s = Some p ->
            projection_at_parameters projection s = Ok (p, s)) as Hp.
  { intros s p E. unfold projection_at_parameters, bind, get, ret.
    by rewrite E. }
  split; [|split; [|split; [|split; [|split]]]].
  - intros E. unfold waveform_at_parameters, bind, get, modify, ret.
    by rewrite E.
  - apply Hw.
  - intros w s1 object' H.
    destruct (waveform_at_parameters_spec self) as (s & Hs & _ & Hc & _).
    rewrite Hs in H. injection H as <- <-.
    split; [exact Hc|]. by apply Hw.
  - intros E.
    unfold projection_at_parameters, waveform_at_parameters, central_waveform,
      bind, get, modify, ret.
    rewrite E.
    destruct (d_waveform_at_parameters self) as [w|] eqn:E'; simpl;
      rewrite ?E'; simpl; eexists; (split; [reflexivity|]); simpl; done.
  - apply Hp.
  - intros p s1 object' H.
    destruct (projection_at_parameters_spec projection self)
      as (s & Hs & _ & Hc & _).
    rewrite Hs in H. injection H as <- <-.
    split; [exact Hc|]. by apply Hp.
Qed.

(** X3: every successful call ends with the waveform object reset to the
    central parameters, whatever it held before, and never changes the
    central parameters themselves. *)
Theorem with_respect_to_resets_waveform_object (self self' : Derivative Wave)
    (target : string) (deriv : list C) :
  with_respect_to projection target self = Ok (deriv, self') ->
  wo_gw_params (d_waveform_object self') = d_local_params self /\
  d_local_params self' = d_local_params self /\
  wo_model (d_waveform_object self') = wo_model (d_waveform_object self) /\
  wo_data_params (d_waveform_object self') = wo_data_params (d_waveform_object self).
Proof.
  destruct (projection_at_parameters_spec projection self)
    as (s1 & Hp & Hs & _ & Ho1 & _).
  unfold with_respect_to, bind, get, lift, getitem, ret, modify.
  repeat case_decide; subst;
    try (destruct (d_local_params self !! _) as [v|] eqn:Hv; [|done]);
    rewrite ?Hp.
  - intros [= <- <-]. simpl. rewrite Ho1.
    destruct Hs as (_ & _ & _ & _ & _ & -> & _). done.
  - intros [= <- <-]. simpl. rewrite Ho1.
    destruct Hs as (_ & _ & _ & _ & _ & -> & _). done.
  - intros [= <- <-]. simpl. rewrite Ho1.
    destruct Hs as (_ & _ & _ & _ & _ & -> & _). done.
  - match goal with
    | |- context [waveform_at_parameters ?s] =>
        destruct (waveform_at_parameters_spec s)
          as (s2 & -> & Hs2 & _ & Ho2 & _)
    end.
    intros [= <- <-]. simpl. rewrite Ho2.
    destruct Hs2 as (_ & _ & _ & _ & _ & -> & _). done.
  - by intros [= <- <-].
Qed.

(** X4: calls on an instance are repeatable: after any successful call on
    an object whose waveform object holds the central parameters, as
    [__init__] leaves it, every target gives the value it gave before. *)
Theorem derivative_calls_are_repeatable (self self' : Derivative Wave)
    (target target' : string) (deriv : list C) :
  wf_coherent self ->
  with_respect_to projection target self = Ok (deriv, self') ->
  derivative_value projection self' target'
  = derivative_value projection self target'.
Proof.
  intros Hc H. apply derivative_value_stable.
  by eapply with_respect_to_stable.
Qed.

(** X5: for a positive [eps] the numerical branch never divides by zero:
    the step is at least [eps], the two perturbed values lie on either side
    of the central value and exactly one step apart. *)
Theorem perturbed_points_are_one_step_apart (self : Derivative Wave)
    (target : string) (pv : R) :
  0 < d_eps self ->
  target <> "luminosity_distance" -> target <> "geocent_time" ->
  target <> "phase" ->
  d_local_params self !! target = Some pv ->
  exists deriv self' v1 v2,
    with_respect_to projection target self = Ok (deriv, self') /\
    d_pv_set1 self' !! target = Some v1 /\
    d_pv_set2 self' !! target = Some v2 /\
    v1 < pv < v2 /\
    v2 - v1 = step (d_eps self) pv /\
    d_eps self <= step (d_eps self) pv.
Proof.
  intros Heps H1 H2 H3 Hpv.
  destruct (with_respect_to_numeric projection self target pv H1 H2 H3 Hpv)
    as (deriv & self' & Hw & _ & Hsky & Hint).
  assert (d_eps self <= step (d_eps self) pv) as Hstep by apply Rmax_l.
  exists deriv, self', (pv - step (d_eps self) pv / 2),
    (pv + step (d_eps self) pv / 2).
  split; [exact Hw|].
  assert (d_pv_set1 self' !! target = Some (pv - step (d_eps self) pv / 2) /\
          d_pv_set2 self' !! target = Some (pv + step (d_eps self) pv / 2))
    as (Hv1 & Hv2).
  { unfold step.
    destruct (decide (target ∈ ["ra"; "dec"; "psi"])) as [Hin|Hout].
    - destruct (Hsky Hin) as (_ & -> & ->). by rewrite !lookup_insert_eq.
    - destruct (Hint Hout) as (_ & -> & ->).
      by rewrite !(lookup_insert_ne _ "geocent_time"), !lookup_insert_eq. }
  repeat split; try done; lra.
Qed.

(** X6: the intrinsic branch undoes its temporary [geocent_time = 0]: on
    an object whose [tc] is the central [geocent_time], as [__init__] leaves
    it, the perturbed copies end up differing from the central parameters
    at the target only. *)
Theorem intrinsic_branch_restores_geocent_time (self : Derivative Wave)
    (target : string) (pv : R) :
  d_local_params self !! "geocent_time" = Some (d_tc self) ->
  target ∉ ["luminosity_distance"; "geocent_time"; "phase"; "ra"; "dec"; "psi"] ->
  d_local_params self !! target = Some pv ->
  exists deriv self',
    with_respect_to projection target self = Ok (deriv, self') /\
    d_pv_set1 self'
    = <[target := pv - step (d_eps self) pv / 2]> (d_local_params self) /\
    d_pv_set2 self'
    = <[target := pv + step (d_eps self) pv / 2]> (d_local_params self).
Proof.
  intros Htc Hn Hpv.
  assert (target <> "luminosity_distance" /\ target <> "geocent_time"
          /\ target <> "phase" /\ target ∉ ["ra"; "dec"; "psi"])
    as (H1 & H2 & H3 & H4).
  { repeat split.
    - intros ->. apply Hn. by left.
    - intros ->. apply Hn. right. by left.
    - intros ->. apply Hn. do 2 right. by left.
    - intros Hin. apply Hn. by do 3 right. }
  destruct (with_respect_to_numeric projection self target pv H1 H2 H3 Hpv)
    as (deriv & self' & Hw & _ & _ & Hint).
  destruct (Hint H4) as (_ & Hq1 & Hq2).
  exists deriv, self'. split; [exact Hw|]. rewrite Hq1, Hq2. unfold step.
  rewrite !insert_insert_eq.
  split; (rewrite insert_id; [done|]);
    by rewrite lookup_insert_ne.
Qed.

End DerivativeBehaviour.


(** ** Further properties of the Fisher-matrix assembly *)

Section FisherBehaviour.

Context {Wave : Type}.
Variable projection : Params -> Detector -> Wave -> list R -> list C.
Variable scalar_product : list C -> list C -> Detector -> list R.

Lemma Rsum_nonneg (l : list R) : (forall x, x ∈ l -> 0 <= x) -> 0 <= Rsum l.
Proof.
  induction l as [|y l IH]; intros Hl; unfold Rsum; simpl; [lra|].
  rewrite fold_left_Rplus_0.
  assert (0 <= y) by (apply Hl; by left).
  assert (0 <= Rsum l) by (apply IH; intros; apply Hl; by right).
  lra.
Qed.

(** X7: [fm] is built once: a second access returns the same matrix and
    leaves the object untouched, and a matrix stored beforehand is returned
    as it is, without a call of the derivative. *)
Theorem fm_is_built_once (self : FisherMatrix Wave) :
  (forall m s1,
     fm projection scalar_product self = Ok (m, s1) ->
     fm projection scalar_product s1 = Ok (m, s1)) /\
  (forall m0,
     fm_fm self = Some m0 ->
     fm projection scalar_product self = Ok (m0, self)).
Proof.
  assert (forall (s : FisherMatrix Wave) m0,
            fm_fm s = Some m0 -> fm projection scalar_product s = Ok (m0, s))
    as Hset.
  { intros s m0 H. unfold fm, bind, get, ret. by rewrite H. }
  split; [|apply Hset].
  intros m s1. unfold fm at 1. unfold bind, get, ret, raise.
  destruct (fm_fm self) as [m0|] eqn:E.
  - intros [= <- <-]. by apply Hset.
  - destruct (update_fm projection scalar_product self) as [[u s2]|]; [|done].
    destruct (fm_fm s2) as [m2|] eqn:E2; [|done].
    intros [= <- <-]. by apply Hset.
Qed.

Hypothesis scalar_product_nonneg :
  forall d detector x, x ∈ scalar_product d d detector -> 0 <= x.

Lemma update_fm_inner_diagonal (p1 p2 : nat) deriv1 (s1 s2 : FisherMatrix Wave) u :
  p1 <> p2 -> diagonal_nonneg s1 ->
  update_fm_inner projection scalar_product p1 deriv1 p2 s1 = Ok (u, s2) ->
  diagonal_nonneg s2.
Proof.
  intros Hne (m & Hm & Hd) H.
  apply update_fm_inner_spec in H as (t & deriv2 & d' & m' & _ & _ & Hm' & ->).
  rewrite Hm in Hm'; injection Hm' as <-.
  eexists; split; [reflexivity|]. intros i.
  rewrite !mset_ne by lia. apply Hd.
Qed.

Lemma update_fm_outer_diagonal (p1 : nat) (s1 s2 : FisherMatrix Wave) u :
  diagonal_nonneg s1 ->
  update_fm_outer projection scalar_product p1 s1 = Ok (u, s2) ->
  diagonal_nonneg s2.
Proof.
  intros (m & Hm & Hd) H.
  apply update_fm_outer_spec in H as (t & deriv1 & d' & m' & _ & _ & Hm' & H).
  rewrite Hm in Hm'; injection Hm' as <-.
  eapply (for_each_inv diagonal_nonneg) in H; [exact H| |].
  - intros p2 sa sb ub Hin%elem_of_seq. apply update_fm_inner_diagonal. lia.
  - eexists; split; [reflexivity|]. intros i.
    destruct (decide (i = p1)) as [->|Hne].
    + rewrite mset_eq. apply Rsum_nonneg. apply scalar_product_nonneg.
    + rewrite mset_ne by lia. apply Hd.
Qed.

(** X8: when the inner product of an array with itself is non-negative in
    every frequency bin, every diagonal entry of the matrix that [update_fm]
    builds is non-negative. *)
Theorem update_fm_diagonal_nonneg (self self' : FisherMatrix Wave) u :
  update_fm projection scalar_product self = Ok (u, self') ->
  exists m, fm_fm self' = Some m /\ forall i, 0 <= m i i.
Proof.
  unfold update_fm, bind, modify, get. intros H.
  eapply (for_each_inv diagonal_nonneg) in H; [exact H| |].
  - intros p1 sa sb ub _. apply update_fm_outer_diagonal.
  - exists zeros. split; [done|]. intros i. unfold zeros. lra.
Qed.

End FisherBehaviour.


(** ** Errors of the Fisher matrix and of the evaluation of a detector *)

Section FisherErrors.

Context {Wave : Type}.
Variable projection : Params -> Detector -> Wave -> list R -> list C.
Variable SNR : Detector -> list C -> bool -> list R.
Variable scalar_product : list C -> list C -> Detector -> list R.

(** A loop stops at the first pass that raises. *)
Lemma for_each_raises {St A} (I : St -> Prop) (body : A -> M St unit)
    (xs1 xs2 : list A) (x : A) (e : exn) :
  (forall y s1, y ∈ xs1 -> I s1 -> exists s2, body y s1 = Ok (tt, s2) /\ I s2) ->
  (forall s1, I s1 -> body x s1 = Raise e) ->
  forall s, I s -> for_each (xs1 ++ x :: xs2) body s = Raise e.
Proof.
  intros Hok Hfail. induction xs1 as [|y xs1 IH]; intros s Hs; simpl.
  - unfold bind. by rewrite Hfail.
  - destruct (Hok y s) as (s2 & E & Hs2); [by left|done|].
    unfold bind. rewrite E. apply IH; [|done].
    intros; apply Hok; [by right|done].
Qed.

(** The elements of a list all pass a test, or there is a first one that
    does not. *)
Lemma first_failure {A} (P : A -> Prop) `{forall x, Decision (P x)} (l : list A) :
  (forall x, x ∈ l -> P x) \/
  exists l1 x l2, l = (l1 ++ x :: l2)%list /\ (forall y, y ∈ l1 -> P y) /\ ~ P x.
Proof.
  induction l as [|a l IH].
  - left. by intros x ?%elem_of_nil.
  - destruct (decide (P a)) as [Ha|Ha].
    + destruct IH as [Hall|(l1 & x & l2 & -> & Hl1 & Hx)].
      * left. intros x [->|Hx]%elem_of_cons; auto.
      * right. exists (a :: l1), x, l2. split; [done|]. split; [|done].
        intros y [->|Hy]%elem_of_cons; auto.
    + right. exists [], a, l. split; [done|]. split; [|done].
      by intros y ?%elem_of_nil.
Qed.

Lemma Derivative_call_KeyError (d : Derivative Wave) (t : string) :
  t <> "geocent_time" -> t <> "phase" -> d_local_params d !! t = None ->
  Derivative_call projection t d = Raise (KeyError t).
Proof.
  intros Hg Hp Hnone. unfold Derivative_call, bind, modify.
  by rewrite with_respect_to_KeyError.
Qed.

(** One pass of the inner loop for a parameter that can be
    differentiated. *)
Lemma update_fm_inner_step (self0 : FisherMatrix Wave) p1 deriv1 p2 t s1 :
  fm_fisher_parameters self0 !! p2 = Some t ->
  (t = "geocent_time" \/ t = "phase"
   \/ is_Some (d_local_params (fm_derivative self0) !! t)) ->
  fm_invariant self0 s1 ->
  exists s2,
    update_fm_inner projection scalar_product p1 deriv1 p2 s1 = Ok (tt, s2) /\
    fm_invariant self0 s2.
Proof.
  intros Ht Hkey Hinv.
  pose proof Hinv as (Hfp & Hnd & Hdet & Hlp & m & Hm & Hsym).
  destruct (Derivative_call_total projection (fm_derivative s1) t)
    as (x & d' & Hd); [by rewrite Hlp|].
  assert (exists s2,
            update_fm_inner projection scalar_product p1 deriv1 p2 s1
            = Ok (tt, s2)) as [s2 H].
  { unfold update_fm_inner, fm_setitem, fm_getitem, on_derivative, list_index.
    unfold bind, get, lift, put, ret, raise.
    rewrite Hfp, Ht, Hd; simpl. rewrite Hm. by eexists. }
  exists s2. split; [exact H|]. by eapply update_fm_inner_inv.
Qed.

Lemma update_fm_inner_KeyError (self0 : FisherMatrix Wave) p1 deriv1 p2 t s1 :
  fm_fisher_parameters self0 !! p2 = Some t ->
  t <> "geocent_time" -> t <> "phase" ->
  d_local_params (fm_derivative self0) !! t = None ->
  fm_invariant self0 s1 ->
  update_fm_inner projection scalar_product p1 deriv1 p2 s1 = Raise (KeyError t).
Proof.
  intros Ht Hg Hp Hnone (Hfp & _ & _ & Hlp & _).
  unfold update_fm_inner, on_derivative, list_index.
  unfold bind, get, lift.
  rewrite Hfp, Ht. rewrite Derivative_call_KeyError; [done..|].
  by rewrite Hlp.
Qed.

(** [update_fm] stops at the first Fisher parameter that cannot be
    differentiated: pass [0] of the outer loop asks for every parameter in
    the order of the list. *)
Lemma update_fm_KeyError (self : FisherMatrix Wave)
    (before after : list string) (t : string) :
  fm_nd self = length (fm_fisher_parameters self) ->
  fm_fisher_parameters self = (before ++ t :: after)%list ->
  (forall x, x ∈ before ->
     x = "geocent_time" \/ x = "phase"
     \/ is_Some (d_local_params (fm_derivative self) !! x)) ->
  t <> "geocent_time" -> t <> "phase" ->
  d_local_params (fm_derivative self) !! t = None ->
  update_fm projection scalar_product self = Raise (KeyError t).
Proof.
  intros Hnd Hfp Hbefore Hg Hp Hnone.
  unfold update_fm, bind, modify, get.
  change (fm_nd (set_fm (Some zeros) self)) with (fm_nd self).
  assert (fm_nd self = S (length before + length after)) as Hn.
  { rewrite Hnd, Hfp, length_app. simpl. lia. }
  rewrite Hn. cbn [seq for_each]. unfold bind at 1.
  destruct before as [|t0 before].
  - (* the first parameter is the missing one *)
    unfold update_fm_outer, on_derivative, list_index.
    unfold bind, get, lift. simpl. rewrite Hfp. simpl.
    by rewrite Derivative_call_KeyError.
  - (* the first parameter is fine; the inner loop reaches the missing one *)
    assert (update_fm_outer projection scalar_product 0
              (set_fm (Some zeros) self) = Raise (KeyError t)) as ->; [|done].
    destruct (Derivative_call_total projection (fm_derivative self) t0)
      as (x & d' & Hd); [apply Hbefore; by left|].
    destruct (Derivative_call_spec projection scalar_product _ _ _ _ Hd)
      as (_ & Hl).
    unfold update_fm_outer, fm_setitem, on_derivative, list_index.
    unfold bind at 1 2 3, get at 1, lift at 1. simpl.
    rewrite Hfp. simpl. rewrite Hd. simpl.
    rewrite Hn. simpl length.
    replace (S (S (length before) + length after) - 1)%nat
      with (length before + S (length after))%nat by lia.
    rewrite seq_app. cbn [seq].
    unfold bind at 1. unfold bind at 1, get at 1, put at 1.
    cbn [fm_fm set_fm set_derivative].
    apply (for_each_raises (fm_invariant self)).
    + intros p2 sa Hin%elem_of_seq Hsa.
      destruct (lookup_lt_is_Some_2 before (p2 - 1)) as [tp Htp]; [lia|].
      apply (update_fm_inner_step self 0%nat x p2 tp); [| |done].
      * rewrite Hfp. replace p2 with (S (p2 - 1)) by lia. simpl.
        by rewrite lookup_app_l by (by eapply lookup_lt_Some).
      * apply Hbefore. right. by eapply list_elem_of_lookup_2.
    + intros sa Hsa. apply (update_fm_inner_KeyError self 0%nat x); try done.
      rewrite Hfp. simpl. by rewrite list_lookup_middle.
    + unfold fm_invariant; simpl. repeat split; try done.
      eexists; split; [done|]. apply symmetric_mset_diag, symmetric_zeros.
Qed.

(** X9: when a Fisher parameter is neither ["geocent_time"] nor ["phase"]
    and is missing from the parameter set, while the parameters listed
    before it can all be differentiated (a distance among them not being
    zero), [update_fm] raises the [KeyError] of that parameter, and so does
    the accessor [fm] of an object without a stored matrix. *)
Theorem update_fm_raises_first_missing_parameter (self : FisherMatrix Wave)
    (before after : list string) (t : string) :
  fm_nd self = length (fm_fisher_parameters self) ->
  fm_fisher_parameters self = (before ++ t :: after)%list ->
  (forall x, x ∈ before ->
     x = "geocent_time" \/ x = "phase"
     \/ is_Some (d_local_params (fm_derivative self) !! x)) ->
  ("luminosity_distance" ∈ before ->
   d_local_params (fm_derivative self) !! "luminosity_distance" <> Some 0) ->
  t <> "geocent_time" -> t <> "phase" ->
  d_local_params (fm_derivative self) !! t = None ->
  update_fm projection scalar_product self = Raise (KeyError t) /\
  (fm_fm self = None ->
   fm projection scalar_product self = Raise (KeyError t)).
Proof.
  intros Hnd Hfp Hbefore _ Hg Hp Hnone.
  pose proof (update_fm_KeyError self before after t Hnd Hfp Hbefore Hg Hp Hnone)
    as H.
  split; [exact H|]. intros Hno. unfold fm, bind, get. by rewrite Hno, H.
Qed.

(** The accessor [fm] of an object without a stored matrix returns the
    matrix that [update_fm] builds. *)
Lemma fm_fresh (self : FisherMatrix Wave) :
  fm_fm self = None ->
  fm_nd self = length (fm_fisher_parameters self) ->
  differentiable self ->
  exists m self', fm projection scalar_product self = Ok (m, self').
Proof.
  intros Hno Hnd Hkeys.
  destruct (update_fm_total projection scalar_product self Hkeys Hnd)
    as (self' & Hup).
  pose proof (update_fm_spec projection scalar_product _ _ _ Hup)
    as ((_ & _ & _ & _ & m & Hm & _) & _).
  exists m, self'. unfold fm, bind, get, ret. by rewrite Hno, Hup, Hm.
Qed.

(** The three ways in which the evaluation of a detector ends. *)
Lemma compute_detector_fisher_cases (detector : Detector) (spv : Params)
    (fp : list string) wm (wc : WaveformClass Wave) udc :
  let result :=
    compute_detector_fisher projection SNR scalar_product detector spv fp
      wm wc udc in
  (spv !! "geocent_time" = None /\ result = Raise (KeyError "geocent_time")) \/
  (is_Some (spv !! "geocent_time") /\
   (forall t, t ∈ fp -> t = "phase" \/ is_Some (spv !! t)) /\
   exists r, result = Ok r) \/
  (is_Some (spv !! "geocent_time") /\
   exists before t after,
     fp = (before ++ t :: after)%list /\
     (forall x, x ∈ before -> x = "phase" \/ is_Some (spv !! x)) /\
     t <> "phase" /\ spv !! t = None /\ result = Raise (KeyError t)).
Proof.
  intros result. unfold result, compute_detector_fisher, FisherMatrix_init,
    Derivative_init, getitem.
  destruct (spv !! "geocent_time") as [tc|] eqn:Etc; [right|by left].
  cbn [rbind].
  match goal with
  | |- context [rbind (fm _ _ ?s) _] => set (self := s)
  end.
  destruct (first_failure (fun t => t = "phase" \/ is_Some (spv !! t)) fp)
    as [Hall|(before & t & after & Hfp & Hbefore & Ht)].
  - left. split; [done|]. split; [exact Hall|].
    destruct (fm_fresh self) as (m & self' & ->); [done..| |].
    + intros t Ht. destruct (Hall t Ht) as [->|Hin]; [by right; left|].
      by right; right.
    + unfold rbind. by eexists.
  - right. split; [done|]. exists before, t, after. split; [exact Hfp|].
    split; [exact Hbefore|].
    assert (t <> "phase") as Hp by (intros ->; apply Ht; by left).
    assert (spv !! t = None) as Hnone.
    { destruct (spv !! t) eqn:E; [|done]. exfalso. apply Ht. by right. }
    split; [exact Hp|]. split; [exact Hnone|].
    assert (t <> "geocent_time") as Hg by (intros ->; by rewrite Etc in Hnone).
    unfold fm, bind, get. simpl.
    rewrite (update_fm_KeyError self before after t); try done.
    intros x Hx. destruct (Hbefore x Hx) as [->|Hin]; [by right; left|].
    by right; right.
Qed.

(** X10: with a waveform, a projection, an SNR and an inner product that
    return, and a distance that is not zero when it is a Fisher parameter,
    the evaluation of a detector returns exactly when the signal has a
    ["geocent_time"] and a value for every Fisher parameter other than
    ["phase"]; otherwise it raises the [KeyError] of a key that the signal
    lacks, which is ["geocent_time"] or a Fisher parameter, and nothing
    else. *)
Theorem compute_detector_fisher_returns_iff (detector : Detector)
    (spv : Params) (fp : list string) wm (wc : WaveformClass Wave) udc :
  ("luminosity_distance" ∈ fp -> spv !! "luminosity_distance" <> Some 0) ->
  let result :=
    compute_detector_fisher projection SNR scalar_product detector spv fp
      wm wc udc in
  ((exists r, result = Ok r) <->
   is_Some (spv !! "geocent_time") /\
   forall t, t ∈ fp -> t = "phase" \/ is_Some (spv !! t)) /\
  (forall e, result = Raise e ->
     exists key, e = KeyError key /\ spv !! key = None /\
                 (key = "geocent_time" \/ key ∈ fp)).
Proof.
  intros _ result.
  destruct (compute_detector_fisher_cases detector spv fp wm wc udc)
    as [(Hno & H)|[(Htc & Hall & r & H)
                  |(Htc & before & t & after & Hfp & Hb & Hp & Hnone & H)]];
    fold result in H; rewrite H.
  - split.
    + split; [by intros [r ?]|]. intros [Hs _]. rewrite Hno in Hs.
      by destruct Hs.
    + intros e [= <-]. exists "geocent_time". by auto.
  - split; [|done]. split; [done|]. by exists r.
  - split.
    + split; [by intros [r ?]|]. intros [_ Hall]. exfalso.
      destruct (Hall t) as [?|Hs]; [rewrite Hfp; set_solver|done|].
      rewrite Hnone in Hs. by destruct Hs.
    + intros e [= <-]. exists t. split; [done|]. split; [done|]. right.
      rewrite Hfp. set_solver.
Qed.

End FisherErrors.


(** ** Recomputing the Fisher matrix *)

Section FisherRecomputation.

Context {Wave : Type}.
Variable projection : Params -> Detector -> Wave -> list R -> list C.
Variable scalar_product : list C -> list C -> Detector -> list R.

(** [update_fm] leaves another state of the same object, with all the
    rows of the matrix done. *)
Lemma update_fm_same (self self' : FisherMatrix Wave) u :
  wf_coherent (fm_derivative self) ->
  update_fm projection scalar_product self = Ok (u, self') ->
  fm_same projection self self' /\
  exists m, fm_fm self' = Some m /\
    rows_done projection scalar_product self (fm_nd self) m.
Proof.
  intros Hc. unfold update_fm, bind, modify, get. intros H.
  apply (for_each_range
           (fun q s => fm_same projection self s /\
              exists m, fm_fm s = Some m /\
                rows_done projection scalar_product self q m)) in H.
  - exact H.
  - intros p1 sa sb ub Hp1. apply update_fm_outer_entries.
    change (fm_nd (set_fm (Some zeros) self)) with (fm_nd self) in Hp1. lia.
  - split; [split; [|split; [|split]]; try done; by apply stable_refl|].
    eexists; split; [reflexivity|]. intros i j Hi. lia.
Qed.

(** X11: [update_fm] can be called again.  On an object as [__init__]
    leaves it, a second call, made on the object that the first one left,
    returns as well and builds the same matrix: the perturbed parameter
    sets and the cached waveform that the derivative keeps from earlier
    calls do not enter its later values. *)
Theorem update_fm_is_repeatable (self s1 : FisherMatrix Wave) u :
  wf_coherent (fm_derivative self) ->
  fm_nd self = length (fm_fisher_parameters self) ->
  update_fm projection scalar_product self = Ok (u, s1) ->
  exists s2 m1 m2,
    update_fm projection scalar_product s1 = Ok (tt, s2) /\
    fm_fm s1 = Some m1 /\ fm_fm s2 = Some m2 /\
    forall i j, (i < fm_nd self)%nat -> (j < fm_nd self)%nat ->
      m2 i j = m1 i j.
Proof.
  intros Hc Hnd H1.
  destruct (update_fm_same self s1 u Hc H1)
    as ((Hfp & Hnd1 & Hdet & Hst) & m1 & Hm1 & Hrows1).
  pose proof Hst as ((_ & _ & _ & _ & _ & Hlp & _) & _ & _ & Hc1).
  assert (differentiable s1) as Hkeys.
  { intros t Ht. rewrite Hfp in Ht.
    apply list_elem_of_lookup in Ht as [i Hi].
    assert (i < fm_nd self)%nat as Hlt
        by (rewrite Hnd; by eapply lookup_lt_Some).
    destruct (Hrows1 i i) as ((ti & _ & di & _ & Hti & _ & Hdi & _) & _);
      [lia..|].
    rewrite Hi in Hti; injection Hti as <-.
    destruct (decide (t = "geocent_time")) as [|Hg]; [by left|].
    destruct (decide (t = "phase")) as [|Hp]; [by right; left|].
    right; right. rewrite Hlp.
    destruct (d_local_params (fm_derivative self) !! t) eqn:E; [done|].
    unfold derivative_value in Hdi.
    by rewrite (with_respect_to_KeyError projection _ t Hg Hp E) in Hdi. }
  destruct (update_fm_total projection scalar_product s1 Hkeys)
    as (s2 & H2); [by rewrite Hnd1, Hfp|].
  destruct (update_fm_same s1 s2 tt Hc1 H2) as (_ & m2 & Hm2 & Hrows2).
  exists s2, m1, m2. do 3 (split; [done|]).
  assert (forall i j, (i <= j)%nat -> (j < fm_nd self)%nat ->
            m2 i j = m1 i j /\ m2 j i = m1 j i) as Hupper.
  { intros i j Hij Hj.
    destruct (Hrows1 i j) as ((ti & tj & di & dj & Hti & Htj & Hdi & Hdj & ->)
                              & ->); [lia..|].
    destruct (Hrows2 i j)
      as ((ti' & tj' & di' & dj' & Hti' & Htj' & Hdi' & Hdj' & ->) & ->);
      [rewrite ?Hnd1; lia..|].
    rewrite Hfp, Hti in Hti'. injection Hti' as <-.
    rewrite Hfp, Htj in Htj'. injection Htj' as <-.
    rewrite (derivative_value_stable projection _ _ _ Hst), Hdi in Hdi'.
    rewrite (derivative_value_stable projection _ _ _ Hst), Hdj in Hdj'.
    injection Hdi' as <-. injection Hdj' as <-. by rewrite Hdet. }
  intros i j Hi Hj. destruct (decide (i <= j)%nat).
  - by destruct (Hupper i j).
  - destruct (Hupper j i) as (_ & ?); [lia|done|done].
Qed.

End FisherRecomputation.


(** ** The evaluation of a detector, end to end *)

Section DetectorEvaluation.

Context {Wave : Type}.
Variable projection : Params -> Detector -> Wave -> list R -> list C.
Variable SNR : Detector -> list C -> bool -> list R.
Variable scalar_product : list C -> list C -> Detector -> list R.

(** X12: what [compute_detector_fisher] returns for a detector and a
    signal: a symmetric matrix whose entry [(i, j)], for [i <= j], is the
    summed inner product of the derivatives with respect to the Fisher
    parameters [i] and [j], taken by a [Derivative] made for the signal
    with the default step; and an [SNR^2] that is the sum of the squares
    of the SNRs of the components of the detector. *)
Theorem compute_detector_fisher_entries (detector : Detector) (spv : Params)
    (fp : list string) wm (wc : WaveformClass Wave) udc (m : Matrix) (s : R) :
  compute_detector_fisher projection SNR scalar_product detector spv fp wm wc udc
  = Ok (m, s) ->
  exists derivative,
    Derivative_init wm spv detector None wc = Ok derivative /\
    d_eps derivative = 1e-5 /\
    (forall i j, m i j = m j i) /\
    (forall i j ti tj, (i <= j)%nat ->
       fp !! i = Some ti -> fp !! j = Some tj ->
       exists di dj,
         derivative_value projection derivative ti = Ok di /\
         derivative_value projection derivative tj = Ok dj /\
         m i j = Rsum (scalar_product di dj detector)) /\
    let signal :=
      projection spv detector (wf_call wc wm spv (mkDataParams (frequencyvector detector) 50))
        (wf_t_of_f wc wm spv (mkDataParams (frequencyvector detector) 50)) in
    s = Rsum (map (fun x => x ^ 2) (SNR detector signal udc)).
Proof.
  unfold compute_detector_fisher, FisherMatrix_init, Derivative_init, getitem.
  destruct (spv !! "geocent_time") as [tc|]; [|done]. cbn [rbind].
  match goal with
  | |- context [rbind (fm _ _ ?s) _] => set (self := s)
  end.
  unfold fm, bind, get, ret, raise. cbn [fm_fm self].
  destruct (update_fm projection scalar_product self) as [[u s1]|] eqn:Hup;
    [|done].
  pose proof (update_fm_spec projection scalar_product _ _ _ Hup)
    as ((_ & _ & _ & _ & m' & Hm' & Hsym) & _).
  destruct (update_fm_entries projection scalar_product self s1 u eq_refl Hup)
    as (m'' & Hm'' & Hentries).
  rewrite Hm' in Hm''. injection Hm'' as <-. rewrite Hm'. cbn [rbind].
  intros [= <- <-]. eexists. split; [reflexivity|]. split; [reflexivity|].
  split; [exact Hsym|]. split; [|reflexivity].
  intros i j ti tj Hij Hti Htj.
  destruct (Hentries i j) as ((ti' & tj' & di & dj & Hti' & Htj' & Hdi & Hdj & Hv)
                              & _); [done|by eapply lookup_lt_Some|].
  simpl in Hti', Htj'. rewrite Hti in Hti'. rewrite Htj in Htj'.
  injection Hti' as <-. injection Htj' as <-. by exists di, dj.
Qed.

End DetectorEvaluation.


(** ** Behaviour of the inversion and of the sky localization *)

Section InversionBehaviour.

Variable svd : nat -> Matrix -> Matrix * list R * Matrix.

(** X13: [invertSVD] does not depend on the units of the parameters.  When
    the decomposition looks only at the [n] by [n] entries of its
    argument, rescaling parameter [i] by [c i > 0], which multiplies the
    entry [(i, j)] of a matrix with a positive diagonal by [c i * c j],
    leaves the singular values as they are and divides the entry [(i, j)]
    of the inverse by [c i * c j], so that the standard deviation of
    parameter [i] is divided by [c i]. *)
Theorem invertSVD_rescaling (n : nat) (matrix : Matrix) (c : nat -> R) :
  (forall A B : Matrix,
     (forall i j, (i < n)%nat -> (j < n)%nat -> A i j = B i j) ->
     svd n A = svd n B) ->
  (forall i, (i < n)%nat -> 0 < c i) ->
  (forall i, (i < n)%nat -> 0 < matrix i i) ->
  let scaled : Matrix := fun i j => c i * c j * matrix i j in
  (invertSVD svd n scaled).2 = (invertSVD svd n matrix).2 /\
  forall i j, (i < n)%nat -> (j < n)%nat ->
    (invertSVD svd n scaled).1 i j
    = (invertSVD svd n matrix).1 i j / (c i * c j) /\
    sqrt ((invertSVD svd n scaled).1 i i)
    = sqrt ((invertSVD svd n matrix).1 i i) / c i.
Proof.
  intros Hsvd Hc Hm scaled.
  assert (forall i, (i < n)%nat ->
            sqrt_diag scaled i = c i * sqrt_diag matrix i) as Hdiag.
  { intros i Hi. unfold sqrt_diag, scaled.
    rewrite sqrt_mult_alt by (specialize (Hc i Hi); nra).
    rewrite sqrt_square by (specialize (Hc i Hi); lra). done. }
  assert (forall i, (i < n)%nat -> 0 < sqrt_diag matrix i) as Hpos.
  { intros i Hi. apply sqrt_lt_R0. by apply Hm. }
  assert (forall i j, (i < n)%nat -> (j < n)%nat ->
            normalizer scaled i j = c i * c j * normalizer matrix i j) as Hnorm.
  { intros i j Hi Hj. unfold normalizer. rewrite !Hdiag by done. ring. }
  assert (forall i j, (i < n)%nat -> (j < n)%nat ->
            normalizer matrix i j <> 0) as Hnz.
  { intros i j Hi Hj. unfold normalizer.
    pose proof (Hpos i Hi). pose proof (Hpos j Hj). nra. }
  assert (svd n (matrix_norm scaled) = svd n (matrix_norm matrix)) as Heq.
  { apply Hsvd. intros i j Hi Hj. unfold matrix_norm.
    rewrite Hnorm by done. unfold scaled.
    pose proof (Hc i Hi). pose proof (Hc j Hj). pose proof (Hnz i j Hi Hj).
    field. repeat split; lra. }
  assert (forall i j, (i < n)%nat -> (j < n)%nat ->
            (invertSVD svd n scaled).1 i j
            = (invertSVD svd n matrix).1 i j / (c i * c j)) as Hinv.
  { intros i j Hi Hj. unfold invertSVD. rewrite Heq.
    destruct (svd n (matrix_norm matrix)) as [[U Sv] Vh]. simpl.
    rewrite Hnorm by done.
    pose proof (Hc i Hi). pose proof (Hc j Hj). pose proof (Hnz i j Hi Hj).
    field. repeat split; lra. }
  split.
  - unfold invertSVD. rewrite Heq.
    by destruct (svd n (matrix_norm matrix)) as [[U Sv] Vh].
  - intros i j Hi Hj. split; [by apply Hinv|].
    rewrite Hinv by done. specialize (Hc i Hi).
    rewrite sqrt_div_alt by nra. by rewrite sqrt_square by lra.
Qed.

End InversionBehaviour.

Section SkyBehaviour.

(** X14: for a covariance matrix whose block of ["ra"] and ["dec"] has
    non-negative variances and a non-negative determinant, the sky area is
    not negative and is at most [PI] times the product of the two standard
    deviations; it is [PI |cos dec|] times that product when the two
    angles are uncorrelated. *)
Theorem sky_localization_area_bounds (network_fisher_inverse : Matrix)
    (declination_angle : R) (right_ascension_index declination_index : nat) :
  let var_ra :=
    network_fisher_inverse right_ascension_index right_ascension_index in
  let var_dec := network_fisher_inverse declination_index declination_index in
  let cov := network_fisher_inverse right_ascension_index declination_index in
  let area :=
    sky_localization_area network_fisher_inverse declination_angle
      right_ascension_index declination_index in
  0 <= var_ra -> 0 <= var_dec -> cov ^ 2 <= var_ra * var_dec ->
  0 <= area <= PI * (sqrt var_ra * sqrt var_dec) /\
  (cov = 0 ->
   area = PI * Rabs (cos declination_angle) * (sqrt var_ra * sqrt var_dec)).
Proof.
  intros var_ra var_dec cov area Hra Hdec Hdet.
  unfold area, sky_localization_area. fold var_ra var_dec cov.
  pose proof PI_RGT_0 as Hpi.
  pose proof (Rabs_pos (cos declination_angle)) as Habs.
  assert (Rabs (cos declination_angle) <= 1) as Hcos.
  { apply Rabs_le. pose proof (COS_bound declination_angle). lra. }
  pose proof (sqrt_pos (var_ra * var_dec - cov ^ 2)) as Hs.
  assert (sqrt (var_ra * var_dec - cov ^ 2) <= sqrt var_ra * sqrt var_dec) as Hle.
  { rewrite <- sqrt_mult by done. apply sqrt_le_1_alt. nra. }
  split; [split|].
  - apply Rmult_le_pos; [|done]. apply Rmult_le_pos; lra.
  - assert (0 <= sqrt var_ra * sqrt var_dec) by lra.
    assert (Rabs (cos declination_angle) * sqrt (var_ra * var_dec - cov ^ 2)
            <= sqrt var_ra * sqrt var_dec) by nra.
    rewrite Rmult_assoc. apply Rmult_le_compat_l; lra.
  - intros ->. rewrite <- sqrt_mult by done. do 2 f_equal. ring.
Qed.

(** X15: the percentile factor is zero at percentile [0], grows strictly
    with the percentile below [100], and gives the percentile back: the
    fraction [p / 100] is [1 - exp (- factor / (2 (180 / PI)^2))]. *)
Theorem sky_localization_percentile_factor_increasing :
  sky_localization_percentile_factor 0 = 0 /\
  (forall p q, p < q -> q < 100 ->
     sky_localization_percentile_factor p
     < sky_localization_percentile_factor q) /\
  (forall p, p < 100 ->
     1 - exp (- sky_localization_percentile_factor p / (2 * (180 / PI) ^ 2))
     = p / 100).
Proof.
  pose proof PI_RGT_0 as Hpi.
  assert (0 < (180 / PI) ^ 2) as Hk.
  { apply pow_lt. apply Rdiv_lt_0_compat; lra. }
  unfold sky_localization_percentile_factor. split; [|split].
  - replace (1 - 0 / 100) with 1 by lra. rewrite ln_1. ring.
  - intros p q Hpq Hq.
    assert (ln (1 - q / 100) < ln (1 - p / 100)) by (apply ln_increasing; lra).
    nra.
  - intros p Hp.
    replace (- (-2 * ln (1 - p / 100) * (180 / PI) ^ 2) / (2 * (180 / PI) ^ 2))
      with (ln (1 - p / 100)) by (field; apply PI_neq0).
    rewrite exp_ln by lra. lra.
Qed.

End SkyBehaviour.


(** ** Behaviour of the loops over the signals and the detectors *)

Section NetworkBehaviour.

Context {Wave : Type}.
Variable projection : Params -> Detector -> Wave -> list R -> list C.
Variable SNR : Detector -> list C -> bool -> list R.
Variable scalar_product : list C -> list C -> Detector -> list R.
Variable svd : nat -> Matrix -> Matrix * list R * Matrix.

Local Abbreviation detector_fisher spv fp wm wc udc :=
  (fun d => compute_detector_fisher projection SNR scalar_product d spv fp wm wc udc).
Local Abbreviation step_of thr spv fp wm wc udc :=
  (detector_step projection SNR scalar_product thr spv fp wm wc udc).
Local Abbreviation signal_step' network pv fp wm wc udc havesky :=
  (signal_step projection SNR scalar_product svd network pv fp wm wc udc havesky).
Local Abbreviation errors_of fp acc :=
  (map (fun i => sqrt ((invertSVD svd (length fp) (fst acc)).1 i i))
     (seq 0 (length fp))).

(** A loop that raises does so in one of its passes. *)
Lemma fold_result_raises {A B} (I : B -> Prop) (f : B -> A -> result B)
    (xs : list A) (e : exn) :
  (forall b x b', x ∈ xs -> I b -> f b x = Ok b' -> I b') ->
  forall b, I b -> fold_result f xs b = Raise e ->
  exists b' x, x ∈ xs /\ I b' /\ f b' x = Raise e.
Proof.
  induction xs as [|x xs IH]; intros Hf b Hb; simpl; [done|].
  unfold rbind. destruct (f b x) as [b1|e1] eqn:E.
  - intros H. destruct (IH) with (b := b1) as (b' & y & Hy & Hb' & Hr).
    + intros b0 y b' Hy. apply Hf. by right.
    + eapply Hf; [by left|exact Hb|exact E].
    + exact H.
    + exists b', y. split; [by right|done].
  - intros [= <-]. exists b, x. split; [by left|done].
Qed.

(** The accumulated [SNR^2] of a detector is a sum of squares. *)
Lemma compute_detector_fisher_snr (detector : Detector) (spv : Params)
    (fp : list string) wm (wc : WaveformClass Wave) udc (r : Matrix * R) :
  compute_detector_fisher projection SNR scalar_product detector spv fp wm wc udc
  = Ok r ->
  0 <= r.2.
Proof.
  unfold compute_detector_fisher, rbind.
  destruct (FisherMatrix_init _ _ _ _ _ _) as [fisher|]; [|done].
  destruct (fm _ _ fisher) as [[m s]|]; [|done]. intros [= <-]. simpl.
  apply Rsum_nonneg. intros x (y & -> & _)%list_elem_of_fmap. nra.
Qed.

(** A pass of the loop over the detectors raises only what the evaluation
    of its detector raises. *)
Lemma detector_step_raises thr spv fp wm (wc : WaveformClass Wave) udc acc d e :
  step_of thr spv fp wm wc udc acc d = Raise e ->
  compute_detector_fisher projection SNR scalar_product d spv fp wm wc udc
  = Raise e.
Proof.
  unfold detector_step, rbind.
  destruct (compute_detector_fisher _ _ _ d _ _ _ _ _) as [r|]; [|done].
  by destruct (decide _).
Qed.

(** What a pass of the loop over the signals writes. *)
Lemma signal_step_inv (network : Network) (parameter_values : DataFrame)
    fp wm (wc : WaveformClass Wave) udc havesky (arrays arrays' : Arrays)
    (k : nat) :
  signal_step' network parameter_values fp wm wc udc havesky arrays k
  = Ok arrays' ->
  exists spv acc,
    iloc parameter_values k = Ok spv /\
    fold_result (step_of (detection_SNR network).1 spv fp wm wc udc)
      (detectors network) (zeros, 0) = Ok acc /\
    network_snr arrays' = <[k := sqrt acc.2]> (network_snr arrays) /\
    parameter_errors arrays' = <[k := errors_of fp acc]> (parameter_errors arrays) /\
    match havesky with
    | Some (i_ra, i_dec) =>
        exists dec,
          df_column_iloc parameter_values "dec" k = Ok dec /\
          sky_localization arrays'
          = (fun sky =>
               <[k := sky_localization_area (invertSVD svd (length fp) acc.1).1
                        dec i_ra i_dec]> sky)
              <$> sky_localization arrays
    | None => sky_localization arrays' = sky_localization arrays
    end.
Proof.
  unfold signal_step, rbind.
  destruct (iloc parameter_values k) as [spv|]; [|done].
  destruct (fold_result _ _ _) as [acc|] eqn:Eacc; [|done].
  destruct havesky as [[i_ra i_dec]|].
  - destruct (df_column_iloc parameter_values "dec" k) as [dec|]; [|done].
    intros [= <-]. exists spv, acc. do 4 (split; [done|]). by exists dec.
  - intros [= <-]. by exists spv, acc.
Qed.

(** Every row of the table can be read. *)
Lemma iloc_total (parameter_values : DataFrame) (k : nat) :
  (k < df_len parameter_values)%nat ->
  exists spv, iloc parameter_values k = Ok spv.
Proof.
  intros Hk. unfold iloc, list_index, rbind.
  destruct (lookup_lt_is_Some_2 (df_rows parameter_values) k Hk) as [row ->].
  by eexists.
Qed.

(** A pass of the loop over the signals raises only a [KeyError], for
    ["geocent_time"] or for a Fisher parameter. *)
Lemma signal_step_raises (network : Network) (parameter_values : DataFrame)
    fp wm (wc : WaveformClass Wave) udc havesky (arrays : Arrays) (k : nat) e :
  (k < df_len parameter_values)%nat ->
  (is_Some havesky -> "dec" ∈ fp) ->
  signal_step' network parameter_values fp wm wc udc havesky arrays k = Raise e ->
  exists key, e = KeyError key /\ (key = "geocent_time" \/ key ∈ fp).
Proof.
  intros Hk Hdec. destruct (iloc_total parameter_values k Hk) as [spv Hspv].
  unfold signal_step. rewrite Hspv. unfold rbind at 1.
  destruct (fold_result _ _ _) as [acc|e'] eqn:Eacc; unfold rbind at 1.
  - destruct havesky as [[i_ra i_dec]|]; [|done].
    unfold df_column_iloc, rbind, getitem. rewrite Hspv.
    destruct (decide ("dec" ∈ df_columns parameter_values)).
    + destruct (spv !! "dec"); [done|]. intros [= <-].
      exists "dec". split; [done|]. right. by apply Hdec.
    + intros [= <-]. exists "dec". split; [done|]. right. by apply Hdec.
  - intros [= <-].
    apply (fold_result_raises (fun _ => True)) in Eacc
      as (acc & d & _ & _ & Hd); [|done..].
    apply detector_step_raises in Hd.
    destruct (compute_detector_fisher_cases projection SNR scalar_product
                d spv fp wm wc udc)
      as [(_ & H)|[(_ & _ & r & H)|(_ & before & t & after & Hfp & _ & _ & _ & H)]];
      rewrite H in Hd; [|done|]; injection Hd as <-.
    + exists "geocent_time". by auto.
    + exists t. split; [done|]. right. rewrite Hfp. set_solver.
Qed.


(** The loop over the detectors, read backwards: every detector was
    evaluated and every [SNR^2] added. *)
Lemma detector_loop_inv thr spv fp wm (wc : WaveformClass Wave) udc
    (dets : list Detector) :
  forall (acc0 acc : Matrix * R),
    fold_result (step_of thr spv fp wm wc udc) dets acc0 = Ok acc ->
    exists l,
      map_result (detector_fisher spv fp wm wc udc) dets = Ok l /\
      acc.2 = acc0.2 + Rsum (map snd l).
Proof.
  induction dets as [|d dets IH]; intros acc0 acc; simpl.
  - intros [= <-]. exists []. split; [done|]. unfold Rsum; simpl. lra.
  - unfold rbind at 1, detector_step.
    destruct (compute_detector_fisher _ _ _ d _ _ _ _ _) as [r|] eqn:E; [|done].
    unfold rbind at 1. intros H.
    assert (exists F, fold_result (step_of thr spv fp wm wc udc) dets
                        (F, acc0.2 + r.2) = Ok acc) as [F HF].
    { destruct (decide _); by eexists. }
    destruct (IH _ _ HF) as (l & Hl & Hsum). exists (r :: l).
    unfold rbind. rewrite Hl. split; [done|]. rewrite Hsum. simpl.
    unfold Rsum. simpl. rewrite (fold_left_Rplus_0 _ (0 + r.2)).
    unfold Rsum. lra.
Qed.

Lemma map_result_elem {A B} (f : A -> result B) (xs : list A) (l : list B)
    (x : A) (y : B) :
  map_result f xs = Ok l -> x ∈ xs -> f x = Ok y -> y ∈ l.
Proof.
  revert l; induction xs as [|a xs IH]; intros l; simpl.
  - by intros _ ?%elem_of_nil.
  - unfold rbind. destruct (f a) as [b|] eqn:Ea; [|done].
    destruct (map_result f xs) as [l'|]; [|done]. intros [= <-].
    intros [->|Hx]%elem_of_cons Hy.
    + rewrite Ea in Hy. injection Hy as <-. by left.
    + right. by apply IH.
Qed.

Lemma map_result_Forall {A B} (P : B -> Prop) (f : A -> result B)
    (xs : list A) (l : list B) :
  (forall x y, f x = Ok y -> P y) ->
  map_result f xs = Ok l -> forall y, y ∈ l -> P y.
Proof.
  intros Hf. revert l; induction xs as [|a xs IH]; intros l; simpl.
  - intros [= <-] y ?%elem_of_nil. done.
  - unfold rbind. destruct (f a) as [b|] eqn:Ea; [|done].
    destruct (map_result f xs) as [l'|]; [|done]. intros [= <-].
    intros y [->|Hy]%elem_of_cons; [by eapply Hf|by eapply IH].
Qed.

Lemma Rsum_ge_elem (l : list R) (x : R) :
  (forall y, y ∈ l -> 0 <= y) -> x ∈ l -> x <= Rsum l.
Proof.
  induction l as [|a l IH]; intros Hl; [by intros ?%elem_of_nil|].
  assert (0 <= a) by (apply Hl; by left).
  assert (0 <= Rsum l) by (apply Rsum_nonneg; intros; apply Hl; by right).
  assert (Rsum (a :: l) = a + Rsum l) as ->.
  { unfold Rsum; simpl. rewrite fold_left_Rplus_0. unfold Rsum. lra. }
  intros [->|Hx]%elem_of_cons; [lra|].
  assert (x <= Rsum l) by (apply IH; [intros; apply Hl; by right|done]). lra.
Qed.

(** X16: the network SNR that a pass of the loop over the signals records
    is not negative and is at least the SNR of every single detector of
    the network for that signal. *)
Theorem network_snr_dominates_detectors (network : Network)
    (parameter_values : DataFrame) fp wm (wc : WaveformClass Wave) udc
    havesky (arrays arrays' : Arrays) (k : nat) :
  signal_step' network parameter_values fp wm wc udc havesky arrays k
  = Ok arrays' ->
  (k < length (network_snr arrays))%nat ->
  exists spv x,
    iloc parameter_values k = Ok spv /\
    network_snr arrays' !! k = Some x /\ 0 <= x /\
    forall d, d ∈ detectors network ->
      exists r,
        compute_detector_fisher projection SNR scalar_product d spv fp wm wc udc
        = Ok r /\ 0 <= r.2 /\ sqrt r.2 <= x.
Proof.
  intros Hstep Hk.
  apply signal_step_inv in Hstep as (spv & acc & Hspv & Hacc & Hsnr & _).
  apply detector_loop_inv in Hacc as (l & Hl & Hsum). simpl in Hsum.
  assert (forall r, r ∈ l -> 0 <= r.2) as Hpos.
  { apply (map_result_Forall _ _ _ _ (fun d r => compute_detector_fisher_snr
             d spv fp wm wc udc r) Hl). }
  assert (forall y, y ∈ map snd l -> 0 <= y) as Hpos'.
  { intros y (r & -> & Hr)%list_elem_of_fmap. by apply Hpos. }
  exists spv, (sqrt acc.2). split; [exact Hspv|].
  split; [rewrite Hsnr; by apply list_lookup_insert_eq|].
  split; [apply sqrt_pos|].
  intros d Hd.
  destruct (compute_detector_fisher projection SNR scalar_product d spv fp
              wm wc udc) as [r|e] eqn:Er.
  - exists r. split; [done|].
    pose proof (map_result_elem _ _ _ _ _ Hl Hd Er) as Hr.
    split; [by apply Hpos|]. apply sqrt_le_1_alt. rewrite Hsum, Rplus_0_l.
    apply Rsum_ge_elem; [exact Hpos'|]. apply list_elem_of_fmap. by exists r.
  - exfalso. clear -Hl Hd Er. revert l Hl.
    induction (detectors network) as [|a xs IH]; intros l; simpl.
    + by apply elem_of_nil in Hd.
    + unfold rbind.
      destruct (compute_detector_fisher _ _ _ a _ _ _ _ _) as [b|] eqn:Ea;
        [|done].
      destruct (map_result _ xs) as [l'|] eqn:El; [|done]. intros _.
      apply elem_of_cons in Hd as [->|Hd]; [congruence|]. by eapply IH.
Qed.

(** A loop over a range, with an invariant that depends on the position. *)
Lemma fold_result_range {B} (J : nat -> B -> Prop) (f : B -> nat -> result B)
    (n : nat) :
  (forall p b b', (p < n)%nat -> J p b -> f b p = Ok b' -> J (S p) b') ->
  forall b b', J 0%nat b -> fold_result f (seq 0 n) b = Ok b' -> J n b'.
Proof.
  intros Hf.
  assert (forall m a b b', (a + m = n)%nat -> J a b ->
            fold_result f (seq a m) b = Ok b' -> J n b') as Hgen.
  { induction m as [|m IH]; intros a b b' Ham Hb; simpl.
    - intros [= <-]. by replace n with a by lia.
    - unfold rbind. destruct (f b a) as [b1|] eqn:E; [|done].
      apply IH; [lia|]. eapply Hf; [lia|exact Hb|exact E]. }
  intros b b'. by apply Hgen.
Qed.

(** A later pass of the loop over the signals leaves the entries of an
    earlier signal alone. *)
Lemma signal_entry_kept (network : Network) (parameter_values : DataFrame)
    fp wm (wc : WaveformClass Wave) udc havesky (arrays arrays' : Arrays)
    (k p : nat) :
  k <> p ->
  signal_entry projection SNR scalar_product svd network parameter_values fp wm wc udc havesky arrays k ->
  signal_step' network parameter_values fp wm wc udc havesky arrays p
  = Ok arrays' ->
  signal_entry projection SNR scalar_product svd network parameter_values fp wm wc udc havesky arrays' k.
Proof.
  intros Hkp (spv & acc & Hspv & Hacc & Hsnr & Herr & Hsky) Hstep.
  apply signal_step_inv in Hstep
    as (spv' & acc' & _ & _ & Hsnr' & Herr' & Hsky').
  exists spv, acc. split; [exact Hspv|]. split; [exact Hacc|]. simpl.
  split; [by rewrite Hsnr', list_lookup_insert_ne|].
  split; [by rewrite Herr', list_lookup_insert_ne|].
  destruct havesky as [[i_ra i_dec]|].
  - destruct Hsky as (dec & sky & Hdec & Hs & Hk).
    destruct Hsky' as (dec' & _ & ->). rewrite Hs. simpl.
    exists dec. eexists. split; [exact Hdec|]. split; [done|].
    by rewrite list_lookup_insert_ne.
  - by rewrite Hsky'.
Qed.

(** The entries that a pass of the loop over the signals writes. *)
Lemma signal_entry_written (network : Network) (parameter_values : DataFrame)
    fp wm (wc : WaveformClass Wave) udc havesky (n : nat)
    (arrays arrays' : Arrays) (k : nat) :
  (k < n)%nat ->
  arrays_shape n (bool_decide (is_Some havesky)) arrays ->
  signal_step' network parameter_values fp wm wc udc havesky arrays k
  = Ok arrays' ->
  signal_entry projection SNR scalar_product svd network parameter_values fp wm wc udc havesky arrays' k.
Proof.
  intros Hk (H1 & H2 & H3) Hstep.
  apply signal_step_inv in Hstep
    as (spv & acc & Hspv & Hacc & Hsnr & Herr & Hsky).
  exists spv, acc. split; [exact Hspv|]. split; [exact Hacc|]. simpl.
  split; [rewrite Hsnr; apply list_lookup_insert_eq; lia|].
  split; [rewrite Herr; apply list_lookup_insert_eq; lia|].
  destruct havesky as [[i_ra i_dec]|].
  - destruct Hsky as (dec & Hdec & ->).
    destruct (sky_localization arrays) as [sky|];
      [|apply bool_decide_eq_false in H3; destruct H3; by eexists].
    destruct H3 as (_ & H3). simpl. exists dec. eexists.
    split; [exact Hdec|]. split; [done|]. apply list_lookup_insert_eq. lia.
  - rewrite Hsky. destruct (sky_localization arrays) as [sky|]; [|done].
    destruct H3 as (H3 & _). apply bool_decide_eq_true in H3. by destruct H3.
Qed.

Lemma initial_arrays_shape (n n_params : nat) havesky :
  arrays_shape n (bool_decide (is_Some havesky))
    (initial_arrays n n_params havesky).
Proof.
  unfold arrays_shape, initial_arrays; simpl. rewrite !length_replicate.
  destruct havesky; simpl; rewrite ?length_replicate; done.
Qed.

(** When the loop over the signals has run, position [k] of each array
    holds what was computed from row [k] of the table, for every signal:
    no pass overwrites the entries of another signal. *)
Lemma signal_loop_entries (network : Network)
    (parameter_values : DataFrame) fp wm (wc : WaveformClass Wave) udc
    havesky (arrays : Arrays) :
  let n_signals := df_len parameter_values in
  fold_result (signal_step' network parameter_values fp wm wc udc havesky)
    (seq 0 n_signals) (initial_arrays n_signals (length fp) havesky)
  = Ok arrays ->
  forall k, (k < n_signals)%nat ->
    signal_entry projection SNR scalar_product svd network parameter_values fp wm wc udc havesky arrays k.
Proof.
  intros n Hloop.
  apply (fold_result_range
           (fun p a => arrays_shape n (bool_decide (is_Some havesky)) a /\
              forall k, (k < p)%nat ->
                signal_entry projection SNR scalar_product svd network parameter_values fp wm wc udc havesky a k))
    in Hloop; [by destruct Hloop| |].
  - intros p a a' Hp (Hshape & Hdone) Hstep. split.
    + by eapply signal_step_shape.
    + intros k Hk. destruct (decide (k = p)) as [->|Hne].
      * eapply signal_entry_written; [exact Hp|exact Hshape|exact Hstep].
      * eapply signal_entry_kept; [exact Hne| |exact Hstep]. apply Hdone. lia.
  - split; [apply initial_arrays_shape|]. intros k Hk. lia.
Qed.


Lemma take_indices_inv {A} (xs : list A) (idx : list nat) (ys : list A) :
  take_indices xs idx = Ok ys ->
  Forall2 (fun k y => xs !! k = Some y) idx ys.
Proof.
  unfold take_indices. revert ys; induction idx as [|k idx IH]; intros ys; simpl.
  - intros [= <-]. constructor.
  - unfold rbind, list_index. destruct (xs !! k) as [y|] eqn:Ey; [|done].
    destruct (map_result _ idx) as [ys'|]; [|done]. intros [= <-].
    constructor; [done|]. by apply IH.
Qed.

Lemma length_where_gt (xs : list R) (thr : R) (i : nat) :
  (length (where_gt i xs thr) <= length xs)%nat.
Proof.
  revert i; induction xs as [|x xs IH]; intros i; simpl; [lia|].
  destruct (decide (x > thr)); simpl; specialize (IH (S i)); lia.
Qed.

(** [compute_network_errors] once its assertions have passed: the loop
    over the signals, then the selection, which cannot fail. *)
Lemma compute_network_errors_loop (network : Network)
    (parameter_values : DataFrame) fp wm (wc : WaveformClass Wave) udc havesky :
  (0 < length fp)%nat -> (0 < df_len parameter_values)%nat ->
  signals_havesky fp = Ok havesky ->
  let n_signals := df_len parameter_values in
  let result :=
    compute_network_errors projection SNR scalar_product svd network
      parameter_values fp wm wc udc in
  match fold_result (signal_step' network parameter_values fp wm wc udc havesky)
          (seq 0 n_signals) (initial_arrays n_signals (length fp) havesky) with
  | Ok arrays =>
      let detected :=
        where_gt 0 (network_snr arrays) (detection_SNR network).2 in
      exists snr_out err_out sky_out,
        result = Ok (snr_out, err_out, sky_out) /\
        arrays_shape n_signals (bool_decide (is_Some havesky)) arrays /\
        take_indices (network_snr arrays) detected = Ok snr_out /\
        take_indices (parameter_errors arrays) detected = Ok err_out /\
        match sky_localization arrays with
        | Some sky =>
            exists out, take_indices sky detected = Ok out /\ sky_out = Some out
        | None => sky_out = None
        end
  | Raise e => result = Raise e
  end.
Proof.
  intros Hp Hs Hsky n result. unfold result, compute_network_errors. fold n.
  rewrite decide_True, decide_True by done. rewrite Hsky. cbn [rbind].
  destruct (fold_result _ _ _) as [arrays|e] eqn:Hloop; [|done].
  cbn [rbind].
  set (detected := where_gt 0 (network_snr arrays) (detection_SNR network).2).
  assert (arrays_shape n (bool_decide (is_Some havesky)) arrays) as Hshape.
  { eapply fold_result_inv; [|apply initial_arrays_shape|exact Hloop].
    intros b k b'. apply signal_step_shape. }
  pose proof Hshape as (Hl1 & Hl2 & Hl3).
  assert (forall k, k ∈ detected -> (k < n)%nat) as Hrange.
  { intros k (_ & x & Hx & _)%where_gt_spec. apply lookup_lt_Some in Hx. lia. }
  destruct (take_indices_spec svd (network_snr arrays) detected)
    as (snr_out & Hsnr & _); [intros; rewrite Hl1; auto|].
  destruct (take_indices_spec svd (parameter_errors arrays) detected)
    as (err_out & Herr & _); [intros; rewrite Hl2; auto|].
  rewrite Hsnr, Herr. cbn [rbind].
  destruct (sky_localization arrays) as [sky|] eqn:Es.
  - destruct Hl3 as (_ & Hl3).
    destruct (take_indices_spec svd sky detected)
      as (out & Hout & _); [intros; rewrite Hl3; auto|].
    rewrite Hout. cbn [rbind]. exists snr_out, err_out, (Some out).
    do 4 (split; [done|]). by exists out.
  - by exists snr_out, err_out, None.
Qed.

(** X17: [compute_network_errors] raises [AssertionError] exactly when
    there is no Fisher parameter or no signal.  With a waveform, a
    projection, an SNR, an inner product and a decomposition that return,
    anything else it raises is the [KeyError] of ["geocent_time"] or of a
    Fisher parameter: reading the rows, looking up ["ra"] and ["dec"] and
    selecting the detected signals never fail.  The values of a row of the
    table are floats of NumPy, for which a division by zero does not
    raise. *)
Theorem compute_network_errors_raises_only (network : Network)
    (parameter_values : DataFrame) fp wm (wc : WaveformClass Wave) udc :
  let result :=
    compute_network_errors projection SNR scalar_product svd network
      parameter_values fp wm wc udc in
  (result = Raise AssertionError <-> fp = [] \/ df_rows parameter_values = []) /\
  (forall e, result = Raise e ->
     e = AssertionError \/
     exists key, e = KeyError key /\ (key = "geocent_time" \/ key ∈ fp)).
Proof.
  intros result.
  destruct (decide (0 < length fp)%nat) as [Hp|Hp];
    [destruct (decide (0 < df_len parameter_values)%nat) as [Hs|Hs]|].
  - (* the assertions pass *)
    assert (forall e, result = Raise e ->
              exists key, e = KeyError key /\ (key = "geocent_time" \/ key ∈ fp))
      as Hkey.
    { destruct (signals_havesky_spec fp) as (havesky & Hsky & Hiff).
      pose proof (compute_network_errors_loop network parameter_values fp wm wc
                    udc havesky Hp Hs Hsky) as H.
      simpl in H. fold result in H.
      destruct (fold_result _ _ _) as [arrays|e'] eqn:Hloop.
      - destruct H as (a & b & c & -> & _). done.
      - rewrite H. intros e [= <-].
        apply (fold_result_raises (fun _ => True)) in Hloop
          as (arrays & k & Hk%elem_of_seq & _ & Hstep); [|done..].
        eapply signal_step_raises; [|
          |exact Hstep]; [lia|]. intros Hsome. by apply Hiff. }
    split; [|intros e He; right; by apply Hkey].
    split.
    + intros (key & [=] & _)%Hkey.
    + unfold df_len in Hs. intros [->|Hrows]; [simpl in Hp; lia|].
      rewrite Hrows in Hs. simpl in Hs. lia.
  - assert (result = Raise AssertionError) as ->.
    { unfold result, compute_network_errors.
      by rewrite decide_True, decide_False by done. }
    split; [|intros e [= <-]; by left]. split; [|done]. intros _. right.
    unfold df_len in Hs. destruct (df_rows parameter_values); [done|].
    simpl in Hs. lia.
  - assert (result = Raise AssertionError) as ->.
    { unfold result, compute_network_errors. by rewrite decide_False by done. }
    split; [|intros e [= <-]; by left]. split; [|done]. intros _. left.
    destruct fp; [done|]. simpl in Hp. lia.
Qed.

(** X18: what [compute_network_errors] returns has one entry per detected
    signal in each array, at most one per row of the table; every row of
    errors has one entry per Fisher parameter, every returned SNR is
    strictly above the second threshold, and the sky areas are there
    exactly when ["ra"] and ["dec"] are both Fisher parameters. *)
Theorem compute_network_errors_output_shape (network : Network)
    (parameter_values : DataFrame) fp wm (wc : WaveformClass Wave) udc
    (snr_out : list R) (err_out : list (list R)) (sky_out : option (list R)) :
  compute_network_errors projection SNR scalar_product svd network
    parameter_values fp wm wc udc = Ok (snr_out, err_out, sky_out) ->
  (length snr_out <= df_len parameter_values)%nat /\
  length err_out = length snr_out /\
  Forall (fun row => length row = length fp) err_out /\
  Forall (fun x => x > (detection_SNR network).2) snr_out /\
  match sky_out with
  | Some out => length out = length snr_out /\ "ra" ∈ fp /\ "dec" ∈ fp
  | None => ~ ("ra" ∈ fp /\ "dec" ∈ fp)
  end.
Proof.
  intros Hres.
  destruct (decide (0 < length fp)%nat) as [Hp|Hp];
    [destruct (decide (0 < df_len parameter_values)%nat) as [Hs|Hs]|];
    [|unfold compute_network_errors in Hres;
      by rewrite ?decide_True, decide_False in Hres by done..].
  destruct (signals_havesky_spec fp) as (havesky & Hsky & Hiff).
  pose proof (compute_network_errors_loop network parameter_values fp wm wc
                udc havesky Hp Hs Hsky) as H.
  simpl in H. rewrite Hres in H.
  destruct (fold_result _ _ _) as [arrays|e'] eqn:Hloop; [|done].
  destruct H as (a & b & c & [= <- <- <-] & (Hl1 & Hl2 & Hl3) & Ha & Hb & Hc).
  apply take_indices_inv in Ha, Hb.
  pose proof (Forall2_length _ _ _ Ha) as Hla.
  pose proof (Forall2_length _ _ _ Hb) as Hlb.
  pose proof (length_where_gt (network_snr arrays) (detection_SNR network).2 0)
    as Hle.
  assert (Forall (fun row => length row = length fp) (parameter_errors arrays))
    as Hrows.
  { eapply (fold_result_inv
              (fun a => Forall (fun row => length row = length fp)
                          (parameter_errors a))); [| |exact Hloop].
    - intros a0 k a1 Ha0 (_ & acc & _ & _ & _ & -> & _)%signal_step_inv.
      apply Forall_insert; [done|]. by rewrite length_map, length_seq.
    - simpl. apply Forall_replicate. by rewrite length_replicate. }
  split; [lia|]. split; [lia|]. split; [|split].
  - apply Forall_forall. intros row Hrow.
    apply list_elem_of_lookup in Hrow as [i Hi].
    destruct (Forall2_lookup_r _ _ _ _ _ Hb Hi) as (k & _ & Hk).
    by eapply (Forall_lookup_1 _ _ _ _ Hrows).
  - apply Forall_forall. intros x Hx.
    apply list_elem_of_lookup in Hx as [i Hi].
    destruct (Forall2_lookup_r _ _ _ _ _ Ha Hi) as (k & Hk & Hxk).
    apply list_elem_of_lookup_2, where_gt_spec in Hk as (_ & y & Hy & Hgt).
    rewrite Nat.sub_0_r in Hy. by simplify_eq.
  - destruct (sky_localization arrays) as [sky|].
    + destruct Hc as (out & Hout & ->). destruct Hl3 as (Hsome & _).
      apply take_indices_inv, Forall2_length in Hout.
      split; [lia|]. apply Hiff. by apply bool_decide_eq_true in Hsome.
    + subst sky_out. apply bool_decide_eq_false in Hl3. by rewrite <- Hiff.
Qed.

Lemma signal_entry_values (network : Network) (parameter_values : DataFrame)
    fp wm (wc : WaveformClass Wave) udc havesky (arrays : Arrays) (k : nat) :
  signal_entry projection SNR scalar_product svd network parameter_values fp
    wm wc udc havesky arrays k ->
  exists x row area,
    signal_values projection SNR scalar_product svd network parameter_values fp wm wc udc havesky k x row area /\
    network_snr arrays !! k = Some x /\
    parameter_errors arrays !! k = Some row /\
    match sky_localization arrays with
    | Some sky => sky !! k
    | None => None
    end = area.
Proof.
  intros (spv & acc & Hspv & Hacc & Hsnr & Herr & Hsky).
  destruct havesky as [[i_ra i_dec]|].
  - destruct Hsky as (dec & sky & Hdec & Hs & Hk).
    eexists _, _, _. split.
    + exists spv, acc. do 4 (split; [done|]). by exists dec.
    + rewrite Hs. by repeat split.
  - eexists _, _, _. split.
    + exists spv, acc. by do 4 (split; [done|]).
    + rewrite Hsky. by repeat split.
Qed.

(** X19: [compute_network_errors], end to end.  The entries it returns
    belong to an increasing list of rows of the table.  Entry [j] of each
    output holds the values of the [j]-th of these rows, computed from
    that row alone, with a network SNR strictly above the second
    threshold; and every row left out has a network SNR that is not above
    it. *)
Theorem compute_network_errors_returns_own_rows (network : Network)
    (parameter_values : DataFrame) fp wm (wc : WaveformClass Wave) udc
    (snr_out : list R) (err_out : list (list R)) (sky_out : option (list R)) :
  compute_network_errors projection SNR scalar_product svd network
    parameter_values fp wm wc udc = Ok (snr_out, err_out, sky_out) ->
  let n_signals := df_len parameter_values in
  let network_snr_thr := (detection_SNR network).2 in
  exists havesky detected,
    signals_havesky fp = Ok havesky /\
    StronglySorted lt detected /\
    length snr_out = length detected /\
    (forall j k, detected !! j = Some k ->
       (k < n_signals)%nat /\
       exists x row area,
         snr_out !! j = Some x /\ err_out !! j = Some row /\
         match sky_out with
         | Some out => out !! j
         | None => None
         end = area /\
         x > network_snr_thr /\
         signal_values projection SNR scalar_product svd network parameter_values fp wm wc udc havesky k
           x row area) /\
    (forall k, (k < n_signals)%nat -> k ∉ detected ->
       exists x row area,
         ~ x > network_snr_thr /\
         signal_values projection SNR scalar_product svd network parameter_values fp wm wc udc havesky k
           x row area).
Proof.
  intros Hres n thr.
  destruct (decide (0 < length fp)%nat) as [Hp|Hp];
    [destruct (decide (0 < df_len parameter_values)%nat) as [Hs|Hs]|];
    [|unfold compute_network_errors in Hres;
      by rewrite ?decide_True, decide_False in Hres by done..].
  destruct (signals_havesky_spec fp) as (havesky & Hsky & Hiff).
  pose proof (compute_network_errors_loop
                network parameter_values fp wm wc udc havesky Hp Hs Hsky) as H.
  simpl in H. rewrite Hres in H. fold n in H.
  destruct (fold_result _ _ _) as [arrays|e'] eqn:Hloop; [|done].
  destruct H as (a & b & c & [= <- <- <-] & (Hl1 & Hl2 & Hl3) & Ha & Hb & Hc).
  fold thr in Ha, Hb, Hc.
  set (detected := where_gt 0 (network_snr arrays) thr) in *.
  pose proof (signal_loop_entries network
                parameter_values fp wm wc udc havesky arrays Hloop) as Hentries.
  apply take_indices_inv in Ha, Hb.
  exists havesky, detected. split; [exact Hsky|].
  split; [apply where_gt_sorted|].
  split; [symmetry; by eapply Forall2_length|]. split.
  - intros j k Hjk.
    assert (k ∈ detected) as Hin by (by eapply list_elem_of_lookup_2).
    apply where_gt_spec in Hin as (_ & x' & Hx' & Hgt).
    rewrite Nat.sub_0_r in Hx'.
    assert (k < n)%nat as Hk by (apply lookup_lt_Some in Hx'; lia).
    split; [exact Hk|].
    destruct (signal_entry_values _ _ _ _ _ _ _ _ _ (Hentries k Hk))
      as (x & row & area & Hv & Hx & Hrow & Harea).
    rewrite Hx in Hx'. injection Hx' as <-.
    destruct (Forall2_lookup_l _ _ _ _ _ Ha Hjk) as (x0 & Hj & Hx0).
    destruct (Forall2_lookup_l _ _ _ _ _ Hb Hjk) as (row0 & Hjr & Hrow0).
    rewrite Hx in Hx0. injection Hx0 as <-.
    rewrite Hrow in Hrow0. injection Hrow0 as <-.
    exists x, row, area. do 2 (split; [done|]). split; [|by split].
    destruct (sky_localization arrays) as [sky|].
    + destruct Hc as (out & Hout & ->). apply take_indices_inv in Hout.
      destruct (Forall2_lookup_l _ _ _ _ _ Hout Hjk) as (y & -> & Hy).
      by rewrite <- Hy.
    + by rewrite Hc.
  - intros k Hk Hnot.
    destruct (signal_entry_values _ _ _ _ _ _ _ _ _ (Hentries k Hk))
      as (x & row & area & Hv & Hx & Hrow & Harea).
    exists x, row, area. split; [|exact Hv]. intros Hgt. apply Hnot.
    apply where_gt_spec. split; [lia|]. exists x. by rewrite Nat.sub_0_r.
Qed.

(** The accumulated pair of a signal whose detectors could all be
    evaluated: the sum of all the [SNR^2] and the sum of the matrices of
    the detectors above the first threshold. *)
Lemma detector_loop_result thr spv fp wm (wc : WaveformClass Wave) udc
    (dets : list Detector) (acc : Matrix * R) :
  fold_result (step_of thr spv fp wm wc udc) dets (zeros, 0) = Ok acc ->
  exists l,
    map_result (detector_fisher spv fp wm wc udc) dets = Ok l /\
    acc.2 = Rsum (map snd l) /\
    forall i j,
      acc.1 i j = Rsum (map (fun r : Matrix * R => r.1 i j)
                          (filter (fun r : Matrix * R => sqrt r.2 > thr) l)).
Proof.
  intros Hacc.
  destruct (detector_loop_inv thr spv fp wm wc udc dets _ _ Hacc)
    as (l & Hl & _).
  destruct (detector_loop projection SNR scalar_product thr spv fp wm wc udc
              dets l zeros 0 Hl) as (F & HF & HFij).
  rewrite Hacc in HF. injection HF as ->. exists l. split; [exact Hl|].
  split; [done|]. intros i j. simpl. by rewrite HFij.
Qed.

(** C1: in [compute_network_errors] every signal of the table has every
    detector of the network evaluated, with results [l] in the order of
    the detectors.  The network SNR of the signal is the square root of
    the sum of the [SNR^2] of all of [l]: it decides, against the second
    threshold, whether the signal is returned, and it is the SNR returned
    for it.  The matrix [F] that is inverted for the errors returned for
    the signal is the sum of the matrices of those detectors only whose
    own SNR, the square root of their [SNR^2], is strictly above the first
    threshold. *)
Theorem network_snr_sums_all_detectors (network : Network)
    (parameter_values : DataFrame) fp wm (wc : WaveformClass Wave) udc
    (snr_out : list R) (err_out : list (list R)) (sky_out : option (list R)) :
  compute_network_errors projection SNR scalar_product svd network
    parameter_values fp wm wc udc = Ok (snr_out, err_out, sky_out) ->
  let detector_snr_thr := (detection_SNR network).1 in
  let network_snr_thr := (detection_SNR network).2 in
  exists detected : list nat,
    StronglySorted lt detected /\
    length snr_out = length detected /\
    length err_out = length detected /\
    forall k, (k < df_len parameter_values)%nat ->
      exists spv l F,
        iloc parameter_values k = Ok spv /\
        map_result (detector_fisher spv fp wm wc udc) (detectors network)
        = Ok l /\
        (forall i j,
           F i j = Rsum (map (fun r : Matrix * R => r.1 i j)
                           (filter (fun r : Matrix * R =>
                                      sqrt r.2 > detector_snr_thr) l))) /\
        let network_snr := sqrt (Rsum (map snd l)) in
        (k ∈ detected <-> network_snr > network_snr_thr) /\
        forall j, detected !! j = Some k ->
          snr_out !! j = Some network_snr /\
          err_out !! j
          = Some (map (fun i => sqrt ((invertSVD svd (length fp) F).1 i i))
                    (seq 0 (length fp))).
Proof.
  intros Hres thr1 thr2.
  destruct (decide (0 < length fp)%nat) as [Hp|Hp];
    [destruct (decide (0 < df_len parameter_values)%nat) as [Hs|Hs]|];
    [|unfold compute_network_errors in Hres;
      by rewrite ?decide_True, decide_False in Hres by done..].
  destruct (signals_havesky_spec fp) as (havesky & Hsky & Hiff).
  pose proof (compute_network_errors_loop network parameter_values fp wm wc
                udc havesky Hp Hs Hsky) as H.
  simpl in H. rewrite Hres in H.
  destruct (fold_result _ _ _) as [arrays|e'] eqn:Hloop; [|done].
  destruct H as (a & b & c & [= <- <- <-] & (Hl1 & Hl2 & Hl3) & Ha & Hb & Hc).
  fold thr2 in Ha, Hb, Hc.
  set (detected := where_gt 0 (network_snr arrays) thr2) in *.
  pose proof (signal_loop_entries network parameter_values fp wm wc udc
                havesky arrays Hloop) as Hentries.
  apply take_indices_inv in Ha, Hb.
  exists detected. split; [apply where_gt_sorted|].
  split; [symmetry; by eapply Forall2_length|].
  split; [symmetry; by eapply Forall2_length|].
  intros k Hk.
  destruct (Hentries k Hk) as (spv & acc & Hspv & Hacc & Hsnr & Herr & _).
  destruct (detector_loop_result _ _ _ _ _ _ _ _ Hacc) as (l & Hl & Hsum & HF).
  exists spv, l, acc.1. split; [exact Hspv|]. split; [exact Hl|].
  split; [exact HF|]. rewrite <- Hsum. split.
  - unfold detected. rewrite where_gt_spec, Nat.sub_0_r. split.
    + intros (_ & x & Hx & Hgt). rewrite Hsnr in Hx. by injection Hx as <-.
    + intros Hgt. split; [lia|]. by exists (sqrt acc.2).
  - intros j Hj.
    destruct (Forall2_lookup_l _ _ _ _ _ Ha Hj) as (x & Hjx & Hx).
    destruct (Forall2_lookup_l _ _ _ _ _ Hb Hj) as (row & Hjr & Hrow).
    rewrite Hsnr in Hx. injection Hx as <-.
    rewrite Herr in Hrow. injection Hrow as <-. by split.
Qed.


End NetworkBehaviour.


(** ** Behaviour of the reporting *)

Section ReportingBehaviour.

Context {Wave : Type}.
Variable projection : Params -> Detector -> Wave -> list R -> list C.
Variable SNR : Detector -> list C -> bool -> list R.
Variable scalar_product : list C -> list C -> Detector -> list R.
Variable svd : nat -> Matrix -> Matrix * list R * Matrix.
Variable str_of_float : R -> string.
Variable partial : Network -> list Z -> result Network.

(** An index of a Python list is good from [-len] up to [len - 1]. *)
Lemma py_getitem_cases {A} (xs : list A) (k : Z) :
  let n := Z.of_nat (length xs) in
  ((- n <= k < n)%Z /\ exists x, py_getitem xs k = Ok x) \/
  (~ (- n <= k < n)%Z /\ py_getitem xs k = Raise IndexError).
Proof.
  intros n. unfold py_getitem, list_index. fold n.
  destruct (decide (0 <= k < n)%Z) as [Hk|Hk].
  - left. split; [lia|].
    destruct (lookup_lt_is_Some_2 xs (Z.to_nat k)) as [x ->]; [lia|].
    by exists x.
  - destruct (decide (- n <= k < 0)%Z) as [Hk'|Hk'].
    + left. split; [lia|].
      destruct (lookup_lt_is_Some_2 xs (Z.to_nat (n + k))) as [x ->]; [lia|].
      by exists x.
    + right. split; [lia|done].
Qed.

Lemma py_getitem_negative {A} (xs : list A) (k : Z) :
  let n := Z.of_nat (length xs) in
  (0 <= k < n)%Z -> py_getitem xs (k - n) = py_getitem xs k.
Proof.
  intros n Hk. unfold py_getitem. fold n.
  rewrite (decide_False (P := (0 <= k - n < n)%Z)) by lia.
  rewrite (decide_True (P := (- n <= k - n < 0)%Z)) by lia.
  rewrite (decide_True (P := (0 <= k < n)%Z)) by lia.
  by replace (n + (k - n))%Z with k by lia.
Qed.

(** X20: [errors_file_name] returns a name exactly when every identifier
    is an index of the list of detectors, from minus its length up to its
    length minus one; otherwise it raises [IndexError] and nothing
    else. *)
Theorem errors_file_name_returns_iff (network : Network)
    (sub_network_ids : list Z) (population_name : string) :
  let n := Z.of_nat (length (detectors network)) in
  let result :=
    errors_file_name str_of_float network sub_network_ids population_name in
  ((exists filename, result = Ok filename) <->
   forall k, k ∈ sub_network_ids -> (- n <= k < n)%Z) /\
  (forall e, result = Raise e -> e = IndexError).
Proof.
  intros n result. unfold result, errors_file_name.
  assert (match map_result
                  (fun k => rbind (py_getitem (detectors network) k)
                              (fun d => Ok (name d)))
                  sub_network_ids with
          | Ok _ => forall k, k ∈ sub_network_ids -> (- n <= k < n)%Z
          | Raise e => e = IndexError /\
                       ~ forall k, k ∈ sub_network_ids -> (- n <= k < n)%Z
          end) as H.
  { induction sub_network_ids as [|k ids IH]; simpl.
    - by intros k ?%elem_of_nil.
    - destruct (py_getitem_cases (detectors network) k)
        as [(Hk & d & ->)|(Hk & ->)]; cbn [rbind].
      + destruct (map_result _ ids) as [names|e]; cbn [rbind].
        * intros k' [->|Hk']%elem_of_cons; [done|by apply IH].
        * destruct IH as (-> & IH). split; [done|]. intros Hall. apply IH.
          intros k' Hk'. apply Hall. by right.
      + split; [done|]. intros Hall. apply Hk, Hall. by left. }
  destruct (map_result _ sub_network_ids) as [names|e]; cbn [rbind].
  - split; [|done]. split; [done|]. intros _. by eexists.
  - destruct H as (-> & H). split; [|by intros e [= <-]].
    split; [by intros [? ?]|done].
Qed.

(** X21: a negative identifier counts from the end of the list of
    detectors: identifiers lowered by the number of detectors give the
    same file name. *)
Theorem errors_file_name_negative_ids (network : Network)
    (sub_network_ids : list Z) (population_name : string) :
  let n := Z.of_nat (length (detectors network)) in
  (forall k, k ∈ sub_network_ids -> (0 <= k < n)%Z) ->
  errors_file_name str_of_float network
    (map (fun k => (k - n)%Z) sub_network_ids) population_name
  = errors_file_name str_of_float network sub_network_ids population_name.
Proof.
  intros n Hall. unfold n in *. clear n. unfold errors_file_name. f_equal.
  induction sub_network_ids as [|k ids IH]; simpl; [done|].
  rewrite (py_getitem_negative (detectors network) k) by (apply Hall; by left).
  rewrite IH; [done|]. intros k' Hk'. apply Hall. by right.
Qed.

Lemma c_cases (a b : list (list R)) :
  (length a = length b /\ c_ a b = Ok (zip_with app a b)) \/
  (length a <> length b /\ c_ a b = Raise ValueError).
Proof.
  unfold c_. destruct (decide (length a = length b)); [by left|by right].
Qed.

(** X22: [output_to_txt_file] returns exactly when the three arrays have
    one entry per row of the table, and raises [ValueError] otherwise and
    nothing else; the file has one line per row, made of the SNR, the
    parameter values of the row, the errors and, when there is one, the
    sky area. *)
Theorem output_to_txt_file_returns_iff (parameter_values : DataFrame)
    (network_snr_out : list R) (parameter_errors_out : list (list R))
    (sky_localization_out : option (list R)) (fp : list string)
    (filename : string) :
  let n := df_len parameter_values in
  let result :=
    output_to_txt_file parameter_values network_snr_out parameter_errors_out
      sky_localization_out fp filename in
  ((exists f, result = Ok f) <->
   length network_snr_out = n /\ length parameter_errors_out = n /\
   forall sky, sky_localization_out = Some sky -> length sky = n) /\
  (forall e, result = Raise e -> e = ValueError) /\
  (forall f, result = Ok f ->
     length (txt_data f) = n /\
     forall k line, txt_data f !! k = Some line ->
       exists x row err,
         network_snr_out !! k = Some x /\
         df_rows parameter_values !! k = Some row /\
         parameter_errors_out !! k = Some err /\
         match sky_localization_out with
         | Some sky =>
             exists a, sky !! k = Some a /\
                       line = (x :: row ++ err ++ [a])%list
         | None => line = (x :: row ++ err)%list
         end).
Proof.
  intros n result. unfold result, output_to_txt_file, n, df_len.
  set (a0 := map (fun x => [x]) network_snr_out).
  assert (length a0 = length network_snr_out) as Ha0 by apply length_map.
  destruct (c_cases a0 (df_rows parameter_values)) as [(H1 & ->)|(H1 & ->)];
    cbn [rbind];
    [|split; [split; [by intros [? ?]|lia]|split; [by intros e [= <-]|done]]].
  set (d0 := zip_with app a0 (df_rows parameter_values)).
  assert (length d0 = length (df_rows parameter_values)) as Hd0.
  { unfold d0. rewrite length_zip_with. lia. }
  destruct (c_cases d0 parameter_errors_out) as [(H2 & ->)|(H2 & ->)];
    cbn [rbind];
    [|split; [split; [by intros [? ?]|lia]|split; [by intros e [= <-]|done]]].
  set (d1 := zip_with app d0 parameter_errors_out).
  assert (length d1 = length (df_rows parameter_values)) as Hd1.
  { unfold d1. rewrite length_zip_with. lia. }
  assert (forall k line, d1 !! k = Some line ->
            exists x row err,
              network_snr_out !! k = Some x /\
              df_rows parameter_values !! k = Some row /\
              parameter_errors_out !! k = Some err /\
              line = (x :: row ++ err)%list) as Hlines.
  { intros k line Hk. unfold d1, d0, a0 in Hk.
    apply lookup_zip_with_Some in Hk as (l0 & err & -> & Hl0 & Herr).
    apply lookup_zip_with_Some in Hl0 as (lx & row & -> & Hlx & Hrow).
    apply list_lookup_fmap_Some in Hlx as (x & -> & Hx).
    exists x, row, err. by rewrite <- app_assoc. }
  destruct sky_localization_out as [sky|].
  - set (s := map (fun x => [x]) sky).
    assert (length s = length sky) as Hs by apply length_map.
    destruct (c_cases d1 s) as [(H3 & ->)|(H3 & ->)]; cbn [rbind].
    + split; [split; [intros _|by eexists]|split; [done|]].
      * split; [lia|]. split; [lia|]. intros ? [= <-]. lia.
      * intros f [= <-]. simpl. split; [rewrite length_zip_with; lia|].
        intros k line Hk.
        apply lookup_zip_with_Some in Hk as (l1 & la & -> & Hl1 & Hla).
        unfold s in Hla. apply list_lookup_fmap_Some in Hla as (a & -> & Ha).
        destruct (Hlines k l1 Hl1) as (x & row & err & Hx & Hrow & Herr & ->).
        exists x, row, err. do 3 (split; [done|]). exists a. split; [done|].
        simpl. by rewrite <- app_assoc.
    + split; [split; [by intros [? ?]|]|split; [by intros e [= <-]|done]].
      intros (_ & _ & Hsky). specialize (Hsky sky eq_refl). lia.
  - split; [split; [intros _|by eexists]|split; [done|]].
    + split; [lia|]. split; [lia|]. done.
    + intros f [= <-]. simpl. split; [done|]. intros k line Hk.
      destruct (Hlines k line Hk) as (x & row & err & Hx & Hrow & Herr & ->).
      by exists x, row, err.
Qed.


(** What [compute_network_errors] returns fits together: one entry per
    detected signal in each array. *)
Lemma compute_network_errors_lengths (network : Network)
    (parameter_values : DataFrame) fp wm (wc : WaveformClass Wave) udc
    snr_out err_out sky_out :
  compute_network_errors projection SNR scalar_product svd network
    parameter_values fp wm wc udc = Ok (snr_out, err_out, sky_out) ->
  (0 < df_len parameter_values)%nat /\
  (length snr_out <= df_len parameter_values)%nat /\
  length err_out = length snr_out /\
  forall sky, sky_out = Some sky -> length sky = length snr_out.
Proof.
  intros Hres.
  destruct (decide (0 < length fp)%nat) as [Hp|Hp];
    [destruct (decide (0 < df_len parameter_values)%nat) as [Hs|Hs]|];
    [|unfold compute_network_errors in Hres;
      by rewrite ?decide_True, decide_False in Hres by done..].
  destruct (signals_havesky_spec fp) as (havesky & Hsky & Hiff).
  pose proof (compute_network_errors_loop projection SNR scalar_product svd
                network parameter_values fp wm wc udc havesky Hp Hs Hsky) as H.
  simpl in H. rewrite Hres in H.
  destruct (fold_result _ _ _) as [arrays|e'] eqn:Hloop; [|done].
  destruct H as (a & b & c & [= <- <- <-] & (Hl1 & Hl2 & Hl3) & Ha & Hb & Hc).
  apply take_indices_inv, Forall2_length in Ha, Hb.
  pose proof (length_where_gt (network_snr arrays) (detection_SNR network).2 0)
    as Hle.
  split; [done|]. split; [lia|]. split; [lia|].
  intros sky ->. destruct (sky_localization arrays) as [sky0|]; [|done].
  destruct Hc as (out & Hout & [= <-]).
  apply take_indices_inv, Forall2_length in Hout. lia.
Qed.

(** X23: [analyze_and_save_to_txt] puts the parameter values of all the
    signals next to the errors of the detected ones.  So a pass whose
    sub-network and file name are fine writes its file when every signal
    of the table is detected, with one line per signal, and raises
    [ValueError] as soon as one signal is not. *)
Theorem analyze_one_needs_every_signal_detected (network : Network)
    (parameter_values : DataFrame) fp pop wm (wc : WaveformClass Wave) udc
    (ids : list Z) partial_network filename snr_out err_out sky_out :
  partial network ids = Ok partial_network ->
  errors_file_name str_of_float network ids pop = Ok filename ->
  compute_network_errors projection SNR scalar_product svd network
    parameter_values fp wm wc udc = Ok (snr_out, err_out, sky_out) ->
  let result :=
    analyze_one projection SNR scalar_product svd str_of_float partial
      network parameter_values fp pop wm wc udc ids in
  (length snr_out = df_len parameter_values ->
   exists f, result = Ok f /\ txt_name f = filename +:+ ".txt" /\
             length (txt_data f) = df_len parameter_values) /\
  (length snr_out <> df_len parameter_values -> result = Raise ValueError).
Proof.
  intros Hpart Hname Hres result.
  pose proof (compute_network_errors_lengths _ _ _ _ _ _ _ _ _ Hres)
    as (_ & _ & Herr & Hsky).
  unfold result, analyze_one. rewrite Hpart, Hres, Hname. cbn [rbind].
  simpl fst. simpl snd.
  unfold output_to_txt_file, df_len.
  set (a0 := map (fun x => [x]) snr_out).
  assert (length a0 = length snr_out) as Ha0 by apply length_map.
  unfold df_len in *.
  destruct (c_cases a0 (df_rows parameter_values)) as [(H1 & ->)|(H1 & ->)];
    cbn [rbind]; (split; [intros Hall|intros Hsome]); try lia; try done.
  set (d0 := zip_with app a0 (df_rows parameter_values)).
  assert (length d0 = length (df_rows parameter_values)) as Hd0.
  { unfold d0. rewrite length_zip_with. lia. }
  destruct (c_cases d0 err_out) as [(H2 & ->)|(H2 & ->)]; cbn [rbind]; [|lia].
  set (d1 := zip_with app d0 err_out).
  assert (length d1 = length (df_rows parameter_values)) as Hd1.
  { unfold d1. rewrite length_zip_with. lia. }
  destruct sky_out as [sky|].
  - specialize (Hsky sky eq_refl).
    destruct (c_cases d1 (map (fun x => [x]) sky)) as [(H3 & ->)|(H3 & ->)];
      cbn [rbind]; [|rewrite length_map in H3; lia].
    eexists. split; [done|]. simpl. split; [done|].
    rewrite length_zip_with, length_map. lia.
  - eexists. split; [done|]. simpl. by split.
Qed.

(** X24: the loop over the sub-networks stops at the first pass that
    raises: the exception of that pass leaves [analyze_and_save_to_txt]
    and the sub-networks after it are not looked at. *)
Theorem analyze_and_save_stops_at_first_failure (network : Network)
    (parameter_values : DataFrame) fp pop wm (wc : WaveformClass Wave) udc
    (before after : list (list Z)) (ids : list Z) (e : exn)
    (files : list TxtFile) :
  (forall x, x ∈ before ->
     exists f, analyze_one projection SNR scalar_product svd str_of_float
                 partial network parameter_values fp pop wm wc udc x = Ok f) ->
  analyze_one projection SNR scalar_product svd str_of_float partial
    network parameter_values fp pop wm wc udc ids = Raise e ->
  analyze_and_save_to_txt projection SNR scalar_product svd str_of_float
    partial network parameter_values fp (before ++ ids :: after) pop wm wc udc
    files = Raise e.
Proof.
  intros Hbefore Hids. unfold analyze_and_save_to_txt.
  apply (for_each_raises (fun _ => True)); [| |done].
  - intros x s1 Hx _. destruct (Hbefore x Hx) as [f Hf].
    unfold bind, lift, modify. rewrite Hf. by eexists.
  - intros s1 _. unfold bind, lift. by rewrite Hids.
Qed.

End ReportingBehaviour.


(** ** Further properties at the small instance *)

Lemma with_respect_to_raises_only_KeyError_witness :
  with_respect_to toy_projection "mass_1" toy_derivative
  = Raise (KeyError "mass_1") <->
  "mass_1" <> "geocent_time" /\ "mass_1" <> "phase" /\
  toy_parameters !! "mass_1" = None /\ KeyError "mass_1" = KeyError "mass_1".
Proof.
  apply (with_respect_to_raises_only_KeyError toy_projection toy_derivative
           "mass_1" (KeyError "mass_1")).
  intros _. change (Some 100 <> Some 0). intros [= H]. lra.
Defined.

Lemma with_respect_to_resets_waveform_object_witness :
  exists deriv self',
    with_respect_to toy_projection "ra" toy_derivative = Ok (deriv, self') /\
    wo_gw_params (d_waveform_object self') = toy_parameters /\
    d_local_params self' = toy_parameters.
Proof.
  destruct (with_respect_to_total toy_projection toy_derivative "ra")
    as (deriv & self' & H); [right; right; by eexists|].
  exists deriv, self'. split; [exact H|].
  destruct (with_respect_to_resets_waveform_object toy_projection toy_derivative
              self' "ra" deriv H) as (H1 & H2 & _).
  by split.
Defined.

Lemma derivative_calls_are_repeatable_witness :
  exists deriv self',
    with_respect_to toy_projection "ra" toy_derivative = Ok (deriv, self') /\
    derivative_value toy_projection self' "dec"
    = derivative_value toy_projection toy_derivative "dec".
Proof.
  destruct (with_respect_to_total toy_projection toy_derivative "ra")
    as (deriv & self' & H); [right; right; by eexists|].
  exists deriv, self'. split; [exact H|].
  apply (derivative_calls_are_repeatable toy_projection toy_derivative self'
           "ra" "dec" deriv); [reflexivity|exact H].
Defined.

Lemma perturbed_points_are_one_step_apart_witness :
  exists deriv self' v1 v2,
    with_respect_to toy_projection "ra" toy_derivative = Ok (deriv, self') /\
    d_pv_set1 self' !! "ra" = Some v1 /\
    d_pv_set2 self' !! "ra" = Some v2 /\
    v1 < 1 < v2 /\ v2 - v1 = step default_eps 1 /\
    default_eps <= step default_eps 1.
Proof.
  apply (perturbed_points_are_one_step_apart toy_projection toy_derivative "ra" 1).
  - simpl. unfold default_eps. lra.
  - discriminate.
  - discriminate.
  - discriminate.
  - reflexivity.
Defined.

Lemma intrinsic_branch_restores_geocent_time_witness :
  exists deriv self',
    with_respect_to toy_projection "mass_1" toy_derivative_mass
    = Ok (deriv, self') /\
    d_pv_set1 self'
    = <["mass_1" := 30 - step default_eps 30 / 2]> toy_parameters_mass /\
    d_pv_set2 self'
    = <["mass_1" := 30 + step default_eps 30 / 2]> toy_parameters_mass.
Proof.
  apply (intrinsic_branch_restores_geocent_time toy_projection
           toy_derivative_mass "mass_1" 30).
  - reflexivity.
  - intros H. repeat (apply elem_of_cons in H as [H|H]; [discriminate|]).
    by apply elem_of_nil in H.
  - reflexivity.
Defined.

Lemma toy_scalar_product_nonneg (d : list C) (detector : Detector) (x : R) :
  x ∈ toy_scalar_product d d detector -> 0 <= x.
Proof.
  unfold toy_scalar_product.
  intros (i & y & z & -> & Hy & Hz)%elem_of_lookup_zip_with.
  rewrite Hy in Hz. injection Hz as <-. nra.
Qed.

Lemma update_fm_diagonal_nonneg_witness :
  exists m, fm_fm (proj1_sig toy_update_fm) = Some m /\ forall i, 0 <= m i i.
Proof.
  apply (update_fm_diagonal_nonneg toy_projection toy_scalar_product
           toy_scalar_product_nonneg toy_fisher (proj1_sig toy_update_fm) tt).
  exact (proj2_sig toy_update_fm).
Defined.

Lemma update_fm_raises_first_missing_parameter_witness :
  update_fm toy_projection toy_scalar_product toy_fisher_missing
  = Raise (KeyError "mass_1") /\
  (fm_fm toy_fisher_missing = None ->
   fm toy_projection toy_scalar_product toy_fisher_missing
   = Raise (KeyError "mass_1")).
Proof.
  apply (update_fm_raises_first_missing_parameter toy_projection
           toy_scalar_product toy_fisher_missing ["phase"] ["ra"] "mass_1").
  - reflexivity.
  - reflexivity.
  - intros x ->%list_elem_of_singleton. by right; left.
  - intros _. change (Some 100 <> Some 0). intros [= H]. lra.
  - discriminate.
  - discriminate.
  - reflexivity.
Defined.

Lemma update_fm_is_repeatable_witness :
  exists s2 m1 m2,
    update_fm toy_projection toy_scalar_product (proj1_sig toy_update_fm)
    = Ok (tt, s2) /\
    fm_fm (proj1_sig toy_update_fm) = Some m1 /\ fm_fm s2 = Some m2 /\
    forall i j, (i < 2)%nat -> (j < 2)%nat -> m2 i j = m1 i j.
Proof.
  apply (update_fm_is_repeatable toy_projection toy_scalar_product toy_fisher
           (proj1_sig toy_update_fm) tt).
  - reflexivity.
  - reflexivity.
  - exact (proj2_sig toy_update_fm).
Defined.

Lemma toy_compute_detector_fisher :
  compute_detector_fisher toy_projection toy_SNR toy_scalar_product toy_detector
    toy_row ["phase"] "IMRPhenomD" toy_class false = Ok (toy_result toy_detector).
Proof. vm_compute. reflexivity. Qed.

Lemma compute_detector_fisher_returns_iff_witness :
  let result :=
    compute_detector_fisher toy_projection toy_SNR toy_scalar_product
      toy_detector toy_parameters ["phase"; "luminosity_distance"]
      "IMRPhenomD" toy_class false in
  ((exists r, result = Ok r) <->
   is_Some (toy_parameters !! "geocent_time") /\
   forall t, t ∈ ["phase"; "luminosity_distance"] ->
     t = "phase" \/ is_Some (toy_parameters !! t)) /\
  (forall e, result = Raise e ->
     exists key, e = KeyError key /\ toy_parameters !! key = None /\
                 (key = "geocent_time"
                  \/ key ∈ ["phase"; "luminosity_distance"])).
Proof.
  apply (compute_detector_fisher_returns_iff toy_projection toy_SNR
           toy_scalar_product toy_detector toy_parameters
           ["phase"; "luminosity_distance"] "IMRPhenomD" toy_class false).
  intros _. change (Some 100 <> Some 0). intros [= H]. lra.
Defined.

Lemma compute_detector_fisher_entries_witness :
  exists derivative,
    Derivative_init "IMRPhenomD" toy_row toy_detector None toy_class
    = Ok derivative /\
    d_eps derivative = 1e-5 /\
    (forall i j, (toy_result toy_detector).1 i j = (toy_result toy_detector).1 j i) /\
    (forall i j ti tj, (i <= j)%nat ->
       ["phase"] !! i = Some ti -> ["phase"] !! j = Some tj ->
       exists di dj,
         derivative_value toy_projection derivative ti = Ok di /\
         derivative_value toy_projection derivative tj = Ok dj /\
         (toy_result toy_detector).1 i j
         = Rsum (toy_scalar_product di dj toy_detector)) /\
    (toy_result toy_detector).2
    = Rsum (map (fun x => x ^ 2)
              (toy_SNR toy_detector
                 (toy_projection toy_row toy_detector
                    (wf_call toy_class "IMRPhenomD" toy_row
                       (mkDataParams (frequencyvector toy_detector) 50))
                    (wf_t_of_f toy_class "IMRPhenomD" toy_row
                       (mkDataParams (frequencyvector toy_detector) 50)))
                 false)).
Proof.
  apply (compute_detector_fisher_entries toy_projection toy_SNR
           toy_scalar_product toy_detector toy_row ["phase"] "IMRPhenomD"
           toy_class false).
  exact toy_compute_detector_fisher.
Defined.

Lemma invertSVD_rescaling_witness :
  let scaled : Matrix := fun i j => 2 * 2 * toy_matrix i j in
  (invertSVD toy_svd 2 scaled).2 = (invertSVD toy_svd 2 toy_matrix).2 /\
  (invertSVD toy_svd 2 scaled).1 0%nat 1%nat
  = (invertSVD toy_svd 2 toy_matrix).1 0%nat 1%nat / (2 * 2) /\
  sqrt ((invertSVD toy_svd 2 scaled).1 0%nat 0%nat)
  = sqrt ((invertSVD toy_svd 2 toy_matrix).1 0%nat 0%nat) / 2.
Proof.
  destruct (invertSVD_rescaling toy_svd 2 toy_matrix (fun _ => 2)) as (H1 & H2).
  - reflexivity.
  - intros i _. lra.
  - intros i _. unfold toy_matrix, mdiag. rewrite decide_True by done. lra.
  - intros scaled. split; [exact H1|]. apply (H2 0%nat 1%nat); lia.
Defined.

Lemma sky_localization_area_bounds_witness :
  0 <= sky_localization_area toy_matrix 0 0 1
    <= PI * (sqrt (toy_matrix 0%nat 0%nat) * sqrt (toy_matrix 1%nat 1%nat)) /\
  (toy_matrix 0%nat 1%nat = 0 ->
   sky_localization_area toy_matrix 0 0 1
   = PI * Rabs (cos 0)
     * (sqrt (toy_matrix 0%nat 0%nat) * sqrt (toy_matrix 1%nat 1%nat))).
Proof.
  assert (toy_matrix 0%nat 0%nat = 4) as H00 by reflexivity.
  assert (toy_matrix 1%nat 1%nat = 4) as H11 by reflexivity.
  assert (toy_matrix 0%nat 1%nat = 0) as H01 by reflexivity.
  apply (sky_localization_area_bounds toy_matrix 0 0 1).
  - rewrite H00. lra.
  - rewrite H11. lra.
  - rewrite H00, H11, H01. lra.
Defined.

Lemma toy_signal_step :
  exists errors,
    signal_step toy_projection toy_SNR toy_scalar_product toy_svd toy_network
      toy_table ["phase"] "IMRPhenomD" toy_class false None
      (initial_arrays 1 1 None) 0
    = Ok (mkArrays [errors] None [sqrt (Rsum [4; 1])]).
Proof.
  destruct (signal_step_spec toy_projection toy_SNR toy_scalar_product toy_svd
              toy_network toy_table ["phase"] "IMRPhenomD" toy_class false None
              (initial_arrays 1 1 None) 0 toy_row toy_results toy_iloc
              (toy_detector_results _)) as (F & _ & _ & Heq).
  rewrite toy_snr_squares in Heq. eexists. exact Heq.
Qed.

Lemma network_snr_dominates_detectors_witness :
  exists spv x,
    iloc toy_table 0 = Ok spv /\
    [sqrt (Rsum [4; 1])] !! 0%nat = Some x /\ 0 <= x /\
    forall d, d ∈ detectors toy_network ->
      exists r,
        compute_detector_fisher toy_projection toy_SNR toy_scalar_product d spv
          ["phase"] "IMRPhenomD" toy_class false = Ok r /\
        0 <= r.2 /\ sqrt r.2 <= x.
Proof.
  destruct toy_signal_step as (errors & H).
  apply (network_snr_dominates_detectors toy_projection toy_SNR
           toy_scalar_product toy_svd toy_network toy_table ["phase"]
           "IMRPhenomD" toy_class false None (initial_arrays 1 1 None)
           (mkArrays [errors] None [sqrt (Rsum [4; 1])]) 0 H).
  simpl. lia.
Defined.

Lemma compute_network_errors_returns_own_rows_witness :
  exists errors havesky detected,
    signals_havesky ["phase"] = Ok havesky /\
    StronglySorted lt detected /\
    length [sqrt (Rsum [4; 1])] = length detected /\
    (forall j k, detected !! j = Some k ->
       (k < df_len toy_table)%nat /\
       exists x row area,
         [sqrt (Rsum [4; 1])] !! j = Some x /\ [errors] !! j = Some row /\
         None = area /\
         x > (detection_SNR toy_network).2 /\
         signal_values toy_projection toy_SNR toy_scalar_product toy_svd
           toy_network toy_table ["phase"] "IMRPhenomD" toy_class false
           havesky k x row area) /\
    (forall k, (k < df_len toy_table)%nat -> k ∉ detected ->
       exists x row area,
         ~ x > (detection_SNR toy_network).2 /\
         signal_values toy_projection toy_SNR toy_scalar_product toy_svd
           toy_network toy_table ["phase"] "IMRPhenomD" toy_class false
           havesky k x row area).
Proof.
  destruct toy_compute_network_errors as (errors & H & _).
  exists errors.
  apply (compute_network_errors_returns_own_rows toy_projection toy_SNR
           toy_scalar_product toy_svd toy_network toy_table ["phase"]
           "IMRPhenomD" toy_class false _ _ None H).
Defined.

Lemma compute_network_errors_output_shape_witness :
  exists errors,
    (length [sqrt (Rsum [4; 1])%R] <= df_len toy_table)%nat /\
    length [errors] = length [sqrt (Rsum [4; 1])] /\
    Forall (fun row : list R => length row = length ["phase"]) [errors] /\
    Forall (fun x => x > (detection_SNR toy_network).2) [sqrt (Rsum [4; 1])] /\
    ~ ("ra" ∈ ["phase"] /\ "dec" ∈ ["phase"]).
Proof.
  destruct toy_compute_network_errors as (errors & H & _).
  exists errors.
  apply (compute_network_errors_output_shape toy_projection toy_SNR
           toy_scalar_product toy_svd toy_network toy_table ["phase"]
           "IMRPhenomD" toy_class false _ _ None H).
Defined.

Lemma errors_file_name_negative_ids_witness :
  errors_file_name toy_str_of_float toy_network [-2; -1]%Z "BBH"
  = errors_file_name toy_str_of_float toy_network [0; 1]%Z "BBH".
Proof.
  apply (errors_file_name_negative_ids toy_str_of_float toy_network [0; 1]%Z "BBH").
  intros k Hk. simpl.
  repeat (apply elem_of_cons in Hk as [->|Hk]; [lia|]).
  by apply elem_of_nil in Hk.
Defined.

(** Behind the network threshold of [5] the one signal is not detected. *)
Lemma toy_compute_network_errors_strict :
  compute_network_errors toy_projection toy_SNR toy_scalar_product toy_svd
    toy_network_strict toy_table ["phase"] "IMRPhenomD" toy_class false
  = Ok ([], [], None).
Proof.
  destruct (signal_step_spec toy_projection toy_SNR toy_scalar_product toy_svd
              toy_network_strict toy_table ["phase"] "IMRPhenomD" toy_class
              false None (initial_arrays 1 1 None) 0 toy_row toy_results
              toy_iloc (toy_detector_results _)) as (F & _ & _ & Heq).
  rewrite toy_snr_squares in Heq.
  assert (~ sqrt (Rsum [4; 1]) > 5) as Hgt.
  { apply sqrt_not_above; [lra|]. unfold Rsum; simpl. lra. }
  set (x := sqrt (Rsum [4; 1])) in *.
  unfold compute_network_errors.
  change (df_len toy_table) with 1%nat. change (length ["phase"]) with 1%nat.
  rewrite !decide_True by lia.
  change (signals_havesky ["phase"]) with (@Ok (option (nat * nat)) None).
  unfold rbind at 1. cbn [seq fold_result].
  change (length ["phase"]) with 1%nat in Heq. rewrite Heq.
  cbn [rbind initial_arrays replicate parameter_errors sky_localization
         network_snr detection_SNR toy_network_strict snd where_gt].
  cbn [insert list_insert]. simpl where_gt.
  rewrite decide_False by exact Hgt. reflexivity.
Qed.

Lemma analyze_one_needs_every_signal_detected_witness :
  analyze_one toy_projection toy_SNR toy_scalar_product toy_svd
    (fun _ : R => "5.0")
    Network_partial toy_network_strict toy_table ["phase"] "BBH" "IMRPhenomD"
    toy_class false [0%Z]
  = Raise ValueError.
Proof.
  destruct (analyze_one_needs_every_signal_detected toy_projection toy_SNR
              toy_scalar_product toy_svd (fun _ : R => "5.0") Network_partial
              toy_network_strict toy_table ["phase"] "BBH" "IMRPhenomD"
              toy_class false [0%Z]
              (mkNetwork [toy_detector] (3 / 2, 5)) "Errors_ET_BBH_SNR5.0"
              [] [] None) as (_ & H).
  - reflexivity.
  - reflexivity.
  - exact toy_compute_network_errors_strict.
  - apply H. unfold df_len. simpl. lia.
Defined.

Lemma analyze_and_save_stops_at_first_failure_witness :
  analyze_and_save_to_txt toy_projection toy_SNR toy_scalar_product toy_svd
    toy_str_of_float Network_partial toy_network toy_table ["phase"]
    [[5%Z]; [0%Z]] "BBH" "IMRPhenomD" toy_class false []
  = Raise IndexError.
Proof.
  apply (analyze_and_save_stops_at_first_failure toy_projection toy_SNR
           toy_scalar_product toy_svd toy_str_of_float Network_partial
           toy_network toy_table ["phase"] "BBH" "IMRPhenomD" toy_class false
           [] [[0%Z]] [5%Z] IndexError []).
  - by intros x ?%elem_of_nil.
  - reflexivity.
Defined.

Lemma toy_filter_above :
  filter (fun r : Matrix * R => sqrt r.2 > (detection_SNR toy_network).1)
    toy_results
  = [toy_result toy_detector].
Proof.
  assert ((toy_result toy_detector).2 = 4) as H1
      by (unfold toy_result, Rsum; simpl; lra).
  assert ((toy_result toy_detector_B).2 = 1) as H2
      by (unfold toy_result, Rsum; simpl; lra).
  unfold toy_results. rewrite filter_cons, decide_True.
  - rewrite filter_cons, decide_False; [done|].
    rewrite H2. simpl. apply sqrt_not_above; lra.
  - rewrite H1. simpl. apply sqrt_above; lra.
Qed.

Lemma network_snr_sums_all_detectors_witness :
  exists errors F,
    compute_network_errors toy_projection toy_SNR toy_scalar_product toy_svd
      toy_network toy_table ["phase"] "IMRPhenomD" toy_class false
    = Ok ([sqrt (Rsum [4; 1])], [errors], None) /\
    map snd toy_results = [4; 1] /\
    (forall i j, F i j = Rsum [(toy_result toy_detector).1 i j]) /\
    errors = map (fun i => sqrt ((invertSVD toy_svd 1 F).1 i i)) (seq 0 1).
Proof.
  destruct toy_compute_network_errors as (errors & H & _).
  destruct (network_snr_sums_all_detectors toy_projection toy_SNR
              toy_scalar_product toy_svd toy_network toy_table ["phase"]
              "IMRPhenomD" toy_class false _ _ _ H)
    as (detected & _ & _ & Hlen & Hrows).
  destruct (Hrows 0%nat) as (spv & l & F & Hspv & Hl & HF & Hin & Hout);
    [unfold df_len; simpl; lia|].
  rewrite toy_iloc in Hspv. injection Hspv as <-.
  pose proof (toy_detector_results (3 / 2, 2)) as Hl'.
  change (detectors (mkNetwork [toy_detector; toy_detector_B] (3 / 2, 2)))
    with (detectors toy_network) in Hl'.
  rewrite Hl' in Hl. injection Hl as <-.
  exists errors, F. split; [exact H|]. split; [exact toy_snr_squares|].
  split.
  - intros i j. by rewrite HF, toy_filter_above.
  - rewrite toy_snr_squares in Hin.
    assert (0%nat ∈ detected) as Hd.
    { apply Hin. change (sqrt (Rsum [4; 1]) > 2).
      apply sqrt_above; [lra|]. unfold Rsum; simpl. lra. }
    apply list_elem_of_lookup in Hd as [j Hj].
    destruct (Hout j Hj) as (_ & He).
    assert (j = 0)%nat as ->.
    { apply lookup_lt_Some in He. simpl in He. lia. }
    simpl in He. by injection He as ->.
Defined.


